(** * PNG-SVG: a shallow embedding of the raster-to-vector pipeline

    The JavaScript sources are embedded module by module:
    - [step2_quantize.js]   (quantizeImage, layerToMask)
    - [step2b_dilate.js]    (dilateOnce, dilateHybrid)
    - [step3_tracing.js]    (mooreNeighborTrace, floodFillVisited, traceContours)
    - [step3b_smoothing.js] (smoothPoints, filterNoise)
    - [step4_simplification.js] (perpendicularDistance, simplifyPath)
    - [step5_curve_fitting.js]  (filterDuplicates, isCorner, safeNormalize, fitCurves)
    - [step7_svg.js]        (toFixed, rgbToHex, buildSVG)
    - [main.js]             (getPolygonArea and the per-layer assembly)

    Conventions.
    - Grid indices and pixel samples are JavaScript numbers that only ever
      hold integers; they are modelled in [Z] (or [nat] for loop counters).
    - Geometric coordinates are modelled as real numbers [R], the reading the
      data model gives them (a Point is a pair of real coordinates): the
      arithmetic is exact, the rounding of binary64 is not modelled.  What is
      proved of these definitions is proved of the exact arithmetic; it
      carries over to the program where it only follows the comparisons the
      code makes on the numbers it computed, and not where it uses that an
      expression cancels or that a sum is exact.
    - [Binary64] embeds the curve fitter, [perpendicularDistance] and the
      area test of [filterNoise] a second time, over binary64 numbers, to
      show where the program leaves the exact arithmetic.
    - A JavaScript function returns an [outcome]: [Ok v], or [TypeError]
      when it throws (reading a property of [undefined]), or [OutOfFuel]
      when a loop or a recursion of the model was not given enough steps.
    - Reading an array out of range gives [undefined]; this is the [None] of
      a list lookup, and [undefined === 1] is false. *)

From Stdlib Require Import ZArith List Bool Lia Reals Lra Psatz.
From stdpp Require Import base option list.
From Stdlib Require String Ascii.
From Stdlib Require Floats.

Open Scope Z_scope.

(** ** Shared control structures *)

Inductive outcome (A : Type) : Type :=
  | Ok (a : A)
  | TypeError
  | OutOfFuel.
Arguments Ok {A} a.
Arguments TypeError {A}.
Arguments OutOfFuel {A}.

Definition bind {A B : Type} (m : outcome A) (k : A → outcome B) : outcome B :=
  match m with
  | Ok a => k a
  | TypeError => TypeError
  | OutOfFuel => OutOfFuel
  end.

Notation "'let*' x ':=' m 'in' k" := (bind m (λ x, k))
  (at level 10, x pattern, m at level 100, k at level 200).

(** [for (const a of l) s = body(a, s)], where the body may throw. *)
Fixpoint forM {A S : Type} (l : list A) (body : A → S → outcome S) (s : S)
  : outcome S :=
  match l with
  | [] => Ok s
  | a :: l' => let* s' := body a s in forM l' body s'
  end.

(** A [while] loop: one [step] either continues with a new state ([inl]) or
    leaves the loop with a result ([inr]).  The loop is given [fuel] steps. *)
Fixpoint while {S R : Type} (step : S → outcome (S + R)) (fuel : nat) (s : S)
  : outcome R :=
  match fuel with
  | O => OutOfFuel
  | S fuel' =>
      let* next := step s in
      match next with
      | inl s' => while step fuel' s'
      | inr r => Ok r
      end
  end.

(** [s = f(s)] repeated [n] times. *)
Fixpoint repeatM {S : Type} (n : nat) (f : S → outcome S) (s : S) : outcome S :=
  match n with
  | O => Ok s
  | S n' => let* s' := f s in repeatM n' f s'
  end.

(** ** Binary grids *)

Module Grid.

(** A mask is an array of rows, [mask[y][x]]. *)
Abbreviation Mask := (list (list Z)).

(** [mask[y][x]], [undefined] when either index is out of range. *)
Definition pixelAt (m : Mask) (y x : nat) : option Z :=
  match m !! y with
  | Some row => row !! x
  | None => None
  end.

(** [v === 1] *)
Definition isOne (v : option Z) : bool :=
  match v with
  | Some 1 => true
  | _ => false
  end.

(** [m[y][x] = v] for indices inside the grid: the write of [dilateOnce],
    which a bounds check guards.  The writes that no check guards are
    [Tracing.markVisited] and [Quantize.markPoint]. *)
Definition setPixel {A : Type} (m : list (list A)) (y x : nat) (v : A)
  : list (list A) :=
  alter (λ row, <[x := v]> row) y m.

(** [Array(height).fill(..).map(() => Array(width).fill(v))] *)
Definition newGrid {A : Type} (height width : nat) (v : A) : list (list A) :=
  replicate height (replicate width v).

(** A grid with [height] rows of [width] cells. *)
Definition rect {A : Type} (height width : nat) (m : list (list A)) : Prop :=
  length m = height ∧ Forall (λ row, length row = width) m.

(** [0 <= n && n < bound] on a JavaScript integer. *)
Definition inRange (n : Z) (bound : nat) : bool :=
  (0 <=? n) && (n <? Z.of_nat bound).

End Grid.

(** ** step2b_dilate.js *)

Module Dilate.
Import Grid.

(** The values of [dy] and of [dx]: [for (let d = -1; d <= 1; d++)]. *)
Definition offsets : list Z := [-1; 0; 1].

(** The body of the two inner loops for one [(dy, dx)]: bounds check, then
    the coverage check, then [output[ny][nx] = 1].  [coverageMask] is
    [None] for JavaScript's [null]. *)
Definition writeNeighbour (height width : nat) (coverageMask : option Mask)
    (y x : nat) (dy dx : Z) (output : Mask) : outcome Mask :=
  let ny := Z.of_nat y + dy in
  let nx := Z.of_nat x + dx in
  if inRange ny height && inRange nx width then
    match coverageMask with
    | None => Ok (setPixel output (Z.to_nat ny) (Z.to_nat nx) 1)
    | Some cov =>
        match cov !! Z.to_nat ny with
        | None => TypeError (* coverageMask[ny] is undefined *)
        | Some covRow =>
            if isOne (covRow !! Z.to_nat nx)
            then Ok (setPixel output (Z.to_nat ny) (Z.to_nat nx) 1)
            else Ok output
        end
    end
  else Ok output.

(** The body of the [x] loop. *)
Definition dilatePixel (mask : Mask) (height width : nat)
    (coverageMask : option Mask) (y x : nat) (output : Mask) : outcome Mask :=
  if isOne (pixelAt mask y x) then
    forM offsets (λ dy,
      forM offsets (λ dx, writeNeighbour height width coverageMask y x dy dx))
      output
  else Ok output.

Definition dilateOnce (mask : Mask) (coverageMask : option Mask)
  : outcome Mask :=
  match mask !! 0%nat with
  | None => TypeError (* mask[0].length on an empty mask *)
  | Some row0 =>
      let height := length mask in
      let width := length row0 in
      let output := newGrid height width 0 in
      forM (seq 0 height) (λ y,
        forM (seq 0 width) (λ x,
          dilatePixel mask height width coverageMask y x))
        output
  end.

(** The [options] object; an absent field takes its default. *)
Record Options := {
  unconditionalPasses : option nat;
  smartPasses : option nat
}.

Definition defaultOptions : Options :=
  {| unconditionalPasses := None; smartPasses := None |}.

Definition dilateHybrid (mask coverageMask : Mask) (options : Options)
  : outcome Mask :=
  let unconditional := default 1%nat (unconditionalPasses options) in
  let smart := default 1%nat (smartPasses options) in
  let* result := repeatM unconditional (λ result, dilateOnce result None) mask in
  repeatM smart (λ result, dilateOnce result (Some coverageMask)) result.

(** [dilateMask], the compatibility export. *)
Definition dilateMask (mask : Mask) (iterations : nat) (coverageMask : Mask)
  : outcome Mask :=
  dilateHybrid mask coverageMask
    {| unconditionalPasses := Some 0%nat; smartPasses := Some iterations |}.

End Dilate.

(** ** step3_tracing.js *)

Module Tracing.
Import Grid.

(** A pixel position [{x, y}] on the integer grid. *)
Record Pixel := mkPixel { ix : Z; iy : Z }.

Definition Pixel_eqb (p q : Pixel) : bool :=
  (ix p =? ix q) && (iy p =? iy q).

(** Moore neighbourhood, clockwise from North, as [(dx, dy)].
    <<
    7 0 1
    6 P 2
    5 4 3
    >> *)
Definition DIRECTIONS : list (Z * Z) :=
  [ (0, -1); (1, -1); (1, 0); (1, 1); (0, 1); (-1, 1); (-1, 0); (-1, -1) ].

Definition MAX_LOOP : nat := Z.to_nat 10000.

(** [nx >= 0 && ny >= 0 && nx < mask[0].length && ny < mask.length] and then
    [mask[ny][nx] === 1].  [&&] evaluates left to right, so [mask[0].length]
    throws on an empty mask only when both coordinates are non-negative. *)
Definition foregroundAt (mask : Mask) (nx ny : Z) : outcome bool :=
  if (0 <=? nx) && (0 <=? ny) then
    match mask !! 0%nat with
    | None => TypeError
    | Some row0 =>
        if (nx <? Z.of_nat (length row0)) && (ny <? Z.of_nat (length mask))
        then Ok (isOne (pixelAt mask (Z.to_nat ny) (Z.to_nat nx)))
        else Ok false
    end
  else Ok false.

(** The [for (let i = 0; i < 8; i++)] scan, over the remaining values of
    [i].  It yields the new [(cx, cy, backtrackDir)] at the first foreground
    neighbour, or [None] when the scan ends with [foundNext] still false.
    [backtrackDir] is a direction index; the only caller passes 6. *)
Fixpoint scanNeighbours (mask : Mask) (cx cy : Z) (backtrackDir : nat)
    (rest : list nat) : outcome (option (Z * Z * nat)) :=
  match rest with
  | [] => Ok None
  | i :: rest' =>
      let checkDir := ((backtrackDir + i) mod 8)%nat in
      match DIRECTIONS !! checkDir with
      | None => TypeError
      | Some (dx, dy) =>
          let nx := cx + dx in
          let ny := cy + dy in
          let* found := foregroundAt mask nx ny in
          if found
          then Ok (Some (nx, ny, ((checkDir + 7) mod 8)%nat))
          else scanNeighbours mask cx cy backtrackDir rest'
      end
  end.

(** The variables of the [while (true)] loop. *)
Record TraceState := mkTraceState {
  cx : Z;
  cy : Z;
  backtrackDir : nat;
  contour : list Pixel;
  loopCount : nat
}.

(** Which [break] left the loop (a ghost of the model: the source returns
    the contour only). *)
Inductive Exit := Closed | Isolated | CapExceeded.

(** One iteration of the [while (true)] loop. *)
Definition traceStep (mask : Mask) (startX startY : Z) (st : TraceState)
  : outcome (TraceState + (list Pixel * Exit)) :=
  let loopCount' := S (loopCount st) in
  if (MAX_LOOP <? loopCount')%nat then Ok (inr (contour st, CapExceeded))
  else
    let* found := scanNeighbours mask (cx st) (cy st) (backtrackDir st) (seq 0 8) in
    match found with
    | None => Ok (inr (contour st, Isolated))
    | Some (nx, ny, backtrackDir') =>
        if (nx =? startX) && (ny =? startY)
        then Ok (inr (contour st, Closed))
        else Ok (inl {| cx := nx; cy := ny; backtrackDir := backtrackDir';
                        contour := contour st ++ [mkPixel nx ny];
                        loopCount := loopCount' |})
    end.

Definition traceInit (startX startY : Z) (initialBacktrackDir : nat)
  : TraceState :=
  {| cx := startX; cy := startY; backtrackDir := initialBacktrackDir;
     contour := [mkPixel startX startY]; loopCount := 0 |}.

(** The boundary walk given [fuel] iterations of its loop, with the exit
    taken. *)
Definition traceWalk (fuel : nat) (mask : Mask) (startX startY : Z)
    (initialBacktrackDir : nat) : outcome (list Pixel * Exit) :=
  while (traceStep mask startX startY) fuel
    (traceInit startX startY initialBacktrackDir).

(** [mooreNeighborTrace]; [visited] is accepted and never used.  The cap
    lets the loop test its condition at most [MAX_LOOP + 1] times. *)
Definition mooreNeighborTrace (mask : Mask) (startX startY : Z)
    (visited : list (list bool)) (initialBacktrackDir : nat)
  : outcome (list Pixel) :=
  let* r := traceWalk (S MAX_LOOP) mask startX startY initialBacktrackDir in
  Ok (fst r).

(** [!visited[y][x]]; [visited] always has the dimensions of the mask. *)
Definition unvisited (visited : list (list bool)) (y x : nat) : bool :=
  match visited !! y with
  | Some row => negb (default false (row !! x))
  | None => true
  end.

(** [visited[y][x]] read for its truth value in the flood fill, which is
    handed [visited] by its caller: reading a cell of a row that does not
    exist throws, a cell beyond the end of its row is [undefined]. *)
Definition visitedAt (visited : list (list bool)) (y x : nat) : outcome bool :=
  match visited !! y with
  | Some row => Ok (default false (row !! x))
  | None => TypeError
  end.

(** [visited[y][x] = true]: writing to a row that does not exist throws; a
    write beyond the end of the row makes the row grow, and the cells in
    between stay empty (they read as [undefined], here [false]). *)
Definition markVisited (visited : list (list bool)) (y x : nat)
  : outcome (list (list bool)) :=
  match visited !! y with
  | Some row =>
      if (x <? length row)%nat then Ok (setPixel visited y x true)
      else Ok (<[y := row ++ replicate (x - length row) false ++ [true]]>
                 visited)
  | None => TypeError
  end.

(** The body of [for (const n of neighbors)] in the flood fill. *)
Definition visitNeighbour (mask : Mask) (width height : nat) (n : Pixel)
    (st : list Pixel * list (list bool))
  : outcome (list Pixel * list (list bool)) :=
  let '(queue, visited) := st in
  if inRange (ix n) width && inRange (iy n) height then
    if isOne (pixelAt mask (Z.to_nat (iy n)) (Z.to_nat (ix n))) then
      let* seen := visitedAt visited (Z.to_nat (iy n)) (Z.to_nat (ix n)) in
      if seen then Ok st
      else
        let* visited :=
          markVisited visited (Z.to_nat (iy n)) (Z.to_nat (ix n)) in
        Ok (queue ++ [n], visited)
    else Ok st
  else Ok st.

(** One iteration of [while (queue.length > 0)]. *)
Definition floodStep (mask : Mask) (width height : nat)
    (st : list Pixel * list (list bool))
  : outcome ((list Pixel * list (list bool)) + list (list bool)) :=
  match fst st with
  | [] => Ok (inr (snd st))
  | p :: queue =>
      let neighbors :=
        [ mkPixel (ix p + 1) (iy p); mkPixel (ix p - 1) (iy p);
          mkPixel (ix p) (iy p + 1); mkPixel (ix p) (iy p - 1) ] in
      let* st' :=
        forM neighbors (visitNeighbour mask width height) (queue, snd st) in
      Ok (inl st')
  end.

(** [floodFillVisited]; it returns the updated [visited] grid.  Every
    dequeued pixel but the first was unvisited when it was enqueued, so the
    loop runs at most once per cell, once for the start and once to find the
    queue empty. *)
Definition floodFillVisited (mask : Mask) (startX startY : nat)
    (visited : list (list bool)) : outcome (list (list bool)) :=
  match mask !! 0%nat with
  | None => TypeError
  | Some row0 =>
      let width := length row0 in
      let height := length mask in
      let* visited := markVisited visited startY startX in
      while (floodStep mask width height) (S (S (height * width)))
        ([mkPixel (Z.of_nat startX) (Z.of_nat startY)], visited)
  end.

Record Contour := mkContour { points : list Pixel; isHole : bool }.

(** The body of the [x] loop of the outer scan. *)
Definition scanPixel (mask : Mask) (y x : nat)
    (st : list (list bool) * list Contour)
  : outcome (list (list bool) * list Contour) :=
  let '(visited, contours) := st in
  if isOne (pixelAt mask y x) && unvisited visited y x then
    let* contourPoints :=
      mooreNeighborTrace mask (Z.of_nat x) (Z.of_nat y) visited 6 in
    let contours :=
      if (0 <? length contourPoints)%nat
      then contours ++ [ {| points := contourPoints; isHole := false |} ]
      else contours in
    let* visited := floodFillVisited mask x y visited in
    Ok (visited, contours)
  else Ok st.

Definition traceContours (mask : Mask) : outcome (list Contour) :=
  match mask !! 0%nat with
  | None => TypeError
  | Some row0 =>
      let height := length mask in
      let width := length row0 in
      let visited := newGrid height width false in
      let* st :=
        forM (seq 0 height) (λ y,
          forM (seq 0 width) (λ x, scanPixel mask y x))
          (visited, []) in
      Ok (snd st)
  end.

End Tracing.

(** ** Points with real coordinates

    [distance] and [safeNormalize] are the helpers of step5_curve_fitting.js;
    they are shared by the modules below. *)

Module Geometry.
Open Scope R_scope.

(** A point [{x, y}]. *)
Record Point := mkPoint { px : R; py : R }.

(** [a < b], [a > b] is [Rltb b a]. *)
Definition Rltb (a b : R) : bool := if Rlt_dec a b then true else false.

(** [a === b] *)
Definition Reqb (a b : R) : bool := if Req_dec_T a b then true else false.

(** [l[i].x], [l[i].y]: reading a coordinate of [undefined] throws. *)
Definition at_ {A : Type} (l : list A) (i : nat) : outcome A :=
  match l !! i with
  | Some a => Ok a
  | None => TypeError
  end.

(** [Math.sqrt(Math.pow(p2.x - p1.x, 2) + Math.pow(p2.y - p1.y, 2))] *)
Definition distance (p1 p2 : Point) : R :=
  sqrt ((px p2 - px p1) ^ 2 + (py p2 - py p1) ^ 2).

(** SAFE NORMALIZE: the zero vector for a vector shorter than 1e-9. *)
Definition safeNormalize (v : Point) : Point :=
  let len := sqrt (px v * px v + py v * py v) in
  if Rltb len 1e-9 then {| px := 0; py := 0 |}
  else {| px := px v / len; py := py v / len |}.

(** [array.map(f)] for an [f] that may throw. *)
Fixpoint mapM {A B : Type} (f : A → outcome B) (l : list A) : outcome (list B) :=
  match l with
  | [] => Ok []
  | a :: l' =>
      let* b := f a in
      let* bs := mapM f l' in
      Ok (b :: bs)
  end.

End Geometry.

(** ** step3b_smoothing.js *)

Module Smoothing.
Import Geometry.
Open Scope R_scope.

(** One iteration of the smoothing loop: the new array [newPoints].
    [(i - 1 + len) % len] is written [(i + len - 1) mod len], natural
    subtraction being truncated. *)
Definition smoothOnce (currentPoints : list Point) : outcome (list Point) :=
  let len := length currentPoints in
  mapM (λ i,
    let* prev := at_ currentPoints ((i + len - 1) mod len)%nat in
    let* curr := at_ currentPoints i in
    let* next := at_ currentPoints ((i + 1) mod len)%nat in
    Ok {| px := (px prev + (px curr * 2) + px next) / 4;
          py := (py prev + (py curr * 2) + py next) / 4 |})
    (seq 0 len).

Definition smoothPoints (points : list Point) (iterations : nat)
  : outcome (list Point) :=
  if (length points <? 3)%nat then Ok points
  else repeatM iterations smoothOnce points.

(** The body of the area loop of [filterNoise]: [area += ...; area -= ...]. *)
Definition noiseAreaStep (contour : list Point) (i : nat) (area : R)
  : outcome R :=
  let j := ((i + 1) mod length contour)%nat in
  let* pi := at_ contour i in
  let* pj := at_ contour j in
  Ok (area + px pi * py pj - px pj * py pi).

(** The callback of [contours.filter]: [(Math.abs(area) / 2) > minArea].
    In exact arithmetic; the sum of a contour of two points cancels to 0
    here and need not in binary64 ([Binary64.aboveNoise]). *)
Definition aboveNoise (minArea : R) (contour : list Point) : outcome bool :=
  let* area := forM (seq 0 (length contour)) (noiseAreaStep contour) 0 in
  Ok (Rltb minArea (Rabs area / 2)).

(** [array.filter(f)] for an [f] that may throw. *)
Fixpoint filterM {A : Type} (f : A → outcome bool) (l : list A)
  : outcome (list A) :=
  match l with
  | [] => Ok []
  | a :: l' =>
      let* keep := f a in
      let* rest := filterM f l' in
      Ok (if keep then a :: rest else rest)
  end.

(** [filterNoise]; here a contour is the bare array of its points. *)
Definition filterNoise (contours : list (list Point)) (minArea : R)
  : outcome (list (list Point)) :=
  filterM (aboveNoise minArea) contours.

End Smoothing.

(** ** step4_simplification.js *)

Module Simplification.
Import Geometry.
Open Scope R_scope.

(** Distance from [point] to the line through [lineStart] and [lineEnd];
    0 when the two coincide.  In exact arithmetic; the numerator cancels to
    0 at the two ends of the chord here and need not in binary64
    ([Binary64.perpendicularDistance]). *)
Definition perpendicularDistance (point lineStart lineEnd : Point) : R :=
  let x := px point in
  let y := py point in
  let x1 := px lineStart in
  let y1 := py lineStart in
  let x2 := px lineEnd in
  let y2 := py lineEnd in
  let numerator := Rabs ((y2 - y1) * x - (x2 - x1) * y + x2 * y1 - y2 * x1) in
  let denominator := sqrt ((y2 - y1) ^ 2 + (x2 - x1) ^ 2) in
  if Reqb denominator 0 then 0 else numerator / denominator.

(** The body of the search loop, on the state [(maxDistance, index)]. *)
Definition farthestStep (points : list Point) (firstPoint lastPoint : Point)
    (i : nat) (st : R * nat) : outcome (R * nat) :=
  let* p := at_ points i in
  let d := perpendicularDistance p firstPoint lastPoint in
  if Rltb (fst st) d then Ok (d, i) else Ok st.

(** [for (let i = 1; i < points.length - 1; i++)] from
    [maxDistance = 0], [index = 0]. *)
Definition farthest (points : list Point) (firstPoint lastPoint : Point)
  : outcome (R * nat) :=
  forM (seq 1 (length points - 2)) (farthestStep points firstPoint lastPoint)
    (0, 0%nat).

(** [simplifyPath] (Douglas-Peucker).  [fuel] bounds the depth of the
    recursion. *)
Fixpoint simplifyPath (fuel : nat) (points : list Point) (tolerance : R)
  : outcome (list Point) :=
  match fuel with
  | O => OutOfFuel
  | S fuel' =>
      if (length points <? 3)%nat then Ok points
      else
        let* firstPoint := at_ points 0 in
        let* lastPoint := at_ points (length points - 1) in
        let* found := farthest points firstPoint lastPoint in
        let maxDistance := fst found in
        let index := snd found in
        if Rltb tolerance maxDistance then
          let* leftPath := simplifyPath fuel' (take (index + 1) points) tolerance in
          let* rightPath := simplifyPath fuel' (drop index points) tolerance in
          Ok (take (length leftPath - 1) leftPath ++ rightPath)
        else Ok [firstPoint; lastPoint]
  end.

End Simplification.

(** ** step5_curve_fitting.js *)

Module CurveFitting.
Import Geometry.
Open Scope R_scope.

Record BezierCurve := mkCurve { p0 : Point; p1 : Point; p2 : Point; p3 : Point }.

(** The body of the filtering loop: [result] grows by [points[i]] when it
    is farther than [threshold] from the last point kept. *)
Definition keepDistinct (points : list Point) (threshold : R) (i : nat)
    (result : list Point) : outcome (list Point) :=
  let* last := at_ result (length result - 1) in
  let* curr := at_ points i in
  if Rltb threshold (distance last curr) then Ok (result ++ [curr])
  else Ok result.

Definition filterDuplicates (points : list Point) (threshold : R)
  : outcome (list Point) :=
  if (length points <? 2)%nat then Ok points
  else
    let* first := at_ points 0 in
    let* result :=
      forM (seq 1 (length points - 1)) (keepDistinct points threshold) [first] in
    if (2 <? length points)%nat then
      let* last := at_ points (length points - 1) in
      if Reqb (px first) (px last) && Reqb (py first) (py last) then
        let* r0 := at_ result 0 in
        let* rlast := at_ result (length result - 1) in
        if Rltb threshold (distance r0 rlast) then Ok (result ++ [r0])
        else Ok result
      else Ok result
    else Ok result.

(** [isCorner]; an absent ([undefined] or [null]) neighbour is [None]. *)
Definition isCorner (prev : option Point) (curr : Point) (next : option Point)
  : bool :=
  match prev, next with
  | Some prev, Some next =>
      if Rltb (distance prev curr) 0.1 || Rltb (distance curr next) 0.1
      then false
      else
        let v1 := safeNormalize {| px := px curr - px prev; py := py curr - py prev |} in
        let v2 := safeNormalize {| px := px next - px curr; py := py next - py curr |} in
        let dot := (px v1 * px v2) + (py v1 * py v2) in
        Rltb dot 0.2
  | _, _ => true
  end.

(** The body of the fitting loop for index [i]: [None] is [continue],
    [Some c] is [curves.push(c)].  In exact arithmetic; the program rounds
    the tangents, the lengths and the control points
    ([Binary64.fitSegment]). *)
Definition fitSegment (cleanPoints : list Point) (isClosed : bool) (i : nat)
  : outcome (option BezierCurve) :=
  let n := length cleanPoints in
  let* p0 := at_ cleanPoints i in
  let* p3 := at_ cleanPoints (i + 1) in
  if Rltb (distance p0 p3) 0.1 then Ok None
  else
    let* prev :=
      if (i =? 0)%nat
      then (if isClosed then at_ cleanPoints (n - 2) else Ok p0)
      else at_ cleanPoints (i - 1) in
    let* next :=
      if (i + 1 =? n - 1)%nat
      then (if isClosed then at_ cleanPoints 1 else Ok p3)
      else at_ cleanPoints (i + 2) in
    let p0IsCorner := isCorner (Some prev) p0 (Some p3) in
    let p3IsCorner := isCorner (Some p0) p3 (Some next) in
    let tangent1 :=
      if p0IsCorner
      then safeNormalize {| px := px p3 - px p0; py := py p3 - py p0 |}
      else safeNormalize {| px := px p3 - px prev; py := py p3 - py prev |} in
    let tangent2 :=
      if p3IsCorner
      then safeNormalize {| px := px p0 - px p3; py := py p0 - py p3 |}
      else safeNormalize {| px := px p0 - px next; py := py p0 - py next |} in
    let dist := distance p0 p3 in
    let maxLen := dist * 0.4 in
    let len1 := if p0IsCorner then Rmin (dist * 0.1) maxLen
                else Rmin (dist * 0.33) maxLen in
    let len2 := if p3IsCorner then Rmin (dist * 0.1) maxLen
                else Rmin (dist * 0.33) maxLen in
    let p1 := {| px := px p0 + px tangent1 * len1;
                 py := py p0 + py tangent1 * len1 |} in
    let p2 := {| px := px p3 + px tangent2 * len2;
                 py := py p3 + py tangent2 * len2 |} in
    Ok (Some {| p0 := p0; p1 := p1; p2 := p2; p3 := p3 |}).

Definition fitCurves (points : list Point) : outcome (list BezierCurve) :=
  let* cleanPoints := filterDuplicates points 1.0 in
  if (length cleanPoints <? 2)%nat then Ok []
  else
    let* first := at_ cleanPoints 0 in
    let* last := at_ cleanPoints (length cleanPoints - 1) in
    let isClosed := Reqb (px first) (px last) && Reqb (py first) (py last) in
    forM (seq 0 (length cleanPoints - 1)) (λ i curves,
      let* c := fitSegment cleanPoints isClosed i in
      match c with
      | Some c => Ok (curves ++ [c])
      | None => Ok curves
      end) [].

End CurveFitting.

(** ** The same code over binary64 numbers

    A JavaScript number is a binary64 floating-point number, and [+], [-],
    [*], [/], [Math.sqrt], [Math.abs], [<] and [===] are the operations of
    IEEE 754, as are the primitive operations used here.  [Math.pow(d, 2)]
    is written [d * d]: the two agree wherever [d * d] is exact, which is
    the case in every example computed with these definitions. *)

Module Binary64.
Import Floats.
Open Scope float_scope.
Set Warnings "-inexact-float".

(** A point [{x, y}]. *)
Record Point := mkPoint { px : float; py : float }.

(** [Math.pow(d, 2)] *)
Definition square (d : float) : float := d * d.

(** [Math.min(a, b)]: [NaN] when either is, and [-0] before [+0]. *)
Definition min (a b : float) : float :=
  if is_nan a then a
  else if is_nan b then b
  else if a <? b then a
  else if b <? a then b
  else if get_sign a then a else b.

(** [Math.sqrt(Math.pow(p2.x - p1.x, 2) + Math.pow(p2.y - p1.y, 2))] *)
Definition distance (p1 p2 : Point) : float :=
  sqrt (square (px p2 - px p1) + square (py p2 - py p1)).

Definition safeNormalize (v : Point) : Point :=
  let len := sqrt (px v * px v + py v * py v) in
  if len <? 1e-9 then {| px := 0; py := 0 |}
  else {| px := px v / len; py := py v / len |}.

Definition keepDistinct (points : list Point) (threshold : float) (i : nat)
    (result : list Point) : outcome (list Point) :=
  let* last := Geometry.at_ result (length result - 1) in
  let* curr := Geometry.at_ points i in
  if threshold <? distance last curr then Ok (result ++ [curr])
  else Ok result.

Definition filterDuplicates (points : list Point) (threshold : float)
  : outcome (list Point) :=
  if (length points <? 2)%nat then Ok points
  else
    let* first := Geometry.at_ points 0 in
    let* result :=
      forM (seq 1 (length points - 1)) (keepDistinct points threshold) [first] in
    if (2 <? length points)%nat then
      let* last := Geometry.at_ points (length points - 1) in
      if (px first =? px last) && (py first =? py last) then
        let* r0 := Geometry.at_ result 0 in
        let* rlast := Geometry.at_ result (length result - 1) in
        if threshold <? distance r0 rlast then Ok (result ++ [r0])
        else Ok result
      else Ok result
    else Ok result.

Definition isCorner (prev : option Point) (curr : Point) (next : option Point)
  : bool :=
  match prev, next with
  | Some prev, Some next =>
      if (distance prev curr <? 0.1) || (distance curr next <? 0.1)
      then false
      else
        let v1 := safeNormalize {| px := px curr - px prev; py := py curr - py prev |} in
        let v2 := safeNormalize {| px := px next - px curr; py := py next - py curr |} in
        let dot := (px v1 * px v2) + (py v1 * py v2) in
        dot <? 0.2
  | _, _ => true
  end.

Record BezierCurve := mkCurve { p0 : Point; p1 : Point; p2 : Point; p3 : Point }.

Definition fitSegment (cleanPoints : list Point) (isClosed : bool) (i : nat)
  : outcome (option BezierCurve) :=
  let n := length cleanPoints in
  let* p0 := Geometry.at_ cleanPoints i in
  let* p3 := Geometry.at_ cleanPoints (i + 1) in
  if distance p0 p3 <? 0.1 then Ok None
  else
    let* prev :=
      if (i =? 0)%nat
      then (if isClosed then Geometry.at_ cleanPoints (n - 2) else Ok p0)
      else Geometry.at_ cleanPoints (i - 1) in
    let* next :=
      if (i + 1 =? n - 1)%nat
      then (if isClosed then Geometry.at_ cleanPoints 1 else Ok p3)
      else Geometry.at_ cleanPoints (i + 2) in
    let p0IsCorner := isCorner (Some prev) p0 (Some p3) in
    let p3IsCorner := isCorner (Some p0) p3 (Some next) in
    let tangent1 :=
      if p0IsCorner
      then safeNormalize {| px := px p3 - px p0; py := py p3 - py p0 |}
      else safeNormalize {| px := px p3 - px prev; py := py p3 - py prev |} in
    let tangent2 :=
      if p3IsCorner
      then safeNormalize {| px := px p0 - px p3; py := py p0 - py p3 |}
      else safeNormalize {| px := px p0 - px next; py := py p0 - py next |} in
    let dist := distance p0 p3 in
    let maxLen := dist * 0.4 in
    let len1 := if p0IsCorner then min (dist * 0.1) maxLen
                else min (dist * 0.33) maxLen in
    let len2 := if p3IsCorner then min (dist * 0.1) maxLen
                else min (dist * 0.33) maxLen in
    let p1 := {| px := px p0 + px tangent1 * len1;
                 py := py p0 + py tangent1 * len1 |} in
    let p2 := {| px := px p3 + px tangent2 * len2;
                 py := py p3 + py tangent2 * len2 |} in
    Ok (Some {| p0 := p0; p1 := p1; p2 := p2; p3 := p3 |}).

Definition fitCurves (points : list Point) : outcome (list BezierCurve) :=
  let* cleanPoints := filterDuplicates points 1.0 in
  if (length cleanPoints <? 2)%nat then Ok []
  else
    let* first := Geometry.at_ cleanPoints 0 in
    let* last := Geometry.at_ cleanPoints (length cleanPoints - 1) in
    let isClosed := (px first =? px last) && (py first =? py last) in
    forM (seq 0 (length cleanPoints - 1)) (λ i curves,
      let* c := fitSegment cleanPoints isClosed i in
      match c with
      | Some c => Ok (curves ++ [c])
      | None => Ok curves
      end) [].

(** [perpendicularDistance] of step4_simplification.js. *)
Definition perpendicularDistance (point lineStart lineEnd : Point) : float :=
  let x := px point in
  let y := py point in
  let x1 := px lineStart in
  let y1 := py lineStart in
  let x2 := px lineEnd in
  let y2 := py lineEnd in
  let numerator := abs ((y2 - y1) * x - (x2 - x1) * y + x2 * y1 - y2 * x1) in
  let denominator := sqrt (square (y2 - y1) + square (x2 - x1)) in
  if denominator =? 0 then 0 else numerator / denominator.

(** The area test of [filterNoise] in step3b_smoothing.js. *)
Definition noiseAreaStep (contour : list Point) (i : nat) (area : float)
  : outcome float :=
  let j := ((i + 1) mod length contour)%nat in
  let* pi := Geometry.at_ contour i in
  let* pj := Geometry.at_ contour j in
  Ok (area + px pi * py pj - px pj * py pi).

Definition aboveNoise (minArea : float) (contour : list Point) : outcome bool :=
  let* area := forM (seq 0 (length contour)) (noiseAreaStep contour) 0 in
  Ok (minArea <? abs area / 2).

(** The real number a finite binary64 number stands for. *)
Definition toR (f : float) : R :=
  match Prim2SF f with
  | S754_finite s m e =>
      (IZR (if s then Z.neg m else Z.pos m) * powerRZ 2 e)%R
  | _ => 0%R
  end.

Definition exact (p : Point) : Geometry.Point :=
  {| Geometry.px := toR (px p); Geometry.py := toR (py p) |}.

End Binary64.

(** ** step2_quantize.js *)

Module Quantize.
Import Grid.

(** [{width, height, pixels}]: interleaved RGBA samples, row-major. *)
Record PixelData := mkPixelData {
  width : nat;
  height : nat;
  pixels : list Z
}.

Record Color := mkColor { r : Z; g : Z; b : Z }.

Definition Color_eqb (c d : Color) : bool :=
  (r c =? r d) && (g c =? g d) && (b c =? b d).

Record Layer := mkLayer { color : Color; points : list Tracing.Pixel }.

Record Cluster := mkCluster {
  clusterPoints : list Tracing.Pixel;
  sumR : Z; sumG : Z; sumB : Z
}.

(** [pixels[i * 4 + 3] > 20]; [undefined > 20] is false. *)
Definition visible (pixels : list Z) (i : nat) : bool :=
  match pixels !! (i * 4 + 3)%nat with
  | Some a => 20 <? a
  | None => false
  end.

(** The indices [i < width * height] of the visible pixels, in order. *)
Definition validPixelIndices (pixelData : PixelData) : list nat :=
  filter (λ i, visible (pixels pixelData) i = true)
    (seq 0 (width pixelData * height pixelData)).

(** The colour of pixel [idx]; all three samples exist when [idx] is a
    visible pixel. *)
Definition colorAt (pixels : list Z) (idx : nat) : Color :=
  {| r := default 0 (pixels !! (idx * 4)%nat);
     g := default 0 (pixels !! (idx * 4 + 1)%nat);
     b := default 0 (pixels !! (idx * 4 + 2)%nat) |}.

Section WithRandom.
(** [random k n] is [Math.floor(Math.random() * n)] at the [k]-th call of
    [Math.random], a number below [n]. *)
Variable random : nat → nat → nat.

Definition randomPixel (valid : list nat) (call : nat) : nat :=
  default 0%nat (valid !! (random call (length valid) mod length valid)%nat).

(** The first seeding loop, [while (centers.length < colorCount &&
    attempts < 1000)], by recursion on the attempts left; [seenColors]
    holds the colours instead of their keys. *)
Fixpoint seedDistinct (pixels : list Z) (valid : list nat) (colorCount : nat)
    (left attempts : nat) (centers seenColors : list Color)
  : list Color * nat :=
  match left with
  | O => (centers, attempts)
  | S left' =>
      if (length centers <? colorCount)%nat then
        let c := colorAt pixels (randomPixel valid attempts) in
        if existsb (Color_eqb c) seenColors
        then seedDistinct pixels valid colorCount left' (S attempts)
               centers seenColors
        else seedDistinct pixels valid colorCount left' (S attempts)
               (centers ++ [c]) (seenColors ++ [c])
      else (centers, attempts)
  end.

(** The second seeding loop, [while (centers.length < colorCount)], by
    recursion on the number of centres missing. *)
Fixpoint seedRepeat (pixels : list Z) (valid : list nat) (missing call : nat)
    (centers : list Color) : list Color :=
  match missing with
  | O => centers
  | S missing' =>
      seedRepeat pixels valid missing' (S call)
        (centers ++ [colorAt pixels (randomPixel valid call)])
  end.

Definition dist2 (c cent : Color) : Z :=
  (r c - r cent) ^ 2 + (g c - g cent) ^ 2 + (b c - b cent) ^ 2.

(** The search for the closest centre: [minDist] starts at [Infinity]
    ([None]) and [bestCenter] at 0. *)
Definition closest (centers : list Color) (colorCount : nat) (c : Color)
  : nat :=
  snd (fold_left (λ (st : option Z * nat) (k : nat),
         match centers !! k with
         | Some cent =>
             let dist := dist2 c cent in
             match fst st with
             | Some minDist => if dist <? minDist then (Some dist, k) else st
             | None => (Some dist, k)
             end
         | None => st
         end) (seq 0 colorCount) (None, 0%nat)).

(** The assignment of one visible pixel to its cluster. *)
Definition assign (pixels : list Z) (width : nat) (centers : list Color)
    (colorCount : nat) (pIdx : nat) (clusters : list Cluster)
  : outcome (list Cluster) :=
  let c := colorAt pixels pIdx in
  let bestCenter := closest centers colorCount c in
  match clusters !! bestCenter with
  | None => TypeError (* clusters[0] is undefined when colorCount is 0 *)
  | Some cluster =>
      Ok (<[bestCenter :=
              {| clusterPoints := clusterPoints cluster ++
                   [Tracing.mkPixel (Z.of_nat (pIdx mod width))
                                    (Z.of_nat (pIdx / width))];
                 sumR := sumR cluster + r c;
                 sumG := sumG cluster + g c;
                 sumB := sumB cluster + b c |}]> clusters)
  end.

(** The new centre of a cluster; an empty cluster keeps its centre. *)
Definition recenter (cluster : Cluster) (center : Color) : Color :=
  let count := Z.of_nat (length (clusterPoints cluster)) in
  if 0 <? count
  then {| r := sumR cluster / count; g := sumG cluster / count;
          b := sumB cluster / count |}
  else center.

(** One iteration of the K-means loop: the new clusters and centres. *)
Definition kmeansIteration (pixels : list Z) (width : nat) (valid : list nat)
    (colorCount : nat) (st : list Cluster * list Color)
  : outcome (list Cluster * list Color) :=
  let centers := snd st in
  let empty := replicate colorCount
                 {| clusterPoints := []; sumR := 0; sumG := 0; sumB := 0 |} in
  let* clusters :=
    forM valid (assign pixels width centers colorCount) empty in
  Ok (clusters, zip_with recenter clusters centers).

Definition quantizeImage (pixelData : PixelData) (colorCount : nat)
  : outcome (list Layer) :=
  let valid := validPixelIndices pixelData in
  if (length valid =? 0)%nat then Ok []
  else
    let '(centers, calls) :=
      seedDistinct (pixels pixelData) valid colorCount 1000 0 [] [] in
    let centers :=
      seedRepeat (pixels pixelData) valid (colorCount - length centers)
        calls centers in
    let* st :=
      repeatM 3 (kmeansIteration (pixels pixelData) (width pixelData)
                   valid colorCount) ([], centers) in
    let results :=
      zip_with (λ cluster center,
        {| color := center; points := clusterPoints cluster |})
        (fst st) (snd st) in
    Ok (filter (λ l, (0 <? length (points l))%nat = true) results).

End WithRandom.

(** The body of [for (const p of layerPoints)]: [mask[p.y][p.x] = 1].  No
    check guards the write.  A row that does not exist ([p.y] negative or
    not below the height) makes it throw.  A negative [p.x] sets a property
    of the row and changes none of its cells.  A [p.x] beyond the end of the
    row makes the row grow; the cells in between stay empty, they read as
    [undefined], which fails every test [=== 1] as 0 does, and are written 0
    here. *)
Definition markPoint (p : Tracing.Pixel) (mask : Mask) : outcome Mask :=
  if Tracing.iy p <? 0 then TypeError
  else
    let y := Z.to_nat (Tracing.iy p) in
    let x := Z.to_nat (Tracing.ix p) in
    match mask !! y with
    | None => TypeError
    | Some row =>
        if Tracing.ix p <? 0 then Ok mask
        else if (x <? length row)%nat then Ok (setPixel mask y x 1)
        else Ok (<[y := row ++ replicate (x - length row) 0 ++ [1]]> mask)
    end.

Definition layerToMask (layerPoints : list Tracing.Pixel) (width height : nat)
  : outcome Mask :=
  forM layerPoints markPoint (newGrid height width 0).

End Quantize.

(** ** main.js *)

Module Main.
Import Grid Geometry.
Open Scope Z_scope.

Record Config := mkConfig {
  colorCount : nat;
  minArea : R;
  smoothingIters : nat;
  simplifyEpsilon : R;
  dilation : Dilate.Options
}.

Definition CONFIG : Config :=
  {| colorCount := 16;
     minArea := 10%R;
     smoothingIters := 1;
     simplifyEpsilon := 1.0%R;
     dilation := {| Dilate.unconditionalPasses := Some 1%nat;
                    Dilate.smartPasses := Some 1%nat |} |}.

(** A shape; [fillColor] is the colour the source prints as [rgb(r,g,b)]. *)
Record Shape := mkShape {
  curves : list CurveFitting.BezierCurve;
  fillColor : Quantize.Color;
  area : R;
  isHole : bool
}.

(** The body of the shoelace loop. *)
Definition areaStep (points : list Point) (i : nat) (area : R) : outcome R :=
  let j := ((i + 1) mod length points)%nat in
  let* pi := at_ points i in
  let* pj := at_ points j in
  Ok (area + px pi * py pj - px pj * py pi)%R.

Definition getPolygonArea (points : list Point) : outcome R :=
  let* area := forM (seq 0 (length points)) (areaStep points) 0%R in
  Ok (Rabs area / 2)%R.

(** The coverage mask: 1 where alpha exceeds 20. *)
Definition coverageMask (pixelData : Quantize.PixelData) : Mask :=
  let width := Quantize.width pixelData in
  map (λ y,
    map (λ x, if Quantize.visible (Quantize.pixels pixelData) (y * width + x)%nat
              then 1 else 0)
      (seq 0 width))
    (seq 0 (Quantize.height pixelData)).

Definition toPoint (p : Tracing.Pixel) : Point :=
  {| px := IZR (Tracing.ix p); py := IZR (Tracing.iy p) |}.

(** The callback of [contours.map]: [None] is [null], filtered out next.
    The recursion of [simplifyPath] is given a depth of one call per
    point. *)
Definition toShape (config : Config) (fill : Quantize.Color)
    (contour : Tracing.Contour) : outcome (option Shape) :=
  let points := map toPoint (Tracing.points contour) in
  let* area := getPolygonArea points in
  if Rltb area (minArea config) then Ok None
  else
    let* smoothed := Smoothing.smoothPoints points (smoothingIters config) in
    let* simplified :=
      Simplification.simplifyPath (S (length smoothed)) smoothed
        (simplifyEpsilon config) in
    let* curves := CurveFitting.fitCurves simplified in
    Ok (Some {| curves := curves; fillColor := fill; area := area;
                isHole := Tracing.isHole contour |}).

(** [.filter(c => c !== null)] *)
Fixpoint notNull {A : Type} (l : list (option A)) : list A :=
  match l with
  | [] => []
  | Some a :: l' => a :: notNull l'
  | None :: l' => notNull l'
  end.

(** The body of the loop over the layers. *)
Definition processLayer (config : Config) (pixelData : Quantize.PixelData)
    (coverage : Mask) (layer : Quantize.Layer) (allShapes : list Shape)
  : outcome (list Shape) :=
  let* mask := Quantize.layerToMask (Quantize.points layer)
                 (Quantize.width pixelData) (Quantize.height pixelData) in
  let* dilated := Dilate.dilateHybrid mask coverage (dilation config) in
  let* contours := Tracing.traceContours dilated in
  let* shapes := mapM (toShape config (Quantize.color layer)) contours in
  Ok (allShapes ++ notNull shapes).

(** [allShapes.sort((a, b) => b.area - a.area)]: a stable sort, larger
    areas first. *)
Fixpoint insertShape (a : Shape) (sorted : list Shape) : list Shape :=
  match sorted with
  | [] => [a]
  | b :: sorted' =>
      if Rltb (area a) (area b) then b :: insertShape a sorted'
      else a :: sorted
  end.

Definition sortShapes (shapes : list Shape) : list Shape :=
  foldr insertShape [] shapes.

(** The assembler: [main] from the quantizer to the sorted shape list
    handed to [buildSVG]. *)
Definition assemble (random : nat → nat → nat) (config : Config)
    (pixelData : Quantize.PixelData) : outcome (list Shape) :=
  let* layers := Quantize.quantizeImage random pixelData (colorCount config) in
  let coverage := coverageMask pixelData in
  let* allShapes := forM layers (processLayer config pixelData coverage) [] in
  Ok (sortShapes allShapes).

Definition main (random : nat → nat → nat) (pixelData : Quantize.PixelData)
  : outcome (list Shape) :=
  assemble random CONFIG pixelData.

End Main.

(** ** step7_svg.js *)

Module Svg.
Import Geometry.
Import String Ascii.
Open Scope string_scope.

(** [Math.round(x)]: the nearest integer, a half rounding up. *)
Definition round (x : R) : R := IZR (Int_part (x + / 2)).

(** [Math.round(num * 100) / 100] *)
Definition toFixed (num : R) : R := (round (num * 100) / 100)%R.

(** [ToInt32]: the operands and the result of [<<] are 32-bit signed
    integers. *)
Definition toInt32 (n : Z) : Z :=
  let m := n mod 2 ^ 32 in
  if (m <? 2 ^ 31)%Z then m else m - 2 ^ 32.

(** [n << k] for a shift count [0 <= k < 32]. *)
Definition shl (n k : Z) : Z := toInt32 (Z.shiftl (toInt32 n) k).

Definition hexDigit (d : Z) : ascii :=
  match d with
  | 0 => "0" | 1 => "1" | 2 => "2" | 3 => "3" | 4 => "4" | 5 => "5" | 6 => "6"
  | 7 => "7" | 8 => "8" | 9 => "9" | 10 => "a" | 11 => "b" | 12 => "c"
  | 13 => "d" | 14 => "e" | _ => "f"
  end%char.

(** The hexadecimal digits of [n >= 0] in front of [acc]; [fuel] bounds
    their number. *)
Fixpoint hexDigits (fuel : nat) (n : Z) (acc : string) : string :=
  match fuel with
  | O => acc
  | S fuel' =>
      let acc' := String (hexDigit (n mod 16)) acc in
      if (n <? 16)%Z then acc' else hexDigits fuel' (n / 16) acc'
  end.

(** [n.toString(16)] for an integer [n]. *)
Definition toString16 (n : Z) : string :=
  if (n <? 0)%Z
  then String "-" (hexDigits (S (Z.to_nat (Z.log2 (- n)))) (- n) "")
  else hexDigits (S (Z.to_nat (Z.log2 n))) n "".

(** [s.slice(1)] *)
Definition slice1 (s : string) : string :=
  match s with
  | EmptyString => EmptyString
  | String _ s' => s'
  end.

Definition upper (c : ascii) : ascii :=
  let n := nat_of_ascii c in
  if ((97 <=? n) && (n <=? 122))%nat then ascii_of_nat (n - 32) else c.

(** [s.toUpperCase()] on a string of ASCII characters. *)
Fixpoint toUpperCase (s : string) : string :=
  match s with
  | EmptyString => EmptyString
  | String c s' => String (upper c) (toUpperCase s')
  end.

(** [rgbToHex] on integer channels. *)
Definition rgbToHex (r g b : Z) : string :=
  String "#"
    (toUpperCase (slice1 (toString16 (shl 1 24 + shl r 16 + shl g 8 + b)))).

(** A shape as [buildSVG] reads it: [fillColor] and [color] may be absent. *)
Record Shape := mkShape {
  curves : list CurveFitting.BezierCurve;
  fillColor : option string;
  color : option Quantize.Color
}.

(** The double quote. *)
Definition dq : string := String "034" "".

(** The line feed that ends the lines of the template literals. *)
Definition lf : string := String "010" "".

Section Printing.
(** [numberToString x] is the text JavaScript prints for the number [x] in
    a template literal. *)
Variable numberToString : R → string.

(** [${toFixed(num)}] *)
Definition coordinate (num : R) : string := numberToString (toFixed num).

(** The text one curve adds to [pathData]. *)
Definition curveTo (curve : CurveFitting.BezierCurve) : string :=
  " C " ++ coordinate (px (CurveFitting.p1 curve)) ++ " "
        ++ coordinate (py (CurveFitting.p1 curve)) ++ " "
        ++ coordinate (px (CurveFitting.p2 curve)) ++ " "
        ++ coordinate (py (CurveFitting.p2 curve)) ++ " "
        ++ coordinate (px (CurveFitting.p3 curve)) ++ " "
        ++ coordinate (py (CurveFitting.p3 curve)).

Definition pathData (curves : list CurveFitting.BezierCurve) : string :=
  match curves with
  | [] => ""
  | first :: _ =>
      let start := CurveFitting.p0 first in
      fold_left (λ pathData curve, pathData ++ curveTo curve) curves
        ("M " ++ coordinate (px start) ++ " " ++ coordinate (py start))
      ++ " Z"
  end.

(** [fillAttr]: the shape's [fillColor] unless it is absent or empty, else
    its [color] in hexadecimal, else black. *)
Definition fillAttr (shape : Shape) : string :=
  let fromColor :=
    match color shape with
    | Some c => rgbToHex (Quantize.r c) (Quantize.g c) (Quantize.b c)
    | None => ""
    end in
  let fillAttr :=
    match fillColor shape with
    | None | Some "" => fromColor
    | Some fill => fill
    end in
  match fillAttr with
  | "" => "black"
  | _ => fillAttr
  end.

(** The text one shape adds to [svg]. *)
Definition pathElement (shape : Shape) : string :=
  "  <path d=" ++ dq ++ pathData (curves shape) ++ dq
  ++ " fill=" ++ dq ++ fillAttr shape ++ dq
  ++ " stroke=" ++ dq ++ "none" ++ dq ++ "/>" ++ lf.

Definition header (width height : R) : string :=
  "<svg xmlns=" ++ dq ++ "http://www.w3.org/2000/svg" ++ dq
  ++ " viewBox=" ++ dq ++ "0 0 " ++ numberToString width ++ " "
  ++ numberToString height ++ dq
  ++ " width=" ++ dq ++ numberToString width ++ dq
  ++ " height=" ++ dq ++ numberToString height ++ dq ++ ">" ++ lf.

Definition buildSVG (width height : R) (shapes : list Shape) : string :=
  fold_left (λ svg shape, svg ++ pathElement shape) shapes
    (header width height)
  ++ "</svg>".

End Printing.

(** The shape [main] hands to [buildSVG]: its [fillColor] is the text
    [rgb(r,g,b)] of the layer colour. *)
Definition rgbText (numberToString : R → string) (c : Quantize.Color)
  : string :=
  "rgb(" ++ numberToString (IZR (Quantize.r c)) ++ ","
  ++ numberToString (IZR (Quantize.g c)) ++ ","
  ++ numberToString (IZR (Quantize.b c)) ++ ")".

End Svg.

(** * Proofs *)

Import Grid.
Open Scope Z_scope.

(** * Loops *)

Section ForM.
Context {A S : Type}.
Implicit Types (l : list A) (body : A → S → outcome S).

Lemma forM_invariant (P : S → Prop) l body s s' :
  (∀ a t t', a ∈ l → P t → body a t = Ok t' → P t') →
  P s → forM l body s = Ok s' → P s'.
Proof.
  revert s. induction l as [|a l IH]; simpl; intros s Hbody Hs Hrun.
  - congruence.
  - destruct (body a s) as [t| |] eqn:Ha; simpl in Hrun; try discriminate.
    apply (IH t); [|eauto using list_elem_of_here|done].
    intros b u u' Hb. apply Hbody. by apply list_elem_of_further.
Qed.

Lemma forM_total (P : S → Prop) l body s :
  (∀ a t, a ∈ l → P t → ∃ t', body a t = Ok t' ∧ P t') →
  P s → ∃ s', forM l body s = Ok s' ∧ P s'.
Proof.
  revert s. induction l as [|a l IH]; simpl; intros s Hbody Hs.
  - eauto.
  - destruct (Hbody a s) as (t & -> & Ht); [apply list_elem_of_here|done|].
    simpl. apply IH; [|done].
    intros b u Hb. apply Hbody. by apply list_elem_of_further.
Qed.

(** Under an invariant [P], a property [Q] that the iteration for [a]
    establishes and every iteration keeps holds when the loop is over. *)
Lemma forM_reach (P Q : S → Prop) l body a s s' :
  a ∈ l →
  (∀ b t t', b ∈ l → P t → body b t = Ok t' → P t') →
  (∀ t t', P t → body a t = Ok t' → Q t') →
  (∀ b t t', b ∈ l → Q t → body b t = Ok t' → Q t') →
  P s → forM l body s = Ok s' → Q s'.
Proof.
  revert s. induction l as [|b l IH]; simpl; intros s Hin HP Hest Hkeep Hs Hrun.
  - by apply elem_of_nil in Hin.
  - destruct (body b s) as [t| |] eqn:Hb; simpl in Hrun; try discriminate.
    apply elem_of_cons in Hin as [->|Hin].
    + apply (forM_invariant Q l body t); [|by eauto|done].
      intros c u u' Hc. apply Hkeep. by apply list_elem_of_further.
    + apply (IH t); try done.
      * intros c u u' Hc. apply HP. by apply list_elem_of_further.
      * intros c u u' Hc. apply Hkeep. by apply list_elem_of_further.
      * eapply HP; eauto using list_elem_of_here.
Qed.
End ForM.

Lemma repeatM_invariant {S : Type} (P : S → Prop) n (f : S → outcome S) s s' :
  (∀ t t', P t → f t = Ok t' → P t') →
  P s → repeatM n f s = Ok s' → P s'.
Proof.
  intros Hf. revert s. induction n as [|n IH]; simpl; intros s Hs Hrun.
  - congruence.
  - destruct (f s) as [t| |] eqn:Ht; simpl in Hrun; try discriminate. eauto.
Qed.

Lemma repeatM_total {S : Type} (P : S → Prop) n (f : S → outcome S) s :
  (∀ t, P t → ∃ t', f t = Ok t' ∧ P t') →
  P s → ∃ s', repeatM n f s = Ok s' ∧ P s'.
Proof.
  intros Hf. revert s. induction n as [|n IH]; simpl; intros s Hs.
  - eauto.
  - destruct (Hf s Hs) as (t & -> & Ht). simpl. eauto.
Qed.

(** * Grids *)

Section GridFacts.
Context {A : Type}.
Implicit Types (m : list (list A)).

Lemma pixelAt_Some_lt (m : Mask) y x v :
  pixelAt m y x = Some v → ∃ row, m !! y = Some row ∧ row !! x = Some v.
Proof. unfold pixelAt. destruct (m !! y); naive_solver. Qed.

Lemma rect_row h w m y row :
  rect h w m → m !! y = Some row → length row = w.
Proof.
  intros [_ Hrows] Hy. rewrite Forall_forall in Hrows.
  apply Hrows. eapply list_elem_of_lookup_2; eauto.
Qed.

Lemma rect_setPixel h w m y x v :
  rect h w m → rect h w (setPixel m y x v).
Proof.
  intros [Hlen Hrows]. split.
  - unfold setPixel. by rewrite length_alter.
  - unfold setPixel. apply Forall_alter; [done|].
    intros row _ Hrow. by rewrite length_insert.
Qed.

Lemma rect_newGrid h w (v : A) : rect h w (newGrid h w v).
Proof.
  split; unfold newGrid.
  - by rewrite length_replicate.
  - apply Forall_replicate. by rewrite length_replicate.
Qed.
End GridFacts.

Lemma pixelAt_newGrid h w v y x :
  (y < h)%nat → (x < w)%nat → pixelAt (newGrid h w v) y x = Some v.
Proof.
  intros Hy Hx. unfold pixelAt, newGrid.
  rewrite lookup_replicate_2 by done. by rewrite lookup_replicate_2.
Qed.

Lemma pixelAt_rect_lt h w (m : Mask) y x v :
  rect h w m → pixelAt m y x = Some v → (y < h)%nat ∧ (x < w)%nat.
Proof.
  intros Hrect Hp. apply pixelAt_Some_lt in Hp as (row & Hy & Hx).
  pose proof (rect_row _ _ _ _ _ Hrect Hy).
  destruct Hrect as [Hlen _].
  apply lookup_lt_Some in Hy, Hx. lia.
Qed.

Lemma pixelAt_rect_is_Some h w (m : Mask) y x :
  rect h w m → (y < h)%nat → (x < w)%nat → ∃ v, pixelAt m y x = Some v.
Proof.
  intros Hrect Hy Hx. unfold pixelAt.
  destruct (lookup_lt_is_Some_2 m y) as [row Hrow]; [destruct Hrect; lia|].
  rewrite Hrow. apply lookup_lt_is_Some_2.
  rewrite (rect_row _ _ _ _ _ Hrect Hrow). done.
Qed.

Lemma pixelAt_setPixel_eq h w (m : Mask) y x v :
  rect h w m → (y < h)%nat → (x < w)%nat →
  pixelAt (setPixel m y x v) y x = Some v.
Proof.
  intros Hrect Hy Hx. unfold pixelAt, setPixel.
  destruct (lookup_lt_is_Some_2 m y) as [row Hrow]; [destruct Hrect; lia|].
  rewrite list_lookup_alter_eq, Hrow. simpl.
  apply list_lookup_insert_eq.
  rewrite (rect_row _ _ _ _ _ Hrect Hrow). done.
Qed.

Lemma pixelAt_setPixel_ne (m : Mask) y x v y' x' :
  (y, x) ≠ (y', x') →
  pixelAt (setPixel m y x v) y' x' = pixelAt m y' x'.
Proof.
  intros Hne. unfold pixelAt, setPixel.
  destruct (decide (y = y')) as [->|Hy].
  - rewrite list_lookup_alter_eq. destruct (m !! y'); simpl; [|done].
    apply list_lookup_insert_ne. congruence.
  - by rewrite list_lookup_alter_ne.
Qed.

Lemma inRange_spec n bound :
  inRange n bound = true ↔ 0 ≤ n < Z.of_nat bound.
Proof. unfold inRange. rewrite andb_true_iff, Z.leb_le, Z.ltb_lt. done. Qed.

Lemma isOne_spec v : isOne v = true ↔ v = Some 1.
Proof.
  destruct v as [[|[]|]|]; simpl; split; congruence.
Qed.

(** * Dilation *)

Section DilateOnce.
Import Dilate.
Variables (h w : nat) (mask : Mask) (coverageMask : option Mask).
Hypothesis coverage_rect : ∀ cov, coverageMask = Some cov → rect h w cov.

(** The coverage check passes at [(y, x)]. *)
Definition covered (y x : nat) : Prop :=
  match coverageMask with
  | None => True
  | Some cov => pixelAt cov y x = Some 1
  end.

(** What the output buffer satisfies all along: it keeps its dimensions,
    holds zeros and ones, and holds a one only where the coverage check
    passes. *)
Definition sound (output : Mask) : Prop :=
  rect h w output ∧
  ∀ y x v, pixelAt output y x = Some v → v = 0 ∨ (v = 1 ∧ covered y x).

Lemma sound_setPixel output y x :
  sound output → (y < h)%nat → (x < w)%nat → covered y x →
  sound (setPixel output y x 1).
Proof.
  intros [Hrect Hval] Hy Hx Hcov. split; [by apply rect_setPixel|].
  intros y' x' v. destruct (decide ((y, x) = (y', x'))) as [[= <- <-]|Hne].
  - rewrite (pixelAt_setPixel_eq h w) by done. naive_solver.
  - rewrite pixelAt_setPixel_ne by done. apply Hval.
Qed.

Lemma writeNeighbour_total y x dy dx output :
  sound output →
  ∃ output', writeNeighbour h w coverageMask y x dy dx output = Ok output'
             ∧ sound output'.
Proof.
  intros Hs. unfold writeNeighbour.
  destruct (inRange _ h && inRange _ w) eqn:Hin; [|eauto].
  apply andb_true_iff in Hin as [Hy%inRange_spec Hx%inRange_spec].
  destruct coverageMask as [cov|] eqn:Hcov.
  - pose proof (coverage_rect cov eq_refl) as Hcrect.
    destruct (lookup_lt_is_Some_2 cov (Z.to_nat (Z.of_nat y + dy)))
      as [covRow HcovRow]; [destruct Hcrect; lia|].
    rewrite HcovRow.
    destruct (isOne _) eqn:Hone; [|eauto].
    eexists; split; [done|]. apply sound_setPixel; [done|lia|lia|].
    unfold covered. rewrite Hcov. unfold pixelAt. rewrite HcovRow.
    by apply isOne_spec.
  - eexists; split; [done|]. apply sound_setPixel; [done|lia|lia|].
    unfold covered. by rewrite Hcov.
Qed.

Lemma dilatePixel_total y x output :
  sound output →
  ∃ output', dilatePixel mask h w coverageMask y x output = Ok output'
             ∧ sound output'.
Proof.
  intros Hs. unfold dilatePixel. destruct (isOne _); [|eauto].
  apply (forM_total sound); [|done]. intros dy t _ Ht.
  apply (forM_total sound); [|done]. intros dx u _ Hu.
  by apply writeNeighbour_total.
Qed.

(** A one, once written, stays. *)
Definition lit (y x : nat) (output : Mask) : Prop :=
  pixelAt output y x = Some 1.

Lemma writeNeighbour_keeps ny nx y x dy dx output output' :
  lit ny nx output →
  writeNeighbour h w coverageMask y x dy dx output = Ok output' →
  lit ny nx output'.
Proof.
  unfold writeNeighbour, lit. intros Hlit Hw.
  assert (Hset : ∀ y' x', pixelAt (setPixel output y' x' 1) ny nx = Some 1).
  { intros y' x'. destruct (decide ((y', x') = (ny, nx))) as [[= -> ->]|Hne].
    - apply pixelAt_Some_lt in Hlit as (row & Hrow & Hcell).
      unfold pixelAt, setPixel. rewrite list_lookup_alter_eq, Hrow. simpl.
      apply list_lookup_insert_eq. by eapply lookup_lt_Some.
    - by rewrite pixelAt_setPixel_ne. }
  destruct (inRange _ h && inRange _ w); [|congruence].
  destruct coverageMask as [cov|].
  - destruct (cov !! _); [|discriminate].
    destruct (isOne _); congruence.
  - congruence.
Qed.

Lemma dilatePixel_keeps ny nx y x output output' :
  lit ny nx output →
  dilatePixel mask h w coverageMask y x output = Ok output' →
  lit ny nx output'.
Proof.
  unfold dilatePixel. intros Hlit. destruct (isOne _); [|congruence].
  apply forM_invariant; [|done]. intros dy t t' _ Ht.
  apply forM_invariant; [|done]. intros dx u u' _ Hu.
  by apply writeNeighbour_keeps.
Qed.

(** The write for the offset [(dy, dx)] of a foreground pixel lands when
    the target is inside the grid and passes the coverage check. *)
Lemma writeNeighbour_lights y x dy dx output output' :
  rect h w output →
  0 ≤ Z.of_nat y + dy < Z.of_nat h → 0 ≤ Z.of_nat x + dx < Z.of_nat w →
  covered (Z.to_nat (Z.of_nat y + dy)) (Z.to_nat (Z.of_nat x + dx)) →
  writeNeighbour h w coverageMask y x dy dx output = Ok output' →
  lit (Z.to_nat (Z.of_nat y + dy)) (Z.to_nat (Z.of_nat x + dx)) output'.
Proof.
  intros Hrect Hy Hx Hcov. unfold writeNeighbour, lit.
  apply inRange_spec in Hy as Hy', Hx as Hx'. rewrite Hy', Hx'. simpl.
  unfold covered in Hcov. destruct coverageMask as [cov|].
  - apply pixelAt_Some_lt in Hcov as (row & -> & Hcell).
    rewrite Hcell. simpl. intros [= <-].
    apply (pixelAt_setPixel_eq h w); [done|lia|lia].
  - intros [= <-]. apply (pixelAt_setPixel_eq h w); [done|lia|lia].
Qed.

Lemma writeNeighbour_sound y x dy dx output output' :
  sound output →
  writeNeighbour h w coverageMask y x dy dx output = Ok output' →
  sound output'.
Proof.
  intros Hs Hw. destruct (writeNeighbour_total y x dy dx output Hs)
    as (o & Ho & ?). congruence.
Qed.

Lemma dilatePixel_sound y x output output' :
  sound output →
  dilatePixel mask h w coverageMask y x output = Ok output' →
  sound output'.
Proof.
  intros Hs Hw. destruct (dilatePixel_total y x output Hs)
    as (o & Ho & ?). congruence.
Qed.

Lemma dilatePixel_lights y x dy dx output output' :
  sound output →
  pixelAt mask y x = Some 1 → dy ∈ offsets → dx ∈ offsets →
  0 ≤ Z.of_nat y + dy < Z.of_nat h → 0 ≤ Z.of_nat x + dx < Z.of_nat w →
  covered (Z.to_nat (Z.of_nat y + dy)) (Z.to_nat (Z.of_nat x + dx)) →
  dilatePixel mask h w coverageMask y x output = Ok output' →
  lit (Z.to_nat (Z.of_nat y + dy)) (Z.to_nat (Z.of_nat x + dx)) output'.
Proof.
  intros Hs Hm Hdy Hdx Hy Hx Hcov. unfold dilatePixel.
  rewrite Hm. cbn [isOne].
  apply (forM_reach sound _ _ _ dy); try done.
  - intros b t t' _ Ht. apply forM_invariant; [|done].
    intros c u u' _. apply writeNeighbour_sound.
  - intros t t' Ht. apply (forM_reach sound _ _ _ dx); try done.
    + intros c u u' _. apply writeNeighbour_sound.
    + intros u u' [Hu _]. by apply writeNeighbour_lights.
    + intros c u u' _ Hu. by apply writeNeighbour_keeps.
  - intros b t t' _ Ht. apply forM_invariant; [|done].
    intros c u u' _ Hu. by apply writeNeighbour_keeps.
Qed.
End DilateOnce.

Section DilateOnceWhole.
Import Dilate.
Variables (h w : nat) (mask : Mask) (coverageMask : option Mask).
Hypothesis h_pos : (0 < h)%nat.
Hypothesis mask_rect : rect h w mask.
Hypothesis coverage_rect : ∀ cov, coverageMask = Some cov → rect h w cov.

Lemma dilateOnce_unfold :
  dilateOnce mask coverageMask =
  forM (seq 0 h) (λ y,
    forM (seq 0 w) (λ x, dilatePixel mask h w coverageMask y x))
    (newGrid h w 0).
Proof.
  unfold dilateOnce.
  destruct (lookup_lt_is_Some_2 mask 0%nat) as [row0 Hrow0];
    [destruct mask_rect; lia|].
  rewrite Hrow0, (rect_row _ _ _ _ _ mask_rect Hrow0).
  by destruct mask_rect as [-> _].
Qed.

Lemma sound_newGrid : sound h w coverageMask (newGrid h w 0).
Proof.
  split; [apply rect_newGrid|]. intros y x v Hv.
  destruct (pixelAt_rect_lt h w _ _ _ _ (rect_newGrid h w 0) Hv).
  rewrite pixelAt_newGrid in Hv by done. left. congruence.
Qed.

Lemma dilateOnce_total :
  ∃ output, dilateOnce mask coverageMask = Ok output
            ∧ sound h w coverageMask output.
Proof.
  rewrite dilateOnce_unfold.
  apply (forM_total (sound h w coverageMask)); [|apply sound_newGrid].
  intros y t _ Ht. apply (forM_total (sound h w coverageMask)); [|done].
  intros x u _ Hu. by apply dilatePixel_total.
Qed.

Lemma dilateOnce_lights y x dy dx output :
  dilateOnce mask coverageMask = Ok output →
  pixelAt mask y x = Some 1 → dy ∈ offsets → dx ∈ offsets →
  0 ≤ Z.of_nat y + dy < Z.of_nat h → 0 ≤ Z.of_nat x + dx < Z.of_nat w →
  covered coverageMask (Z.to_nat (Z.of_nat y + dy)) (Z.to_nat (Z.of_nat x + dx)) →
  lit (Z.to_nat (Z.of_nat y + dy)) (Z.to_nat (Z.of_nat x + dx)) output.
Proof.
  rewrite dilateOnce_unfold. intros Hrun Hm Hdy Hdx Hy Hx Hcov.
  destruct (pixelAt_rect_lt _ _ _ _ _ _ mask_rect Hm) as [Hyh Hxw].
  revert Hrun.
  apply (forM_reach (sound h w coverageMask) _ _ _ y).
  - apply elem_of_seq. lia.
  - intros b t t' _ Ht. apply forM_invariant; [|done].
    intros c u u' _. by apply dilatePixel_sound.
  - intros t t' Ht. apply (forM_reach (sound h w coverageMask) _ _ _ x).
    + apply elem_of_seq. lia.
    + intros c u u' _. by apply dilatePixel_sound.
    + intros u u' Hu. by apply dilatePixel_lights.
    + intros c u u' _ Hu. by apply dilatePixel_keeps.
    + done.
  - intros b t t' _ Ht. apply forM_invariant; [|done].
    intros c u u' _ Hu. by apply dilatePixel_keeps.
  - apply sound_newGrid.
Qed.

(** A foreground pixel that passes the coverage check is in the output. *)
Lemma dilateOnce_keeps_covered y x output :
  dilateOnce mask coverageMask = Ok output →
  pixelAt mask y x = Some 1 → covered coverageMask y x →
  pixelAt output y x = Some 1.
Proof.
  intros Hrun Hm Hcov.
  destruct (pixelAt_rect_lt _ _ _ _ _ _ mask_rect Hm) as [Hyh Hxw].
  pose proof (dilateOnce_lights y x 0 0 output Hrun Hm) as Hl.
  rewrite !Z.add_0_r, !Nat2Z.id in Hl.
  assert (H0 : 0 ∈ offsets) by (apply list_elem_of_further, list_elem_of_here).
  apply Hl; [done|done|lia|lia|done].
Qed.
End DilateOnceWhole.

Section Hybrid.
Import Dilate.
Variables (h w : nat) (coverageMask : Mask).
Hypothesis h_pos : (0 < h)%nat.
Hypothesis coverage_rect : rect h w coverageMask.

Lemma some_coverage_rect cov :
  Some coverageMask = Some cov → rect h w cov.
Proof. by intros [= <-]. Qed.

Lemma none_coverage_rect cov : @None Mask = Some cov → rect h w cov.
Proof. done. Qed.

(** Pixels of the input inside the coverage mask survive any number of
    passes of either kind. *)
Definition keepsCovered (mask result : Mask) : Prop :=
  rect h w result ∧
  ∀ y x, pixelAt mask y x = Some 1 → pixelAt coverageMask y x = Some 1 →
         pixelAt result y x = Some 1.

Lemma passes_keep_covered cov n mask result :
  cov = None ∨ cov = Some coverageMask →
  keepsCovered mask result →
  ∃ result', repeatM n (λ r, dilateOnce r cov) result = Ok result'
             ∧ keepsCovered mask result'.
Proof.
  intros Hcov. apply repeatM_total. intros t [Ht Hkeep].
  assert (Hcr : ∀ c, cov = Some c → rect h w c).
  { intros c Hc. destruct Hcov as [->| ->]; [done|]. by injection Hc as <-. }
  destruct (dilateOnce_total h w t cov h_pos Ht Hcr) as (t' & Hrun & Hs).
  exists t'. split; [done|]. split; [apply Hs|].
  intros y x Hm Hc.
  eapply dilateOnce_keeps_covered; eauto.
  destruct Hcov as [->| ->]; simpl; done.
Qed.

Lemma dilateHybrid_keeps_covered mask options :
  rect h w mask →
  ∃ result, dilateHybrid mask coverageMask options = Ok result
            ∧ keepsCovered mask result.
Proof.
  intros Hm. unfold dilateHybrid.
  destruct (passes_keep_covered None
              (default 1%nat (unconditionalPasses options)) mask mask)
    as (r1 & -> & Hr1); [by left|by split|].
  simpl. apply passes_keep_covered; [by right|done].
Qed.

(** A pass bounded by the coverage mask leaves zeros outside it. *)
Definition insideCoverage (result : Mask) : Prop :=
  rect h w result ∧
  ∀ y x, pixelAt coverageMask y x = Some 0 → pixelAt result y x = Some 0.

Lemma sound_insideCoverage result :
  sound h w (Some coverageMask) result → insideCoverage result.
Proof.
  intros [Hrect Hval]. split; [done|]. intros y x Hc.
  destruct (pixelAt_rect_lt _ _ _ _ _ _ coverage_rect Hc) as [Hy Hx].
  destruct (pixelAt_rect_is_Some _ _ _ _ _ Hrect Hy Hx) as [v Hv].
  destruct (Hval _ _ _ Hv) as [->|[-> Hcov]]; [done|].
  simpl in Hcov. congruence.
Qed.

Lemma smart_passes_inside n result :
  rect h w result →
  ∃ result', repeatM (S n) (λ r, dilateOnce r (Some coverageMask)) result
             = Ok result' ∧ insideCoverage result'.
Proof.
  intros Hr. simpl.
  destruct (dilateOnce_total h w result (Some coverageMask) h_pos Hr
              some_coverage_rect) as (t & -> & Ht).
  simpl. apply repeatM_total; [|by apply sound_insideCoverage].
  intros u [Hu _].
  destruct (dilateOnce_total h w u (Some coverageMask) h_pos Hu
              some_coverage_rect) as (u' & -> & Hu').
  eauto using sound_insideCoverage.
Qed.

Lemma unconditional_passes_rect n result :
  rect h w result →
  ∃ result', repeatM n (λ r, dilateOnce r None) result = Ok result'
             ∧ rect h w result'.
Proof.
  apply repeatM_total. intros t Ht.
  destruct (dilateOnce_total h w t None h_pos Ht none_coverage_rect)
    as (t' & -> & [Ht' _]). eauto.
Qed.
End Hybrid.

(** ** Claims on dilation *)

(** C1, as the code has it.  On masks of equal dimensions, an unconditional
    [dilateOnce] pass returns a superset of its input; a coverage-bounded
    pass, and [dilateHybrid] as a whole, return a mask that is 1 at every
    [(x, y)] where both the input and the coverage mask are 1. *)
Theorem dilation_keeps_covered_input (h w : nat) (M C : Mask)
    (options : Dilate.Options) :
  (0 < h)%nat → rect h w M → rect h w C →
  (∃ out, Dilate.dilateOnce M None = Ok out ∧ rect h w out ∧
     ∀ y x, pixelAt M y x = Some 1 → pixelAt out y x = Some 1) ∧
  (∃ out, Dilate.dilateOnce M (Some C) = Ok out ∧ rect h w out ∧
     ∀ y x, pixelAt M y x = Some 1 → pixelAt C y x = Some 1 →
            pixelAt out y x = Some 1) ∧
  (∃ out, Dilate.dilateHybrid M C options = Ok out ∧ rect h w out ∧
     ∀ y x, pixelAt M y x = Some 1 → pixelAt C y x = Some 1 →
            pixelAt out y x = Some 1).
Proof.
  intros Hh HM HC. repeat split.
  - destruct (dilateOnce_total h w M None Hh HM (none_coverage_rect h w))
      as (out & Hrun & Hs).
    exists out. split; [done|]. split; [apply Hs|]. intros y x Hm.
    by apply (dilateOnce_keeps_covered h w M None Hh HM
                (none_coverage_rect h w) y x out).
  - destruct (dilateOnce_total h w M (Some C) Hh HM (some_coverage_rect h w C HC))
      as (out & Hrun & Hs).
    exists out. split; [done|]. split; [apply Hs|]. intros y x Hm Hc.
    by apply (dilateOnce_keeps_covered h w M (Some C) Hh HM
                (some_coverage_rect h w C HC) y x out).
  - destruct (dilateHybrid_keeps_covered h w C Hh HC M options HM)
      as (out & Hrun & Hrect & Hkeep).
    eauto.
Qed.

Lemma dilation_keeps_covered_input_witness :
  (∃ out, Dilate.dilateOnce [[0; 1]; [0; 0]] None = Ok out ∧ rect 2 2 out ∧
     ∀ y x, pixelAt [[0; 1]; [0; 0]] y x = Some 1 → pixelAt out y x = Some 1) ∧
  (∃ out, Dilate.dilateOnce [[0; 1]; [0; 0]] (Some [[1; 1]; [1; 0]]) = Ok out ∧
     rect 2 2 out ∧
     ∀ y x, pixelAt [[0; 1]; [0; 0]] y x = Some 1 →
            pixelAt [[1; 1]; [1; 0]] y x = Some 1 →
            pixelAt out y x = Some 1) ∧
  ∃ out, Dilate.dilateHybrid [[0; 1]; [0; 0]] [[1; 1]; [1; 0]]
           Dilate.defaultOptions = Ok out ∧ rect 2 2 out ∧
     ∀ y x, pixelAt [[0; 1]; [0; 0]] y x = Some 1 →
            pixelAt [[1; 1]; [1; 0]] y x = Some 1 →
            pixelAt out y x = Some 1.
Proof.
  apply (dilation_keeps_covered_input 2 2 [[0; 1]; [0; 0]] [[1; 1]; [1; 0]]
           Dilate.defaultOptions).
  - lia.
  - split; [reflexivity | repeat constructor].
  - split; [reflexivity | repeat constructor].
Defined.

(** C1 as stated fails on a coverage-bounded pass: a foreground pixel that
    lies outside the coverage mask is cleared, by [dilateOnce] and by
    [dilateHybrid]. *)
Lemma dilation_superset_counterexample :
  pixelAt [[1]] 0 0 = Some 1 ∧
  Dilate.dilateOnce [[1]] (Some [[0]]) = Ok [[0]] ∧
  Dilate.dilateHybrid [[1]] [[0]] Dilate.defaultOptions = Ok [[0]] ∧
  pixelAt [[0]] 0 0 ≠ Some 1.
Proof. repeat split; try reflexivity. discriminate. Qed.

(** C5.  A coverage-bounded [dilateOnce] pass leaves 0 wherever the
    coverage mask is 0, and so does [dilateHybrid] whenever it runs at least
    one smart pass. *)
Theorem bounded_dilation_stays_inside_coverage (h w : nat) (M C : Mask) :
  (0 < h)%nat → rect h w M → rect h w C →
  (∃ out, Dilate.dilateOnce M (Some C) = Ok out ∧
     ∀ y x, pixelAt C y x = Some 0 → pixelAt out y x = Some 0) ∧
  (∀ options, default 1%nat (Dilate.smartPasses options) ≠ 0%nat →
     ∃ out, Dilate.dilateHybrid M C options = Ok out ∧
       ∀ y x, pixelAt C y x = Some 0 → pixelAt out y x = Some 0).
Proof.
  intros Hh HM HC. split.
  - destruct (dilateOnce_total h w M (Some C) Hh HM (some_coverage_rect h w C HC))
      as (out & Hrun & Hs).
    exists out. split; [done|].
    by apply (sound_insideCoverage h w C HC out).
  - intros options Hsmart. unfold Dilate.dilateHybrid.
    destruct (unconditional_passes_rect h w Hh
                (default 1%nat (Dilate.unconditionalPasses options)) M HM)
      as (r1 & -> & Hr1).
    cbn [bind].
    destruct (default 1%nat (Dilate.smartPasses options)) as [|n]; [done|].
    destruct (smart_passes_inside h w C Hh HC n r1 Hr1) as (out & Hrun & _ & Hin).
    eauto.
Qed.

Lemma bounded_dilation_stays_inside_coverage_witness :
  (∃ out, Dilate.dilateOnce [[0; 1]; [0; 0]] (Some [[1; 1]; [1; 0]]) = Ok out ∧
     ∀ y x, pixelAt [[1; 1]; [1; 0]] y x = Some 0 → pixelAt out y x = Some 0) ∧
  (∀ options, default 1%nat (Dilate.smartPasses options) ≠ 0%nat →
     ∃ out, Dilate.dilateHybrid [[0; 1]; [0; 0]] [[1; 1]; [1; 0]] options = Ok out ∧
       ∀ y x, pixelAt [[1; 1]; [1; 0]] y x = Some 0 → pixelAt out y x = Some 0).
Proof.
  apply (bounded_dilation_stays_inside_coverage 2 2
           [[0; 1]; [0; 0]] [[1; 1]; [1; 0]]).
  - lia.
  - split; [reflexivity | repeat constructor].
  - split; [reflexivity | repeat constructor].
Defined.

(** * While loops *)

Section While.
Context {S R : Type}.
Variable step : S → outcome (S + R).

(** More fuel does not change a loop that came to an end. *)
Lemma while_fuel_mono fuel fuel' s :
  (fuel ≤ fuel')%nat → while step fuel s ≠ OutOfFuel →
  while step fuel' s = while step fuel s.
Proof.
  revert fuel' s. induction fuel as [|fuel IH]; intros fuel' s Hle Hend.
  - done.
  - destruct fuel' as [|fuel']; [lia|]. simpl in *.
    destruct (step s) as [[s'|r]| |]; simpl in *; try done.
    apply IH; [lia|done].
Qed.

(** A loop whose every iteration, run under an invariant, lowers a measure
    ends within that many iterations, plus the one that leaves it. *)
Lemma while_bounded (I : S → Prop) (measure : S → nat) fuel s :
  (∀ t, step t ≠ OutOfFuel) →
  (∀ t t', I t → step t = Ok (inl t') → I t' ∧ (measure t' < measure t)%nat) →
  I s → (measure s < fuel)%nat → while step fuel s ≠ OutOfFuel.
Proof.
  intros Hstep Hdec. revert s.
  induction fuel as [|fuel IH]; intros s Hs Hlt; [lia|].
  simpl. destruct (step s) as [[s'|r]| |] eqn:Hstep_s; simpl; try done.
  - destruct (Hdec _ _ Hs Hstep_s) as [Hs' Hlt']. apply IH; [done|lia].
  - by apply Hstep in Hstep_s.
Qed.

(** The result of a loop comes from a last iteration, run in a state that
    satisfies every invariant of the loop. *)
Lemma while_invariant (I : S → Prop) fuel s r :
  (∀ t t', I t → step t = Ok (inl t') → I t') →
  I s → while step fuel s = Ok r →
  ∃ t, I t ∧ step t = Ok (inr r).
Proof.
  intros Hinv. revert s. induction fuel as [|fuel IH]; intros s Hs Hrun.
  - done.
  - simpl in Hrun. destruct (step s) as [[s'|r']| |] eqn:Hstep;
      simpl in Hrun; try done.
    + eauto.
    + injection Hrun as ->. eauto.
Qed.
End While.

(** * Boundary walk *)

Section Walk.
Import Tracing.
Variables (mask : Mask) (startX startY : Z).

Lemma traceStep_counts st st' :
  traceStep mask startX startY st = Ok (inl st') →
  (loopCount st' = S (loopCount st) ∧ loopCount st' ≤ MAX_LOOP)%nat.
Proof.
  unfold traceStep.
  destruct (Nat.ltb_spec MAX_LOOP (S (loopCount st))) as [|Hle]; [done|].
  destruct (scanNeighbours _ _ _ _ _) as [[[[nx ny] bt]|]| |]; simpl; try done.
  destruct ((nx =? startX) && (ny =? startY)); [done|].
  intros [= <-]. simpl. lia.
Qed.

Lemma foregroundAt_fuel nx ny : foregroundAt mask nx ny ≠ OutOfFuel.
Proof.
  unfold foregroundAt. destruct (_ && _); [|done].
  destruct (mask !! 0%nat); [|done]. by destruct (_ && _).
Qed.

Lemma scanNeighbours_fuel cx cy bt l :
  scanNeighbours mask cx cy bt l ≠ OutOfFuel.
Proof.
  induction l as [|i l IH]; cbn [scanNeighbours]; [done|].
  destruct (DIRECTIONS !! _) as [[dx dy]|]; [|done].
  pose proof (foregroundAt_fuel (cx + dx) (cy + dy)).
  destruct (foregroundAt _ _ _) as [[|]| |]; simpl; done.
Qed.

Lemma traceStep_fuel st : traceStep mask startX startY st ≠ OutOfFuel.
Proof.
  unfold traceStep. destruct (_ <? _)%nat; [done|].
  pose proof (scanNeighbours_fuel (cx st) (cy st) (backtrackDir st) (seq 0 8)).
  destruct (scanNeighbours _ _ _ _ _) as [[[[nx ny] bt]|]| |]; simpl; try done.
  by destruct (_ && _).
Qed.

(** The cap bounds the loop: [MAX_LOOP + 1] iterations are enough to reach
    a [break]. *)
Lemma traceWalk_ends dir fuel :
  (S MAX_LOOP ≤ fuel)%nat →
  traceWalk fuel mask startX startY dir ≠ OutOfFuel.
Proof.
  intros Hfuel. unfold traceWalk.
  apply (while_bounded _ (λ _, True) (λ st, (MAX_LOOP - loopCount st)%nat)).
  - apply traceStep_fuel.
  - intros t t' _ Ht. apply traceStep_counts in Ht. split; [done|lia].
  - done.
  - unfold traceInit. cbn [loopCount]. lia.
Qed.

Lemma DIRECTIONS_lookup k :
  (k < 8)%nat → ∃ dx dy, DIRECTIONS !! k = Some (dx, dy)
    ∧ -1 ≤ dx ≤ 1 ∧ -1 ≤ dy ≤ 1 ∧ (dx, dy) ≠ (0, 0).
Proof.
  intros Hk.
  do 8 (destruct k as [|k]; [eexists _, _; split; [reflexivity|];
                             repeat split; (lia || discriminate)|]).
  lia.
Qed.

Lemma foregroundAt_nonempty nx ny :
  mask ≠ [] → ∃ b, foregroundAt mask nx ny = Ok b.
Proof.
  intros Hne. unfold foregroundAt.
  destruct ((0 <=? nx) && (0 <=? ny)); [|eauto].
  destruct mask as [|row0 m]; [done|]. simpl.
  destruct (_ && _); eauto.
Qed.

(** What a successful scan found: a neighbour of the current pixel, in one
    of the eight directions, that is foreground. *)
Lemma scanNeighbours_found cx cy bt l nx ny bt' :
  scanNeighbours mask cx cy bt l = Ok (Some (nx, ny, bt')) →
  ∃ dx dy, -1 ≤ dx ≤ 1 ∧ -1 ≤ dy ≤ 1 ∧ (dx, dy) ≠ (0, 0)
    ∧ nx = cx + dx ∧ ny = cy + dy ∧ foregroundAt mask nx ny = Ok true.
Proof.
  induction l as [|i l IH]; cbn [scanNeighbours]; [done|].
  destruct (DIRECTIONS_lookup ((bt + i) mod 8)%nat)
    as (dx & dy & -> & Hdx & Hdy & Hne).
  { apply Nat.mod_upper_bound. lia. }
  destruct (foregroundAt mask (cx + dx) (cy + dy)) as [[|]| |] eqn:Hfg;
    simpl; try done.
  intros [= <- <- <-]. eauto 10.
Qed.

Lemma scanNeighbours_total cx cy bt l :
  mask ≠ [] → ∃ r, scanNeighbours mask cx cy bt l = Ok r.
Proof.
  intros Hne. induction l as [|i l IH]; cbn [scanNeighbours]; [eauto|].
  destruct (DIRECTIONS_lookup ((bt + i) mod 8)%nat) as (dx & dy & -> & _).
  { apply Nat.mod_upper_bound. lia. }
  destruct (foregroundAt_nonempty (cx + dx) (cy + dy) Hne) as [[|] ->];
    simpl; eauto.
Qed.

(** A scan that finds nothing when no neighbour is foreground. *)
Lemma scanNeighbours_isolated cx cy bt l :
  (∀ dx dy, -1 ≤ dx ≤ 1 → -1 ≤ dy ≤ 1 → (dx, dy) ≠ (0, 0) →
     foregroundAt mask (cx + dx) (cy + dy) = Ok false) →
  scanNeighbours mask cx cy bt l = Ok None.
Proof.
  intros Hiso. induction l as [|i l IH]; cbn [scanNeighbours]; [done|].
  destruct (DIRECTIONS_lookup ((bt + i) mod 8)%nat)
    as (dx & dy & -> & Hdx & Hdy & Hne).
  { apply Nat.mod_upper_bound. lia. }
  by rewrite Hiso.
Qed.

Lemma traceStep_nonempty st :
  mask ≠ [] → ∃ r, traceStep mask startX startY st = Ok r.
Proof.
  intros Hne. unfold traceStep. destruct (_ <? _)%nat; [eauto|].
  destruct (scanNeighbours_total (cx st) (cy st) (backtrackDir st) (seq 0 8) Hne)
    as [[[[nx ny] bt]|] ->]; simpl; [|eauto].
  destruct (_ && _); eauto.
Qed.

Lemma while_traceStep_nonempty fuel st :
  mask ≠ [] → while (traceStep mask startX startY) fuel st ≠ TypeError.
Proof.
  intros Hne. revert st. induction fuel as [|fuel IH]; intros st; [done|].
  simpl. destruct (traceStep_nonempty st Hne) as [[st'|r] ->]; simpl; [|done].
  apply IH.
Qed.

(** On a mask with at least one row the walk returns a contour. *)
Lemma traceWalk_returns dir :
  mask ≠ [] →
  ∃ c e, traceWalk (S MAX_LOOP) mask startX startY dir = Ok (c, e).
Proof.
  intros Hne.
  pose proof (traceWalk_ends dir (S MAX_LOOP) (le_n _)) as Hfuel.
  pose proof (while_traceStep_nonempty (S MAX_LOOP)
                (traceInit startX startY dir) Hne) as Herr.
  unfold traceWalk in *.
  destruct (while _ _ _) as [[c e]| |]; [eauto|done|done].
Qed.

(** The contour all along the walk: the start pixel, then pixels other than
    the start, the last of them the current pixel. *)
Definition walking (st : TraceState) : Prop :=
  ∃ rest, contour st = mkPixel startX startY :: rest
    ∧ Forall (λ p, p ≠ mkPixel startX startY) rest
    ∧ last (contour st) = Some (mkPixel (cx st) (cy st)).

Lemma walking_init dir : walking (traceInit startX startY dir).
Proof. exists []. simpl. auto. Qed.

Lemma walking_step st st' :
  walking st → traceStep mask startX startY st = Ok (inl st') → walking st'.
Proof.
  intros (rest & Hc & Hrest & Hlast). unfold traceStep.
  destruct (_ <? _)%nat; [done|].
  destruct (scanNeighbours _ _ _ _ _) as [[[[nx ny] bt]|]| |]; simpl; try done.
  destruct ((nx =? startX) && (ny =? startY)) eqn:Hclosed; [done|].
  intros [= <-]. exists (rest ++ [mkPixel nx ny]). cbn [contour cx cy].
  split; [by rewrite Hc|]. split.
  - apply Forall_app. split; [done|]. apply Forall_singleton.
    intros [= -> ->]. by rewrite !Z.eqb_refl in Hclosed.
  - apply last_snoc.
Qed.
End Walk.

Section WalkResults.
Import Tracing.
Variables (mask : Mask) (startX startY : Z).

Lemma traceStep_exit st c e :
  traceStep mask startX startY st = Ok (inr (c, e)) → c = contour st.
Proof.
  unfold traceStep. destruct (_ <? _)%nat; [congruence|].
  destruct (scanNeighbours _ _ _ _ _) as [[[[nx ny] bt]|]| |]; simpl;
    try congruence.
  destruct (_ && _); congruence.
Qed.

(** The [break] on the start pixel is taken from a pixel next to it. *)
Lemma traceStep_closed st c :
  traceStep mask startX startY st = Ok (inr (c, Closed)) →
  ∃ dx dy, -1 ≤ dx ≤ 1 ∧ -1 ≤ dy ≤ 1 ∧ (dx, dy) ≠ (0, 0)
    ∧ startX = cx st + dx ∧ startY = cy st + dy
    ∧ foregroundAt mask startX startY = Ok true.
Proof.
  unfold traceStep. destruct (_ <? _)%nat; [congruence|].
  destruct (scanNeighbours _ _ _ _ _) as [[[[nx ny] bt]|]| |] eqn:Hscan; simpl;
    try congruence.
  destruct ((nx =? startX) && (ny =? startY)) eqn:Hclosed; [|congruence].
  intros _. apply andb_true_iff in Hclosed as [->%Z.eqb_eq ->%Z.eqb_eq].
  apply scanNeighbours_found in Hscan as (dx & dy & ?). exists dx, dy.
  naive_solver.
Qed.

Lemma traceWalk_contour fuel dir c e :
  traceWalk fuel mask startX startY dir = Ok (c, e) →
  ∃ rest, c = mkPixel startX startY :: rest
    ∧ Forall (λ p, p ≠ mkPixel startX startY) rest.
Proof.
  unfold traceWalk. intros Hrun.
  apply (while_invariant _ (walking startX startY)) in Hrun
    as (st & (rest & Hc & Hrest & _) & Hexit).
  - apply traceStep_exit in Hexit as ->. eauto.
  - intros t t'. apply walking_step.
  - apply walking_init.
Qed.

Lemma traceWalk_closed fuel dir c :
  traceWalk fuel mask startX startY dir = Ok (c, Closed) →
  ∃ rest lastPoint,
    c = mkPixel startX startY :: rest
    ∧ Forall (λ p, p ≠ mkPixel startX startY) rest
    ∧ last c = Some lastPoint
    ∧ lastPoint ≠ mkPixel startX startY
    ∧ -1 ≤ ix lastPoint - startX ≤ 1 ∧ -1 ≤ iy lastPoint - startY ≤ 1.
Proof.
  unfold traceWalk. intros Hrun.
  apply (while_invariant _ (walking startX startY)) in Hrun
    as (st & (rest & Hc & Hrest & Hlast) & Hexit).
  - pose proof (traceStep_exit _ _ _ Hexit) as ->.
    apply traceStep_closed in Hexit as (dx & dy & Hdx & Hdy & Hne & Hx & Hy & _).
    exists rest, (mkPixel (cx st) (cy st)). cbn [ix iy].
    repeat split; try done; try lia.
    intros [= Hcx Hcy]. apply Hne. f_equal; lia.
  - intros t t'. apply walking_step.
  - apply walking_init.
Qed.

(** A neighbour of [(x, y)] that is a foreground pixel of the mask. *)
Definition foregroundPixel (x y : Z) : Prop :=
  0 ≤ x ∧ 0 ≤ y ∧ pixelAt mask (Z.to_nat y) (Z.to_nat x) = Some 1.

Definition isolated (x y : Z) : Prop :=
  ∀ dx dy, -1 ≤ dx ≤ 1 → -1 ≤ dy ≤ 1 → (dx, dy) ≠ (0, 0) →
    ¬ foregroundPixel (x + dx) (y + dy).

Lemma foregroundAt_background nx ny :
  mask ≠ [] → ¬ foregroundPixel nx ny → foregroundAt mask nx ny = Ok false.
Proof.
  intros Hne Hbg. unfold foregroundAt.
  destruct ((0 <=? nx) && (0 <=? ny)) eqn:Hpos; [|done].
  apply andb_true_iff in Hpos as [Hx%Z.leb_le Hy%Z.leb_le].
  destruct (mask !! 0%nat) as [row0|] eqn:Hrow0.
  2:{ destruct mask; [done|discriminate]. }
  destruct (_ && _); [|done]. f_equal.
  destruct (isOne _) eqn:Hone; [|done].
  apply isOne_spec in Hone. destruct Hbg. by repeat split.
Qed.

Lemma traceWalk_isolated fuel dir :
  mask ≠ [] → isolated startX startY →
  traceWalk (S fuel) mask startX startY dir
  = Ok ([mkPixel startX startY], Isolated).
Proof.
  intros Hne Hiso. unfold traceWalk. cbn [while].
  unfold traceStep, traceInit. cbn [loopCount cx cy backtrackDir contour].
  destruct (Nat.ltb_spec MAX_LOOP 1) as [Hcap|_].
  { unfold MAX_LOOP in Hcap. lia. }
  rewrite scanNeighbours_isolated; [done|].
  intros dx dy Hdx Hdy Hd. apply foregroundAt_background; [done|].
  by apply Hiso.
Qed.
End WalkResults.

(** ** Claims on the boundary walk *)

(** C8.  The loop of [mooreNeighborTrace] ends within [MAX_LOOP + 1]
    iterations on every mask, start pixel and initial direction: the walk
    never runs out of fuel, and more fuel does not change its result.  On a
    mask with at least one row it returns a contour that begins with the
    start pixel, and for a start pixel with no foreground neighbour it
    returns the start pixel alone. *)
Theorem mooreNeighborTrace_terminates (mask : Mask) (startX startY : Z)
    (visited : list (list bool)) (dir : nat) :
  (∀ fuel, (S Tracing.MAX_LOOP ≤ fuel)%nat →
     Tracing.traceWalk fuel mask startX startY dir
     = Tracing.traceWalk (S Tracing.MAX_LOOP) mask startX startY dir) ∧
  Tracing.mooreNeighborTrace mask startX startY visited dir ≠ OutOfFuel ∧
  (mask ≠ [] →
     ∃ rest, Tracing.mooreNeighborTrace mask startX startY visited dir
             = Ok (Tracing.mkPixel startX startY :: rest)) ∧
  (mask ≠ [] → isolated mask startX startY →
     Tracing.traceWalk (S Tracing.MAX_LOOP) mask startX startY dir
     = Ok ([Tracing.mkPixel startX startY], Tracing.Isolated) ∧
     Tracing.mooreNeighborTrace mask startX startY visited dir
     = Ok [Tracing.mkPixel startX startY]).
Proof.
  pose proof (traceWalk_ends mask startX startY dir (S Tracing.MAX_LOOP)
                (le_n _)) as Hends.
  repeat split.
  - intros fuel Hfuel. unfold Tracing.traceWalk.
    by apply while_fuel_mono.
  - unfold Tracing.mooreNeighborTrace.
    by destruct (Tracing.traceWalk _ _ _ _ _).
  - intros Hne. unfold Tracing.mooreNeighborTrace.
    destruct (traceWalk_returns mask startX startY dir Hne) as (c & e & Hrun).
    rewrite Hrun. cbn [bind fst].
    apply traceWalk_contour in Hrun as (rest & -> & _). eauto.
  - by apply traceWalk_isolated.
  - unfold Tracing.mooreNeighborTrace.
    by rewrite traceWalk_isolated.
Qed.

Lemma mooreNeighborTrace_terminates_witness :
  Tracing.traceWalk (S Tracing.MAX_LOOP) [[0; 0; 0]; [0; 1; 0]; [0; 0; 0]] 1 1 6
  = Ok ([Tracing.mkPixel 1 1], Tracing.Isolated) ∧
  Tracing.mooreNeighborTrace [[0; 0; 0]; [0; 1; 0]; [0; 0; 0]] 1 1 [] 6
  = Ok [Tracing.mkPixel 1 1].
Proof.
  apply (mooreNeighborTrace_terminates [[0; 0; 0]; [0; 1; 0]; [0; 0; 0]] 1 1 [] 6).
  - discriminate.
  - intros dx dy Hdx Hdy Hd (Hx & Hy & Hp).
    assert (Hcx : dx = -1 ∨ dx = 0 ∨ dx = 1) by lia.
    assert (Hcy : dy = -1 ∨ dy = 0 ∨ dy = 1) by lia.
    destruct Hcx as [-> | [-> | ->]], Hcy as [-> | [-> | ->]];
      solve [discriminate Hp | by apply Hd].
Defined.

Section Contours.
Import Tracing.
Variable mask : Mask.

(** A contour of the output is the walk of [mooreNeighborTrace] started at
    a foreground pixel, heading West. *)
Definition tracedFrom (c : Contour) (x y : nat) (e : Exit) : Prop :=
  pixelAt mask y x = Some 1 ∧
  traceWalk (S MAX_LOOP) mask (Z.of_nat x) (Z.of_nat y) 6 = Ok (points c, e).

Definition traced (st : list (list bool) * list Contour) : Prop :=
  Forall (λ c, ∃ x y e, tracedFrom c x y e) (snd st).

Lemma scanPixel_traced y x st st' :
  traced st → scanPixel mask y x st = Ok st' → traced st'.
Proof.
  destruct st as [visited contours]. unfold traced, scanPixel. cbn [snd].
  intros Hall.
  destruct (isOne (pixelAt mask y x) && unvisited visited y x) eqn:Hfg;
    [|by intros [= <-]].
  apply andb_true_iff in Hfg as [Hone%isOne_spec _].
  unfold mooreNeighborTrace.
  destruct (traceWalk _ _ _ _ _) as [[pts e]| |] eqn:Hwalk; cbn [bind fst];
    try done.
  destruct (floodFillVisited _ _ _ _) as [visited'| |]; cbn [bind]; try done.
  intros [= <-]. cbn [snd].
  destruct (0 <? length pts)%nat; [|done].
  apply Forall_app. split; [done|]. apply Forall_singleton.
  exists x, y, e. by split.
Qed.

Lemma traceContours_traced contours c :
  traceContours mask = Ok contours → c ∈ contours →
  ∃ x y e, tracedFrom c x y e.
Proof.
  unfold traceContours. destruct (mask !! 0%nat) as [row0|]; [|done].
  destruct (forM _ _ _) as [st| |] eqn:Hrun; cbn [bind]; try done.
  intros [= <-] Hin.
  assert (Hst : traced st).
  { revert Hrun. apply forM_invariant; [|by apply Forall_nil].
    intros y t t' _ Ht. apply forM_invariant; [|done].
    intros x u u' _. apply scanPixel_traced. }
  unfold traced in Hst. rewrite Forall_forall in Hst. by apply Hst.
Qed.
End Contours.

(** ** Claims on the contours *)

(** C3, as the code has it.  Every contour returned by [traceContours] is
    the walk of [mooreNeighborTrace] from a foreground pixel.  When that walk
    ends by stepping back onto its start pixel, the returned points begin
    with the start pixel and do not contain it again: the last point is
    another pixel, one of the eight neighbours of the start. *)
Theorem closed_contour_ends_beside_its_start (mask : Mask)
    (contours : list Tracing.Contour) (c : Tracing.Contour) :
  Tracing.traceContours mask = Ok contours → c ∈ contours →
  ∃ x y e,
    pixelAt mask y x = Some 1 ∧
    Tracing.traceWalk (S Tracing.MAX_LOOP) mask (Z.of_nat x) (Z.of_nat y) 6
    = Ok (Tracing.points c, e) ∧
    (e = Tracing.Closed →
     ∃ rest lastPoint,
       Tracing.points c = Tracing.mkPixel (Z.of_nat x) (Z.of_nat y) :: rest
       ∧ Forall (λ p, p ≠ Tracing.mkPixel (Z.of_nat x) (Z.of_nat y)) rest
       ∧ last (Tracing.points c) = Some lastPoint
       ∧ lastPoint ≠ Tracing.mkPixel (Z.of_nat x) (Z.of_nat y)
       ∧ -1 ≤ Tracing.ix lastPoint - Z.of_nat x ≤ 1
       ∧ -1 ≤ Tracing.iy lastPoint - Z.of_nat y ≤ 1).
Proof.
  intros Hrun Hin.
  destruct (traceContours_traced mask contours c Hrun Hin)
    as (x & y & e & Hfg & Hwalk).
  exists x, y, e. split; [done|]. split; [done|].
  intros ->. apply traceWalk_closed in Hwalk as (rest & lastPoint & ?).
  exists rest, lastPoint. naive_solver.
Qed.

Lemma closed_contour_ends_beside_its_start_witness :
  ∃ x y e,
    pixelAt [[1; 1]] y x = Some 1 ∧
    Tracing.traceWalk (S Tracing.MAX_LOOP) [[1; 1]] (Z.of_nat x) (Z.of_nat y) 6
    = Ok ([Tracing.mkPixel 0 0; Tracing.mkPixel 1 0], e) ∧
    (e = Tracing.Closed →
     ∃ rest lastPoint,
       [Tracing.mkPixel 0 0; Tracing.mkPixel 1 0]
       = Tracing.mkPixel (Z.of_nat x) (Z.of_nat y) :: rest
       ∧ Forall (λ p, p ≠ Tracing.mkPixel (Z.of_nat x) (Z.of_nat y)) rest
       ∧ last [Tracing.mkPixel 0 0; Tracing.mkPixel 1 0] = Some lastPoint
       ∧ lastPoint ≠ Tracing.mkPixel (Z.of_nat x) (Z.of_nat y)
       ∧ -1 ≤ Tracing.ix lastPoint - Z.of_nat x ≤ 1
       ∧ -1 ≤ Tracing.iy lastPoint - Z.of_nat y ≤ 1).
Proof.
  apply (closed_contour_ends_beside_its_start [[1; 1]]
           [ {| Tracing.points := [Tracing.mkPixel 0 0; Tracing.mkPixel 1 0];
                Tracing.isHole := false |} ]
           {| Tracing.points := [Tracing.mkPixel 0 0; Tracing.mkPixel 1 0];
              Tracing.isHole := false |}).
  - vm_compute. reflexivity.
  - apply list_elem_of_here.
Defined.

(** C3 as stated fails: the walk over a two-pixel row closes on its start
    pixel [(0,0)], and the contour returned ends at [(1,0)]. *)
Lemma closed_contour_counterexample :
  Tracing.traceWalk (S Tracing.MAX_LOOP) [[1; 1]] 0 0 6
  = Ok ([Tracing.mkPixel 0 0; Tracing.mkPixel 1 0], Tracing.Closed) ∧
  Tracing.traceContours [[1; 1]]
  = Ok [ {| Tracing.points := [Tracing.mkPixel 0 0; Tracing.mkPixel 1 0];
            Tracing.isHole := false |} ] ∧
  head [Tracing.mkPixel 0 0; Tracing.mkPixel 1 0]
  ≠ last [Tracing.mkPixel 0 0; Tracing.mkPixel 1 0].
Proof.
  split; [vm_compute; reflexivity|]. split; [vm_compute; reflexivity|].
  discriminate.
Qed.

(** Foreground pixels of a mask that touch by a side or by a corner. *)
Definition adjacent8 (mask : Mask) (p q : Tracing.Pixel) : Prop :=
  foregroundPixel mask (Tracing.ix p) (Tracing.iy p) ∧
  foregroundPixel mask (Tracing.ix q) (Tracing.iy q) ∧
  -1 ≤ Tracing.ix q - Tracing.ix p ≤ 1 ∧ -1 ≤ Tracing.iy q - Tracing.iy p ≤ 1.

(** C2 fails on the code.  The two foreground pixels of the mask
    [[1,0],[0,1]] touch by a corner, so they form one 8-connected component;
    [traceContours] returns two contours for it, each walking over both
    pixels: the flood fill that marks a traced region follows the four side
    neighbours only and leaves [(1,1)] unvisited.  The mask is one the
    tracer receives from the dilation step, for a layer of these two pixels
    in an image where only they are visible. *)
Theorem diagonal_component_is_traced_twice :
  adjacent8 [[1; 0]; [0; 1]] (Tracing.mkPixel 0 0) (Tracing.mkPixel 1 1) ∧
  (∀ x y, foregroundPixel [[1; 0]; [0; 1]] x y →
     (x, y) = (0, 0) ∨ (x, y) = (1, 1)) ∧
  Dilate.dilateHybrid [[1; 0]; [0; 1]] [[1; 0]; [0; 1]] Dilate.defaultOptions
  = Ok [[1; 0]; [0; 1]] ∧
  Tracing.floodFillVisited [[1; 0]; [0; 1]] 0 0 (newGrid 2 2 false)
  = Ok [[true; false]; [false; false]] ∧
  Tracing.traceContours [[1; 0]; [0; 1]]
  = Ok [ {| Tracing.points := [Tracing.mkPixel 0 0; Tracing.mkPixel 1 1];
            Tracing.isHole := false |};
         {| Tracing.points := [Tracing.mkPixel 1 1; Tracing.mkPixel 0 0];
            Tracing.isHole := false |} ].
Proof.
  split; [|split; [|split; [|split]]].
  - unfold adjacent8, foregroundPixel. cbn. repeat split; lia.
  - intros x y (Hx & Hy & Hp).
    destruct (Z.to_nat y) as [|[|ny]] eqn:Hny,
             (Z.to_nat x) as [|[|nx]] eqn:Hnx;
      try discriminate Hp.
    + left. f_equal; lia.
    + right. f_equal; lia.
  - vm_compute. reflexivity.
  - vm_compute. reflexivity.
  - vm_compute. reflexivity.
Qed.

(** * Flood fill *)

(** What the call on a neighbour does when [visited] has the dimensions of
    the mask: the row exists and the cell lies within it. *)
Definition visitInside (mask : Mask) (width height : nat) (n : Tracing.Pixel)
    (st : list Tracing.Pixel * list (list bool))
  : list Tracing.Pixel * list (list bool) :=
  let '(queue, visited) := st in
  if inRange (Tracing.ix n) width && inRange (Tracing.iy n) height then
    if isOne (pixelAt mask (Z.to_nat (Tracing.iy n)) (Z.to_nat (Tracing.ix n)))
       && Tracing.unvisited visited (Z.to_nat (Tracing.iy n))
            (Z.to_nat (Tracing.ix n))
    then (queue ++ [n],
          setPixel visited (Z.to_nat (Tracing.iy n)) (Z.to_nat (Tracing.ix n))
            true)
    else st
  else st.

Section FloodFill.
Import Tracing.
Variables (mask : Mask) (width height : nat).

Lemma visitedAt_inside visited y x :
  rect height width visited → (y < height)%nat →
  visitedAt visited y x = Ok (negb (unvisited visited y x)).
Proof.
  intros Hrect Hy. unfold visitedAt, unvisited.
  destruct (lookup_lt_is_Some_2 visited y) as [row ->];
    [destruct Hrect; lia|].
  by rewrite negb_involutive.
Qed.

Lemma markVisited_inside visited y x :
  rect height width visited → (y < height)%nat → (x < width)%nat →
  markVisited visited y x = Ok (setPixel visited y x true).
Proof.
  intros Hrect Hy Hx. unfold markVisited.
  destruct (lookup_lt_is_Some_2 visited y) as [row Hrow];
    [destruct Hrect; lia|].
  rewrite Hrow, (rect_row _ _ _ _ _ Hrect Hrow).
  by destruct (Nat.ltb_spec x width); [|lia].
Qed.

Lemma visitNeighbour_inside n st :
  rect height width (snd st) →
  visitNeighbour mask width height n st
  = Ok (visitInside mask width height n st).
Proof.
  destruct st as [queue visited]. cbn [snd]. intros Hrect.
  unfold visitNeighbour, visitInside.
  destruct (inRange (ix n) width && inRange (iy n) height) eqn:Hin; [|done].
  apply andb_true_iff in Hin as [Hx%inRange_spec Hy%inRange_spec].
  destruct (isOne _); [|done]. cbn [andb].
  rewrite visitedAt_inside by (done || lia). cbn [bind].
  destruct (unvisited _ _ _); cbn [negb]; [|done].
  rewrite markVisited_inside by (done || lia). done.
Qed.

(** The cells of [visited] that are still false. *)
Fixpoint countFalse (row : list bool) : nat :=
  match row with
  | [] => 0
  | v :: row' => (if v then 0 else 1) + countFalse row'
  end.

Definition unvisitedCount (visited : list (list bool)) : nat :=
  sum_list (countFalse <$> visited).

Lemma countFalse_mark row x :
  row !! x = Some false →
  (countFalse (<[x := true]> row) + 1 = countFalse row)%nat.
Proof.
  revert x. induction row as [|v row IH]; intros [|x] Hx; try done.
  - injection Hx as ->. simpl. lia.
  - specialize (IH x Hx). simpl. destruct v; simpl; lia.
Qed.

Lemma countFalse_length row : (countFalse row ≤ length row)%nat.
Proof.
  induction row as [|[] row IH]; cbn [countFalse length]; lia.
Qed.

Lemma unvisitedCount_cons row visited :
  unvisitedCount (row :: visited) = (countFalse row + unvisitedCount visited)%nat.
Proof. reflexivity. Qed.

Lemma setPixel_head {A : Type} (row : list A) m x v :
  setPixel (row :: m) 0 x v = <[x := v]> row :: m.
Proof. reflexivity. Qed.

Lemma setPixel_tail {A : Type} (row : list A) m y x v :
  setPixel (row :: m) (S y) x v = row :: setPixel m y x v.
Proof. reflexivity. Qed.

Lemma unvisitedCount_mark visited y x row :
  visited !! y = Some row → row !! x = Some false →
  (unvisitedCount (setPixel visited y x true) + 1 = unvisitedCount visited)%nat.
Proof.
  revert y. induction visited as [|r visited IH]; intros [|y] Hy Hx; try done.
  - injection Hy as ->. rewrite setPixel_head, !unvisitedCount_cons.
    pose proof (countFalse_mark row x Hx). lia.
  - rewrite setPixel_tail, !unvisitedCount_cons.
    specialize (IH y Hy Hx). lia.
Qed.

Lemma unvisitedCount_rect visited :
  rect height width visited → (unvisitedCount visited ≤ height * width)%nat.
Proof.
  intros [Hlen Hrows]. subst height.
  induction Hrows as [|row visited Hrow Hrows IH]; [done|].
  rewrite unvisitedCount_cons. cbn [length].
  pose proof (countFalse_length row). lia.
Qed.

Lemma unvisited_cell visited y x :
  rect height width visited → (y < height)%nat → (x < width)%nat →
  unvisited visited y x = true →
  ∃ row, visited !! y = Some row ∧ row !! x = Some false.
Proof.
  intros Hrect Hy Hx. unfold unvisited.
  destruct (lookup_lt_is_Some_2 visited y) as [row Hrow];
    [destruct Hrect; lia|].
  rewrite Hrow.
  destruct (lookup_lt_is_Some_2 row x) as [v Hv].
  { by rewrite (rect_row _ _ _ _ _ Hrect Hrow). }
  rewrite Hv. destruct v; [done|]. eauto.
Qed.

(** The measure of the loop: pixels waiting in the queue and cells not yet
    visited. *)
Definition floodMeasure (st : list Pixel * list (list bool)) : nat :=
  (length (fst st) + unvisitedCount (snd st))%nat.

Lemma visitNeighbour_measure n st :
  rect height width (snd st) →
  rect height width (snd (visitInside mask width height n st)) ∧
  floodMeasure (visitInside mask width height n st) = floodMeasure st.
Proof.
  destruct st as [queue visited]. cbn [snd]. intros Hrect.
  unfold visitInside.
  destruct (inRange (ix n) width && inRange (iy n) height) eqn:Hin; [|done].
  apply andb_true_iff in Hin as [Hx%inRange_spec Hy%inRange_spec].
  destruct (isOne _ && unvisited _ _ _) eqn:Hnew; [|done].
  apply andb_true_iff in Hnew as [_ Hun].
  apply (unvisited_cell visited) in Hun as (row & Hrow & Hcell);
    [|done|lia|lia].
  cbn [snd]. split; [by apply rect_setPixel|].
  unfold floodMeasure. cbn [fst snd]. rewrite length_app. cbn [length].
  pose proof (unvisitedCount_mark visited _ _ row Hrow Hcell). lia.
Qed.

Lemma visitNeighbours_measure ns st :
  rect height width (snd st) →
  rect height width
    (snd (fold_left (λ st n, visitInside mask width height n st) ns st)) ∧
  floodMeasure (fold_left (λ st n, visitInside mask width height n st) ns st)
  = floodMeasure st.
Proof.
  revert st. induction ns as [|n ns IH]; intros st Hrect; [done|].
  cbn [fold_left].
  destruct (visitNeighbour_measure n st Hrect) as [Hrect' Hm].
  destruct (IH _ Hrect') as [Hrect'' Hm']. split; [done|]. lia.
Qed.

Lemma visitNeighbours_inside ns st :
  rect height width (snd st) →
  forM ns (visitNeighbour mask width height) st
  = Ok (fold_left (λ st n, visitInside mask width height n st) ns st).
Proof.
  revert st. induction ns as [|n ns IH]; intros st Hrect; [done|].
  cbn [forM fold_left]. rewrite visitNeighbour_inside by done. cbn [bind].
  apply IH. by apply visitNeighbour_measure.
Qed.

(** One iteration of the loop on a [visited] grid of the dimensions of the
    mask. *)
Lemma floodStep_inside st :
  rect height width (snd st) →
  floodStep mask width height st
  = match fst st with
    | [] => Ok (inr (snd st))
    | p :: queue =>
        Ok (inl (fold_left (λ st n, visitInside mask width height n st)
                   [ mkPixel (ix p + 1) (iy p); mkPixel (ix p - 1) (iy p);
                     mkPixel (ix p) (iy p + 1); mkPixel (ix p) (iy p - 1) ]
                   (queue, snd st)))
    end.
Proof.
  intros Hrect. unfold floodStep. destruct (fst st) as [|p queue]; [done|].
  by rewrite visitNeighbours_inside.
Qed.

Lemma floodStep_measure st st' :
  rect height width (snd st) →
  floodStep mask width height st = Ok (inl st') →
  rect height width (snd st') ∧ (floodMeasure st' < floodMeasure st)%nat.
Proof.
  intros Hrect Hstep. rewrite floodStep_inside in Hstep by done.
  revert Hrect Hstep.
  destruct st as [[|p queue] visited]; cbn [fst snd]; [done|].
  intros Hrect Hstep.
  assert (Hst' : st' = fold_left (λ st n, visitInside mask width height n st)
            [ mkPixel (ix p + 1) (iy p); mkPixel (ix p - 1) (iy p);
              mkPixel (ix p) (iy p + 1); mkPixel (ix p) (iy p - 1) ]
            (queue, visited)) by congruence.
  rewrite Hst'.
  destruct (visitNeighbours_measure
              [ mkPixel (ix p + 1) (iy p); mkPixel (ix p - 1) (iy p);
                mkPixel (ix p) (iy p + 1); mkPixel (ix p) (iy p - 1) ]
              (queue, visited) Hrect) as [Hrect' Hm].
  split; [done|]. rewrite Hm. unfold floodMeasure. cbn [fst snd length]. lia.
Qed.

Lemma floodStep_Ok st :
  rect height width (snd st) → ∃ r, floodStep mask width height st = Ok r.
Proof.
  intros Hrect. rewrite floodStep_inside by done. destruct (fst st); eauto.
Qed.

Lemma flood_loop_returns fuel st :
  rect height width (snd st) → (floodMeasure st < fuel)%nat →
  ∃ visited', while (floodStep mask width height) fuel st = Ok visited'
              ∧ rect height width visited'.
Proof.
  revert st. induction fuel as [|fuel IH]; intros st Hrect Hfuel; [lia|].
  cbn [while]. destruct (floodStep_Ok st Hrect) as [[st'|visited'] Hstep].
  - rewrite Hstep. cbn [bind].
    destruct (floodStep_measure st st' Hrect Hstep) as [Hrect' Hlt].
    apply IH; [done|lia].
  - rewrite Hstep. cbn [bind]. exists visited'. split; [done|].
    rewrite floodStep_inside in Hstep by done. destruct (fst st); [|done].
    by injection Hstep as <-.
Qed.
End FloodFill.

Section Scan.
Import Tracing.
Variables (mask : Mask) (row0 : list Z).
Hypothesis mask_row0 : mask !! 0%nat = Some row0.

(** The fuel of [floodFillVisited] is enough: on a [visited] grid of the
    dimensions of the mask the flood fill returns. *)
Lemma floodFillVisited_returns x y visited :
  rect (length mask) (length row0) visited →
  (y < length mask)%nat → (x < length row0)%nat →
  ∃ visited', floodFillVisited mask x y visited = Ok visited'
              ∧ rect (length mask) (length row0) visited'.
Proof.
  intros Hrect Hy Hx. unfold floodFillVisited. rewrite mask_row0.
  rewrite (markVisited_inside (length row0) (length mask)) by done.
  cbn [bind].
  apply flood_loop_returns; cbn [snd]; [by apply rect_setPixel|].
  unfold floodMeasure. cbn [fst snd length].
  pose proof (unvisitedCount_rect (length row0) (length mask)
                (setPixel visited y x true)
                (rect_setPixel _ _ _ _ _ _ Hrect)).
  lia.
Qed.

Lemma scanPixel_returns y x st :
  (y < length mask)%nat → (x < length row0)%nat →
  rect (length mask) (length row0) (fst st) →
  ∃ st', scanPixel mask y x st = Ok st'
         ∧ rect (length mask) (length row0) (fst st').
Proof.
  destruct st as [visited contours]. cbn [fst]. intros Hy Hx Hrect.
  unfold scanPixel. destruct (_ && _); [|eauto].
  unfold mooreNeighborTrace.
  destruct (traceWalk_returns mask (Z.of_nat x) (Z.of_nat y) 6)
    as (c & e & ->).
  { intros ->. done. }
  cbn [bind fst].
  destruct (floodFillVisited_returns x y visited Hrect Hy Hx)
    as (visited' & -> & ?).
  cbn [bind]. eauto.
Qed.

(** [traceContours] returns on every mask with at least one row. *)
Lemma traceContours_returns :
  ∃ contours, traceContours mask = Ok contours.
Proof.
  unfold traceContours. rewrite mask_row0.
  destruct (forM_total (λ st : list (list bool) * list Contour,
                          rect (length mask) (length row0) (fst st))
              (seq 0 (length mask))
              (λ y, forM (seq 0 (length row0)) (λ x, scanPixel mask y x))
              (newGrid (length mask) (length row0) false, []))
    as (st & -> & _).
  - intros y t Hy%elem_of_seq Ht. apply forM_total; [|done].
    intros x u Hx%elem_of_seq Hu. apply scanPixel_returns; [lia|lia|done].
  - apply rect_newGrid.
  - cbn [bind]. eauto.
Qed.
End Scan.

(** * Real comparisons and vectors *)

Section RealFacts.
Import Geometry.
Open Scope R_scope.

Lemma Rltb_true a b : a < b → Rltb a b = true.
Proof. intros H. unfold Rltb. by destruct (Rlt_dec a b). Qed.

Lemma Rltb_false a b : ¬ a < b → Rltb a b = false.
Proof. intros H. unfold Rltb. by destruct (Rlt_dec a b). Qed.

Lemma Rltb_spec a b : Rltb a b = true ↔ a < b.
Proof. unfold Rltb. destruct (Rlt_dec a b); split; (done || lra). Qed.

Lemma Rltb_spec_false a b : Rltb a b = false ↔ b <= a.
Proof. unfold Rltb. destruct (Rlt_dec a b); split; (done || lra). Qed.

Lemma Reqb_spec a b : Reqb a b = true ↔ a = b.
Proof. unfold Reqb. destruct (Req_dec_T a b); split; (done || lra). Qed.


Lemma distance_self p : distance p p = 0.
Proof.
  unfold distance. rewrite <- sqrt_0. f_equal. ring.
Qed.




(** Away from the fallback, [safeNormalize] divides by the length. *)
Lemma safeNormalize_unit v :
  1e-9 <= sqrt (px v * px v + py v * py v) →
  safeNormalize v
  = {| px := px v / sqrt (px v * px v + py v * py v);
       py := py v / sqrt (px v * px v + py v * py v) |}.
Proof.
  intros Hlen. unfold safeNormalize. by rewrite Rltb_false by lra.
Qed.

Lemma at_Ok {A : Type} (l : list A) i a : at_ l i = Ok a ↔ l !! i = Some a.
Proof. unfold at_. destruct (l !! i); split; congruence. Qed.

Lemma at_lt {A : Type} (l : list A) i :
  (i < length l)%nat → ∃ a, at_ l i = Ok a ∧ l !! i = Some a.
Proof.
  intros Hi. destruct (lookup_lt_is_Some_2 l i Hi) as [a Ha].
  exists a. split; [by apply at_Ok|done].
Qed.
End RealFacts.

(** * Curve fitting *)

Section Corners.
Import Geometry CurveFitting.
Open Scope R_scope.

(** The dot product of the unit vectors along the edges into and out of
    [curr]. *)
Definition unitDot (prev curr next : Point) : R :=
  let d1 := distance prev curr in
  let d2 := distance curr next in
  ((px curr - px prev) / d1) * ((px next - px curr) / d2)
  + ((py curr - py prev) / d1) * ((py next - py curr) / d2).

Lemma edge_length p q :
  sqrt ((px q - px p) * (px q - px p) + (py q - py p) * (py q - py p))
  = distance p q.
Proof. unfold distance. f_equal. ring. Qed.

Lemma isCorner_short prev curr next :
  distance prev curr < 0.1 ∨ distance curr next < 0.1 →
  isCorner (Some prev) curr (Some next) = false.
Proof.
  intros Hshort. unfold isCorner.
  destruct (Rltb (distance prev curr) 0.1) eqn:H1; [done|].
  destruct (Rltb (distance curr next) 0.1) eqn:H2; [done|].
  apply Rltb_spec_false in H1, H2. lra.
Qed.

Lemma isCorner_long prev curr next :
  0.1 <= distance prev curr → 0.1 <= distance curr next →
  isCorner (Some prev) curr (Some next) = Rltb (unitDot prev curr next) 0.2.
Proof.
  intros H1 H2. unfold isCorner.
  rewrite (Rltb_false (distance prev curr)) by lra.
  rewrite (Rltb_false (distance curr next)) by lra. cbn [orb].
  rewrite !safeNormalize_unit; cbn [px py]; rewrite ?edge_length; try lra.
  done.
Qed.
End Corners.

(** ** Claims on corners *)

(** C4, as the code has it.  [isCorner] answers true when either neighbour
    is absent, false when either adjacent edge is shorter than 0.1, and
    otherwise true exactly when the dot product of the unit vectors of the
    two edges is below 0.2.  An endpoint handed to it as its own neighbour,
    which is what [fitCurves] does at the two ends of an open path, falls
    under the second case. *)
Theorem isCorner_classification :
  (∀ prev curr next,
     prev = None ∨ next = None → CurveFitting.isCorner prev curr next = true) ∧
  (∀ prev curr next,
     (Geometry.distance prev curr < 0.1 ∨ Geometry.distance curr next < 0.1)%R →
     CurveFitting.isCorner (Some prev) curr (Some next) = false) ∧
  (∀ prev curr next,
     (0.1 <= Geometry.distance prev curr)%R →
     (0.1 <= Geometry.distance curr next)%R →
     (CurveFitting.isCorner (Some prev) curr (Some next) = true
      ↔ (unitDot prev curr next < 0.2)%R)) ∧
  (∀ p0 p3,
     CurveFitting.isCorner (Some p0) p0 (Some p3) = false ∧
     CurveFitting.isCorner (Some p0) p3 (Some p3) = false).
Proof.
  split; [|split; [|split]].
  - intros prev curr next [-> | ->]; [done|]. by destruct prev.
  - apply isCorner_short.
  - intros prev curr next H1 H2. rewrite isCorner_long by done.
    apply Rltb_spec.
  - intros p0 p3. split; apply isCorner_short.
    + left. rewrite distance_self. lra.
    + right. rewrite distance_self. lra.
Qed.

Lemma isCorner_classification_witness :
  CurveFitting.isCorner (Some (Geometry.mkPoint 0 0)) (Geometry.mkPoint 0 0)
    (Some (Geometry.mkPoint 1 0)) = false.
Proof.
  apply (proj1 (proj2 isCorner_classification)).
  left. rewrite distance_self. lra.
Defined.

(** C4 as stated fails: an endpoint with a zero-length incoming edge is
    classified as not a corner. *)
Lemma isCorner_short_edge_counterexample :
  (Geometry.distance (Geometry.mkPoint 0 0) (Geometry.mkPoint 0 0) < 0.1)%R ∧
  CurveFitting.isCorner (Some (Geometry.mkPoint 0 0)) (Geometry.mkPoint 0 0)
    (Some (Geometry.mkPoint 1 0)) = false.
Proof.
  assert (H : (Geometry.distance (Geometry.mkPoint 0 0) (Geometry.mkPoint 0 0)
               < 0.1)%R) by (rewrite distance_self; lra).
  split; [done|]. apply isCorner_short. by left.
Qed.

Section Fitting.
Import Geometry CurveFitting.
Open Scope R_scope.







Lemma fitSegment_total cleanPoints isClosed i :
  (i + 1 < length cleanPoints)%nat →
  ∃ c, fitSegment cleanPoints isClosed i = Ok c.
Proof.
  intros Hi. unfold fitSegment.
  destruct (at_lt cleanPoints i) as (q0 & -> & _); [lia|].
  destruct (at_lt cleanPoints (i + 1)) as (q3 & -> & _); [lia|].
  cbn [bind]. destruct (Rltb _ 0.1); [eauto|].
  assert (Hprev : ∃ prev,
    (if (i =? 0)%nat
     then (if isClosed then at_ cleanPoints (length cleanPoints - 2) else Ok q0)
     else at_ cleanPoints (i - 1)) = Ok prev).
  { destruct (i =? 0)%nat; [destruct isClosed; [|eauto]|].
    - destruct (at_lt cleanPoints (length cleanPoints - 2)) as (p & -> & _);
        [lia|eauto].
    - destruct (at_lt cleanPoints (i - 1)) as (p & -> & _); [lia|eauto]. }
  destruct Hprev as [prev ->]. cbn [bind].
  assert (Hnext : ∃ next,
    (if (i + 1 =? length cleanPoints - 1)%nat
     then (if isClosed then at_ cleanPoints 1 else Ok q3)
     else at_ cleanPoints (i + 2)) = Ok next).
  { destruct (Nat.eqb_spec (i + 1) (length cleanPoints - 1));
      [destruct isClosed; [|eauto]|].
    - destruct (at_lt cleanPoints 1) as (p & -> & _); [lia|eauto].
    - destruct (at_lt cleanPoints (i + 2)) as (p & -> & _); [lia|eauto]. }
  destruct Hnext as [next ->]. cbn [bind]. eauto.
Qed.
End Fitting.

(** ** Claims on curve fitting *)


Section FittingExample.
Import Geometry CurveFitting.
Open Scope R_scope.

Lemma distance_3_4 : distance (mkPoint 0 0) (mkPoint 3 4) = 5.
Proof.
  unfold distance. cbn [px py].
  replace ((3 - 0) ^ 2 + (4 - 0) ^ 2) with (5 * 5) by ring.
  apply sqrt_square. lra.
Qed.

(** An open path of two points is fitted with one curve between them. *)
Lemma fitCurves_two_points :
  ∃ c, fitCurves [mkPoint 0 0; mkPoint 3 4] = Ok [c]
       ∧ p0 c = mkPoint 0 0 ∧ p3 c = mkPoint 3 4.
Proof.
  unfold fitCurves, filterDuplicates.
  cbn [length Nat.ltb Nat.leb at_ lookup list_lookup bind seq forM Nat.sub].
  unfold keepDistinct.
  cbn [length Nat.ltb Nat.leb at_ lookup list_lookup bind seq forM Nat.sub].
  rewrite distance_3_4. rewrite Rltb_true by lra.
  cbn [length Nat.ltb Nat.leb at_ lookup list_lookup bind seq forM Nat.sub app px py].
  assert (Hopen : Reqb 0 3 = false).
  { unfold Reqb. destruct (Req_dec_T 0 3); [lra|done]. }
  rewrite Hopen. cbn [andb]. unfold fitSegment.
  cbn [length Nat.add Nat.eqb Nat.sub at_ lookup list_lookup bind].
  rewrite distance_3_4. rewrite Rltb_false by lra.
  cbn [bind]. eexists. split; [reflexivity|]. by split.
Qed.
End FittingExample.

(** * Where binary64 leaves the exact arithmetic *)

Section Binary64Examples.
Import Floats Binary64.
Set Warnings "-inexact-float".








(** In exact arithmetic [perpendicularDistance] of an end of the chord is
    0; in binary64 the products of its numerator are rounded and it is
    not. *)
Lemma perpendicularDistance_of_chord_end_in_binary64 :
  (0 <? perpendicularDistance {| px := 0.1; py := 0.1 |}
          {| px := 0.1; py := 0.1 |} {| px := 1.1; py := 0.3 |})%float = true.
Proof. vm_compute. reflexivity. Qed.

(** In exact arithmetic the area of a contour of two points is 0; in
    binary64 the sum of [filterNoise] is not, and with [minArea = 0] the
    contour is kept. *)
Lemma aboveNoise_two_points_in_binary64 :
  aboveNoise 0 [ {| px := 0.1; py := 0.1 |}; {| px := 1.1; py := 0.1 |} ]
  = Ok true.
Proof. vm_compute. reflexivity. Qed.

End Binary64Examples.

(** * Areas and the assembler *)

Section Areas.
Import Geometry Main.
Open Scope R_scope.

(** The shoelace sum of a closed polygon: the cross products of successive
    vertices, the last one paired with the first. *)
Definition cross (p q : Point) : R := px p * py q - px q * py p.

Definition vertex (points : list Point) (i : nat) : Point :=
  default (mkPoint 0 0) (points !! i).

Definition shoelace (points : list Point) : R :=
  fold_left (λ sum i,
      sum + cross (vertex points i) (vertex points ((i + 1) mod length points)%nat))
    (seq 0 (length points)) 0.

Lemma areaStep_cross points i area :
  (i < length points)%nat →
  areaStep points i area
  = Ok (area + cross (vertex points i)
                     (vertex points ((i + 1) mod length points)%nat)).
Proof.
  intros Hi. unfold areaStep, vertex, cross.
  destruct (at_lt points i Hi) as (p & -> & ->).
  destruct (at_lt points ((i + 1) mod length points)%nat) as (q & -> & ->).
  { apply Nat.mod_upper_bound. lia. }
  cbn [bind default from_option]. unfold Datatypes.id. f_equal. ring.
Qed.

Lemma area_loop points l area :
  Forall (λ i, (i < length points)%nat) l →
  forM l (areaStep points) area
  = Ok (fold_left (λ sum i,
          sum + cross (vertex points i)
                      (vertex points ((i + 1) mod length points)%nat)) l area).
Proof.
  revert area. induction l as [|i l IH]; intros area Hl; [done|].
  apply Forall_cons in Hl as [Hi Hl]. cbn [forM fold_left].
  rewrite areaStep_cross by done. cbn [bind]. by apply IH.
Qed.

Lemma getPolygonArea_shoelace points :
  getPolygonArea points = Ok (Rabs (shoelace points) / 2).
Proof.
  unfold getPolygonArea, shoelace. rewrite area_loop; [done|].
  apply Forall_forall. intros i Hi%elem_of_seq. lia.
Qed.

Lemma toShape_area config fill contour shape :
  toShape config fill contour = Ok (Some shape) → 0 <= area shape.
Proof.
  unfold toShape. rewrite getPolygonArea_shoelace. cbn [bind].
  destruct (Rltb _ _); [done|].
  destruct (Smoothing.smoothPoints _ _) as [smoothed| |]; cbn [bind]; try done.
  destruct (Simplification.simplifyPath _ _ _) as [simplified| |]; cbn [bind];
    try done.
  destruct (CurveFitting.fitCurves _) as [curves| |]; cbn [bind]; try done.
  intros [= <-]. cbn [area].
  pose proof (Rabs_pos (shoelace (map toPoint (Tracing.points contour)))).
  lra.
Qed.

Lemma mapM_Forall {A B : Type} (P : B → Prop) (f : A → outcome B) l bs :
  (∀ a b, f a = Ok b → P b) → mapM f l = Ok bs → Forall P bs.
Proof.
  intros Hf. revert bs. induction l as [|a l IH]; intros bs; cbn [mapM].
  - by intros [= <-].
  - destruct (f a) as [b| |] eqn:Hb; cbn [bind]; try done.
    destruct (mapM f l) as [bs'| |]; cbn [bind]; try done.
    intros [= <-]. constructor; eauto.
Qed.

Lemma notNull_Forall {A : Type} (P : A → Prop) (l : list (option A)) :
  Forall (λ o, ∀ a, o = Some a → P a) l → Forall P (notNull l).
Proof.
  induction 1 as [|[a|] l Ha Hl IH]; cbn [notNull]; [done| |done].
  constructor; auto.
Qed.

Lemma insertShape_Forall (P : Shape → Prop) a sorted :
  P a → Forall P sorted → Forall P (insertShape a sorted).
Proof.
  intros Ha. induction 1 as [|b sorted Hb Hs IH]; cbn [insertShape].
  - by constructor.
  - destruct (Rltb _ _); repeat constructor; done.
Qed.

Lemma sortShapes_Forall (P : Shape → Prop) shapes :
  Forall P shapes → Forall P (sortShapes shapes).
Proof.
  unfold sortShapes. induction 1; cbn [foldr]; [done|].
  by apply insertShape_Forall.
Qed.

Lemma processLayer_areas config pixelData coverage layer allShapes shapes :
  Forall (λ s, 0 <= area s) allShapes →
  processLayer config pixelData coverage layer allShapes = Ok shapes →
  Forall (λ s, 0 <= area s) shapes.
Proof.
  intros Hall. unfold processLayer.
  destruct (Quantize.layerToMask _ _ _) as [mask| |]; cbn [bind]; try done.
  destruct (Dilate.dilateHybrid _ _ _) as [dilated| |]; cbn [bind]; try done.
  destruct (Tracing.traceContours _) as [contours| |]; cbn [bind]; try done.
  destruct (mapM _ _) as [found| |] eqn:Hmap; cbn [bind]; try done.
  intros [= <-]. apply Forall_app. split; [done|].
  apply notNull_Forall.
  eapply mapM_Forall; [|exact Hmap].
  intros c o Ho a ->. by eapply toShape_area.
Qed.
End Areas.

(** ** Claims on areas *)

(** C10.  [getPolygonArea] returns on every point sequence, its value is
    the absolute value of the shoelace sum, halved, and so is never
    negative; every shape the assembler returns carries such an area. *)
Theorem area_tag_is_nonnegative :
  (∀ points,
     ∃ a, Main.getPolygonArea points = Ok a ∧
          a = (Rabs (shoelace points) / 2)%R ∧ (0 <= a)%R) ∧
  (∀ random config pixelData shapes,
     Main.assemble random config pixelData = Ok shapes →
     Forall (λ s, (0 <= Main.area s)%R) shapes).
Proof.
  split.
  - intros points. exists (Rabs (shoelace points) / 2)%R.
    split; [apply getPolygonArea_shoelace|]. split; [done|].
    pose proof (Rabs_pos (shoelace points)). lra.
  - intros random config pixelData shapes. unfold Main.assemble.
    destruct (Quantize.quantizeImage _ _ _) as [layers| |]; cbn [bind];
      try done.
    destruct (forM _ _ _) as [allShapes| |] eqn:Hrun; cbn [bind]; try done.
    intros [= <-]. apply sortShapes_Forall.
    revert Hrun. apply forM_invariant; [|done].
    intros layer t t' _ Ht. by apply processLayer_areas.
Qed.

Definition onePixel : Quantize.PixelData :=
  Quantize.mkPixelData 1 1 [255; 0; 0; 255].

Definition keepAll : Main.Config :=
  {| Main.colorCount := 1; Main.minArea := 0%R; Main.smoothingIters := 1;
     Main.simplifyEpsilon := 1.0%R; Main.dilation := Dilate.defaultOptions |}.

Lemma assemble_onePixel :
  Main.assemble (λ _ _, 0%nat) keepAll onePixel
  = Ok [ {| Main.curves := [];
            Main.fillColor := Quantize.mkColor 255 0 0;
            Main.area := (Rabs (shoelace [Geometry.mkPoint 0 0]) / 2)%R;
            Main.isHole := false |} ].
Proof.
  unfold Main.assemble.
  let t := eval vm_compute in
      (Quantize.quantizeImage (λ _ _, 0%nat) onePixel (Main.colorCount keepAll)) in
  change (Quantize.quantizeImage (λ _ _, 0%nat) onePixel (Main.colorCount keepAll))
    with t.
  cbn [bind forM]. unfold Main.processLayer.
  let t := eval vm_compute in (Main.coverageMask onePixel) in
  change (Main.coverageMask onePixel) with t.
  cbn [Quantize.points Quantize.color Quantize.width Quantize.height onePixel].
  let t := eval vm_compute in
      (Quantize.layerToMask [Tracing.mkPixel 0 0] 1 1) in
  change (Quantize.layerToMask [Tracing.mkPixel 0 0] 1 1) with t.
  cbn [bind].
  let t := eval vm_compute in
      (Dilate.dilateHybrid [[1]] [[1]] (Main.dilation keepAll)) in
  change (Dilate.dilateHybrid [[1]] [[1]] (Main.dilation keepAll)) with t.
  cbn [bind].
  let t := eval vm_compute in (Tracing.traceContours [[1]]) in
  change (Tracing.traceContours [[1]]) with t.
  cbn [bind Geometry.mapM]. unfold Main.toShape.
  cbn [Tracing.points map Main.toPoint Tracing.ix Tracing.iy Tracing.isHole].
  rewrite getPolygonArea_shoelace. cbn [bind].
  rewrite Rltb_false.
  2:{ cbn [Main.minArea keepAll].
      match goal with |- ¬ (Rabs ?s / 2 < _)%R => pose proof (Rabs_pos s) end.
      lra. }
  cbn. reflexivity.
Qed.

Lemma area_tag_is_nonnegative_witness :
  Forall (λ s, (0 <= Main.area s)%R)
    [ {| Main.curves := [];
         Main.fillColor := Quantize.mkColor 255 0 0;
         Main.area := (Rabs (shoelace [Geometry.mkPoint 0 0]) / 2)%R;
         Main.isHole := false |} ].
Proof.
  apply (proj2 area_tag_is_nonnegative (λ _ _, 0%nat) keepAll onePixel).
  apply assemble_onePixel.
Defined.

(** ** Claims on the empty image *)

Section Transparent.
Import Quantize.

(** No pixel of the buffer is visible: every alpha sample is at most 20. *)
Definition fullyTransparent (pixelData : PixelData) : Prop :=
  ∀ i a, (i < width pixelData * height pixelData)%nat →
    pixels pixelData !! (i * 4 + 3)%nat = Some a → a ≤ 20.

Lemma validPixelIndices_transparent pixelData :
  fullyTransparent pixelData → validPixelIndices pixelData = [].
Proof.
  intros Htr. unfold validPixelIndices.
  assert (Hall : Forall (λ i, (i < width pixelData * height pixelData)%nat)
                   (seq 0 (width pixelData * height pixelData))).
  { apply Forall_forall. intros i Hi%elem_of_seq. lia. }
  induction Hall as [|i l Hi Hl IH]; [done|].
  rewrite filter_cons. destruct (decide _) as [Hvis|_]; [|done].
  unfold visible in Hvis.
  destruct (pixels pixelData !! (i * 4 + 3)%nat) as [a|] eqn:Ha; [|done].
  apply Z.ltb_lt in Hvis. specialize (Htr i a Hi Ha). lia.
Qed.
End Transparent.

(** C9.  When no pixel is visible, [quantizeImage] returns the empty layer
    list, whatever the random source and the colour count, and the assembler
    returns the empty shape list: neither throws. *)
Theorem transparent_image_yields_no_shape (random : nat → nat → nat)
    (pixelData : Quantize.PixelData) (colorCount : nat) (config : Main.Config) :
  fullyTransparent pixelData →
  Quantize.quantizeImage random pixelData colorCount = Ok [] ∧
  Main.assemble random config pixelData = Ok [] ∧
  Main.main random pixelData = Ok [].
Proof.
  intros Htr.
  assert (Hq : ∀ k, Quantize.quantizeImage random pixelData k = Ok []).
  { intros k. unfold Quantize.quantizeImage.
    by rewrite validPixelIndices_transparent. }
  split; [apply Hq|].
  assert (Ha : ∀ cfg, Main.assemble random cfg pixelData = Ok []).
  { intros cfg. unfold Main.assemble. by rewrite Hq. }
  split; [apply Ha|]. apply Ha.
Qed.

Lemma transparent_image_yields_no_shape_witness :
  Quantize.quantizeImage (λ _ _, 0%nat)
    (Quantize.mkPixelData 2 1 [255; 0; 0; 20; 0; 0; 255; 0]) 16 = Ok [] ∧
  Main.assemble (λ _ _, 0%nat) Main.CONFIG
    (Quantize.mkPixelData 2 1 [255; 0; 0; 20; 0; 0; 255; 0]) = Ok [] ∧
  Main.main (λ _ _, 0%nat)
    (Quantize.mkPixelData 2 1 [255; 0; 0; 20; 0; 0; 255; 0]) = Ok [].
Proof.
  apply (transparent_image_yields_no_shape (λ _ _, 0%nat)
           (Quantize.mkPixelData 2 1 [255; 0; 0; 20; 0; 0; 255; 0]) 16
           Main.CONFIG).
  intros i a Hi. cbn in Hi.
  destruct i as [|[|i]]; [| |lia]; cbn; intros [= <-]; lia.
Defined.

(** * Simplification *)

Section Farthest.
Import Geometry Simplification.
Open Scope R_scope.
Variables (a b : Point).

(** The search loop as a scan of the interior points [ps], the first of
    them at index [i]. *)
Fixpoint scanMax (ps : list Point) (i : nat) (st : R * nat) : R * nat :=
  match ps with
  | [] => st
  | p :: ps' =>
      let d := perpendicularDistance p a b in
      scanMax ps' (S i) (if Rltb (fst st) d then (d, i) else st)
  end.

Lemma farthest_loop points k i st :
  (i + k ≤ length points)%nat →
  forM (seq i k) (farthestStep points a b) st
  = Ok (scanMax (take k (drop i points)) i st).
Proof.
  revert i st. induction k as [|k IH]; intros i st Hik; [done|].
  destruct (at_lt points i) as (p & Hat & Hp); [lia|].
  rewrite (drop_S _ _ _ Hp). cbn [seq forM take scanMax].
  unfold farthestStep at 1. rewrite Hat. cbn [bind].
  destruct (Rltb (fst st) (perpendicularDistance p a b)); cbn [bind];
    apply IH; lia.
Qed.

Lemma farthest_scan mid :
  farthest (a :: mid ++ [b]) a b = Ok (scanMax mid 1 (0, 0%nat)).
Proof.
  unfold farthest. rewrite farthest_loop.
  - do 2 f_equal. cbn [drop length]. rewrite length_app. cbn [length].
    replace (S (length mid + 1) - 2)%nat with (length mid) by lia.
    rewrite drop_0. by rewrite take_app_length.
  - cbn [length]. rewrite length_app. cbn [length]. lia.
Qed.

(** The scan either leaves its state alone, all distances being at most the
    running maximum, or stops at the first point [x] whose distance is the
    largest. *)
Lemma scanMax_spec ps i m j :
  (scanMax ps i (m, j) = (m, j)
   ∧ Forall (λ p, perpendicularDistance p a b <= m) ps) ∨
  (∃ A x B, ps = A ++ x :: B
     ∧ scanMax ps i (m, j) = (perpendicularDistance x a b, (i + length A)%nat)
     ∧ m < perpendicularDistance x a b
     ∧ Forall (λ p, perpendicularDistance p a b < perpendicularDistance x a b) A
     ∧ Forall (λ p, perpendicularDistance p a b <= perpendicularDistance x a b) B).
Proof.
  revert i m j. induction ps as [|p ps IH]; intros i m j; cbn [scanMax fst].
  - left. by split.
  - destruct (Rltb m (perpendicularDistance p a b)) eqn:Hp.
    + apply Rltb_spec in Hp. right.
      destruct (IH (S i) (perpendicularDistance p a b) i)
        as [[Hr Hall] | (A & x & B & -> & Hr & Hx & HA & HB)].
      * exists [], p, ps. rewrite Hr. cbn [length app].
        rewrite Nat.add_0_r. repeat split; done.
      * exists (p :: A), x, B. rewrite Hr. cbn [length app].
        repeat split; try done.
        -- f_equal. lia.
        -- lra.
        -- by constructor.
    + apply Rltb_spec_false in Hp.
      destruct (IH (S i) m j)
        as [[Hr Hall] | (A & x & B & -> & Hr & Hx & HA & HB)].
      * left. split; [done|]. by constructor.
      * right. exists (p :: A), x, B. rewrite Hr. cbn [length app].
        repeat split; try done.
        -- f_equal. lia.
        -- constructor; [lra|done].
Qed.

Lemma scanMax_flat ps i m j :
  Forall (λ p, perpendicularDistance p a b <= m) ps →
  scanMax ps i (m, j) = (m, j).
Proof.
  intros Hall. revert i.
  induction Hall as [|p ps Hp Hps IH]; intros i; cbn [scanMax fst]; [done|].
  rewrite Rltb_false by lra. apply IH.
Qed.

(** The scan of a run whose first largest distance is at [x]. *)
Lemma scanMax_peak A x B i m j :
  m < perpendicularDistance x a b →
  Forall (λ p, perpendicularDistance p a b < perpendicularDistance x a b) A →
  Forall (λ p, perpendicularDistance p a b <= perpendicularDistance x a b) B →
  scanMax (A ++ x :: B) i (m, j)
  = (perpendicularDistance x a b, (i + length A)%nat).
Proof.
  intros Hm HA HB. revert i m j Hm.
  induction HA as [|p A Hp HA IH]; intros i m j Hm; cbn [app scanMax fst length].
  - rewrite Rltb_true by done. rewrite scanMax_flat by done.
    f_equal. lia.
  - destruct (Rltb m (perpendicularDistance p a b)).
    + rewrite IH by done. f_equal. lia.
    + rewrite IH by done. f_equal. lia.
Qed.
End Farthest.

Section Slices.
Context {A : Type}.
Implicit Types (a b x : A) (l : list A).

Lemma long_list l :
  (3 ≤ length l)%nat → ∃ a mid b, l = a :: mid ++ [b] ∧ mid ≠ [].
Proof.
  intros Hlen. destruct l as [|a l]; [simpl in Hlen; lia|].
  destruct (exists_last (l := l)) as (mid & b & ->).
  { intros ->. simpl in Hlen. lia. }
  exists a, mid, b. split; [done|]. intros ->. simpl in Hlen. lia.
Qed.

Lemma take_left_part a L x R b :
  take (1 + length L + 1) (a :: (L ++ x :: R) ++ [b]) = a :: L ++ [x].
Proof.
  cbn [Nat.add take]. f_equal. rewrite <- app_assoc.
  replace (length L + 1)%nat with (length (L ++ [x]))
    by (rewrite length_app; simpl; lia).
  replace (L ++ (x :: R) ++ [b]) with ((L ++ [x]) ++ R ++ [b])
    by (by rewrite <- app_assoc).
  by rewrite take_app_length.
Qed.

Lemma drop_right_part a L x R b :
  drop (1 + length L) (a :: (L ++ x :: R) ++ [b]) = x :: R ++ [b].
Proof.
  cbn [Nat.add drop]. rewrite <- app_assoc. by rewrite drop_app_length.
Qed.

Lemma take_all_but_last a L x :
  take (length (a :: L ++ [x]) - 1) (a :: L ++ [x]) = a :: L.
Proof.
  cbn [length]. rewrite length_app. cbn [length].
  replace (S (length L + 1) - 1)%nat with (S (length L)) by lia.
  cbn [take]. f_equal. by rewrite take_app_length.
Qed.

Lemma ends_inj a mid b a' mid' b' :
  a :: mid ++ [b] = a' :: mid' ++ [b'] → a = a' ∧ mid = mid' ∧ b = b'.
Proof.
  intros [= -> Heq]. apply app_inj_tail in Heq as [-> ->]. done.
Qed.
End Slices.

Section Idempotence.
Import Geometry Simplification.
Open Scope R_scope.
Variable tolerance : R.

Lemma simplifyPath_short fuel points :
  (length points < 3)%nat →
  simplifyPath (S fuel) points tolerance = Ok points.
Proof.
  intros Hlen. cbn [simplifyPath].
  by destruct (Nat.ltb_spec (length points) 3); [|lia].
Qed.

(** One call on a sequence of three points or more, in terms of the scan of
    its interior. *)
Lemma simplifyPath_long fuel a mid b :
  mid ≠ [] →
  simplifyPath (S fuel) (a :: mid ++ [b]) tolerance
  = let found := scanMax a b mid 1 (0, 0%nat) in
    if Rltb tolerance (fst found) then
      let* leftPath :=
        simplifyPath fuel (take (snd found + 1) (a :: mid ++ [b])) tolerance in
      let* rightPath :=
        simplifyPath fuel (drop (snd found) (a :: mid ++ [b])) tolerance in
      Ok (take (length leftPath - 1) leftPath ++ rightPath)
    else Ok [a; b].
Proof.
  intros Hmid. cbn [simplifyPath].
  destruct (Nat.ltb_spec (length (a :: mid ++ [b])) 3) as [Hlen|_].
  { destruct mid; [done|]. cbn [length] in Hlen. rewrite length_app in Hlen.
    cbn [length] in Hlen. lia. }
  assert (Hfirst : at_ (a :: mid ++ [b]) 0 = Ok a) by done.
  assert (Hlast : at_ (a :: mid ++ [b]) (length (a :: mid ++ [b]) - 1) = Ok b).
  { apply at_Ok. cbn [length]. rewrite length_app. cbn [length].
    replace (S (length mid + 1) - 1)%nat with (S (length mid)) by lia.
    cbn [lookup list_lookup]. by apply list_lookup_middle. }
  rewrite Hfirst, Hlast. cbn [bind]. rewrite farthest_scan. done.
Qed.

(** A negative tolerance with no interior point off the chord: the right
    half of the split is the whole sequence again, and no depth is enough. *)
Lemma simplifyPath_stuck fuel a mid b :
  mid ≠ [] → scanMax a b mid 1 (0, 0%nat) = (0, 0%nat) → tolerance < 0 →
  simplifyPath fuel (a :: mid ++ [b]) tolerance = OutOfFuel.
Proof.
  intros Hmid Hscan Htol. induction fuel as [|fuel IH]; [done|].
  rewrite simplifyPath_long by done. rewrite Hscan. cbn [fst snd].
  rewrite Rltb_true by done. rewrite drop_0, IH.
  cbn [Nat.add take]. rewrite take_0. destruct fuel; [done|].
  by rewrite simplifyPath_short by (cbn [length]; lia).
Qed.

(** What a call returns: the end points of its input around some of its
    interior points, and a sequence that the function maps to itself. *)
Lemma simplifyPath_fixpoint fuel points result :
  simplifyPath fuel points tolerance = Ok result →
  simplifyPath fuel result tolerance = Ok result ∧
  (∀ a mid b, points = a :: mid ++ [b] →
     ∃ mid', result = a :: mid' ++ [b] ∧ mid' ⊆ mid).
Proof.
  revert points result. induction fuel as [|fuel IH]; intros points result;
    [done|].
  destruct (Nat.lt_ge_cases (length points) 3) as [Hshort|Hlong].
  { rewrite simplifyPath_short by done. intros [= <-].
    split; [by apply simplifyPath_short|]. intros a mid b ->. by exists mid. }
  destruct (long_list points Hlong) as (a & mid & b & -> & Hmid).
  rewrite simplifyPath_long by done. cbv zeta.
  assert (Hends : ∀ mid', mid' ⊆ mid →
    simplifyPath (S fuel) [a; b] tolerance = Ok [a; b] ∧
    ∀ a0 mid0 b0, a :: mid ++ [b] = a0 :: mid0 ++ [b0] →
      ∃ mid1, [a; b] = a0 :: mid1 ++ [b0] ∧ mid1 ⊆ mid0).
  { intros mid' _. split; [done|].
    intros a0 mid0 b0 (<- & <- & <-)%ends_inj. exists []. split; [done|].
    apply list_subseteq_nil. }
  destruct (scanMax_spec a b mid 1 0 0%nat)
    as [[Hscan Hflat] | (A & x & B & -> & Hscan & Hx & HA & HB)];
    rewrite Hscan; cbn [fst snd].
  - (* no interior point is off the chord *)
    destruct (Rltb tolerance 0) eqn:Htol.
    + apply Rltb_spec in Htol. rewrite drop_0.
      rewrite (simplifyPath_stuck fuel a mid b) by done.
      by destruct (simplifyPath fuel (take _ _) tolerance).
    + intros [= <-]. by apply (Hends mid).
  - (* the farthest interior point is [x] *)
    destruct (Rltb tolerance (perpendicularDistance x a b)) eqn:Htol.
    2:{ intros [= <-]. by apply (Hends (A ++ x :: B)). }
    rewrite take_left_part, drop_right_part.
    destruct (simplifyPath fuel (a :: A ++ [x]) tolerance)
      as [leftPath| |] eqn:Hleft; cbn [bind]; try done.
    destruct (simplifyPath fuel (x :: B ++ [b]) tolerance)
      as [rightPath| |] eqn:Hright; cbn [bind]; try done.
    destruct (IH _ _ Hleft) as [HleftFix HleftShape].
    destruct (IH _ _ Hright) as [HrightFix HrightShape].
    destruct (HleftShape a A x eq_refl) as (A' & -> & HA').
    destruct (HrightShape x B b eq_refl) as (B' & -> & HB').
    rewrite take_all_but_last. intros Hresult.
    assert (Hshape : result = a :: (A' ++ x :: B') ++ [b]).
    { injection Hresult as <-. cbn [app]. by rewrite <- app_assoc. }
    clear Hresult. subst result.
    split.
    + rewrite simplifyPath_long by (by destruct A').
      cbv zeta. rewrite scanMax_peak.
      * cbn [fst snd]. rewrite Htol.
        rewrite take_left_part, drop_right_part.
        rewrite HleftFix, HrightFix. cbn [bind].
        rewrite take_all_but_last. cbn [app]. by rewrite <- app_assoc.
      * done.
      * rewrite Forall_forall in HA |- *. intros p Hp. apply HA. by apply HA'.
      * rewrite Forall_forall in HB |- *. intros p Hp. apply HB. by apply HB'.
    + intros a0 mid0 b0 (<- & <- & <-)%ends_inj.
      exists (A' ++ x :: B'). split; [done|].
      intros p [Hp|Hp]%elem_of_app; apply elem_of_app; [left; by apply HA'|].
      right. apply elem_of_cons in Hp as [->|Hp]; [apply list_elem_of_here|].
      apply list_elem_of_further. by apply HB'.
Qed.

(** A depth of one call per point, and one more, is enough when the
    tolerance is not negative. *)
Lemma simplifyPath_total fuel points :
  0 <= tolerance → (length points ≤ fuel)%nat →
  ∃ result, simplifyPath (S fuel) points tolerance = Ok result.
Proof.
  intros Htol. revert points. induction fuel as [|fuel IH]; intros points Hlen.
  { rewrite simplifyPath_short by lia. eauto. }
  destruct (Nat.lt_ge_cases (length points) 3) as [Hshort|Hlong].
  { rewrite simplifyPath_short by done. eauto. }
  destruct (long_list points Hlong) as (a & mid & b & -> & Hmid).
  rewrite simplifyPath_long by done. cbv zeta.
  destruct (scanMax_spec a b mid 1 0 0%nat)
    as [[Hscan Hflat] | (A & x & B & -> & Hscan & Hx & HA & HB)];
    rewrite Hscan; cbn [fst snd].
  - rewrite Rltb_false by lra. eauto.
  - destruct (Rltb tolerance _); [|eauto].
    rewrite take_left_part, drop_right_part.
    cbn [length] in Hlen. rewrite !length_app in Hlen. cbn [length] in Hlen.
    destruct (IH (a :: A ++ [x])) as [leftPath ->].
    { cbn [length]. rewrite length_app. cbn [length]. lia. }
    destruct (IH (x :: B ++ [b])) as [rightPath ->].
    { cbn [length]. rewrite length_app. cbn [length]. lia. }
    cbn [bind]. eauto.
Qed.

(** More depth does not change a result. *)
Lemma simplifyPath_fuel_mono fuel fuel' points result :
  (fuel ≤ fuel')%nat →
  simplifyPath fuel points tolerance = Ok result →
  simplifyPath fuel' points tolerance = Ok result.
Proof.
  revert fuel' points result.
  induction fuel as [|fuel IH]; intros fuel' points result Hle; [done|].
  destruct fuel' as [|fuel']; [lia|]. cbn [simplifyPath].
  destruct (_ <? 3)%nat; [done|].
  destruct (at_ points 0); cbn [bind]; try done.
  destruct (at_ points _); cbn [bind]; try done.
  destruct (farthest _ _ _) as [found| |]; cbn [bind]; try done.
  destruct (Rltb _ _); [|done].
  destruct (simplifyPath fuel (take _ _) _) as [leftPath| |] eqn:Hleft;
    cbn [bind]; try done.
  rewrite (IH fuel' _ _ ltac:(lia) Hleft). cbn [bind].
  destruct (simplifyPath fuel (drop _ _) _) as [rightPath| |] eqn:Hright;
    cbn [bind]; try done.
  by rewrite (IH fuel' _ _ ltac:(lia) Hright).
Qed.
End Idempotence.

(** ** Claims on simplification *)

(** C7.  [simplifyPath] is idempotent: for every point sequence and every
    tolerance, whenever it returns, it maps its result to itself; and for a
    tolerance that is not negative, which is every tolerance that is a
    distance, it returns on every point sequence, a recursion depth of one
    call per point and one more being enough. *)
Theorem simplifyPath_idempotent (points : list Geometry.Point) (tolerance : R) :
  (∀ fuel result,
     Simplification.simplifyPath fuel points tolerance = Ok result →
     Simplification.simplifyPath fuel result tolerance = Ok result) ∧
  ((0 <= tolerance)%R →
   ∃ result, ∀ fuel, (S (length points) ≤ fuel)%nat →
     Simplification.simplifyPath fuel points tolerance = Ok result ∧
     Simplification.simplifyPath fuel result tolerance = Ok result).
Proof.
  split.
  - intros fuel result Hrun. by apply simplifyPath_fixpoint in Hrun as [? _].
  - intros Htol.
    destruct (simplifyPath_total tolerance (length points) points Htol (le_n _))
      as [result Hrun].
    exists result. intros fuel Hfuel.
    pose proof (simplifyPath_fuel_mono tolerance _ fuel _ _ Hfuel Hrun) as Hrun'.
    split; [done|]. by apply simplifyPath_fixpoint in Hrun' as [? _].
Qed.

Lemma simplifyPath_idempotent_witness :
  ∃ result, ∀ fuel, (4 ≤ fuel)%nat →
    Simplification.simplifyPath fuel
      [Geometry.mkPoint 0 0; Geometry.mkPoint 1 0; Geometry.mkPoint 2 0] 1
    = Ok result ∧
    Simplification.simplifyPath fuel result 1 = Ok result.
Proof.
  apply (simplifyPath_idempotent
           [Geometry.mkPoint 0 0; Geometry.mkPoint 1 0; Geometry.mkPoint 2 0] 1).
  lra.
Defined.

Lemma collinear_distance :
  Simplification.perpendicularDistance (Geometry.mkPoint 1 0)
    (Geometry.mkPoint 0 0) (Geometry.mkPoint 2 0) = 0%R.
Proof.
  unfold Simplification.perpendicularDistance. cbn [Geometry.px Geometry.py].
  destruct (Geometry.Reqb _ 0); [done|].
  replace ((0 - 0) * 1 - (2 - 0) * 0 + 2 * 0 - 0 * 0)%R with 0%R by ring.
  rewrite Rabs_R0. unfold Rdiv. ring.
Qed.

(** A negative tolerance is no distance, and the recursion need not end
    for one: on three collinear points it calls itself on the whole
    sequence again, and [simplifyPath] returns at no depth. *)
Lemma simplifyPath_negative_tolerance_diverges :
  ¬ ∃ fuel result,
      Simplification.simplifyPath fuel
        [Geometry.mkPoint 0 0; Geometry.mkPoint 1 0; Geometry.mkPoint 2 0] (-1)
      = Ok result.
Proof.
  intros (fuel & result & Hrun).
  change [Geometry.mkPoint 0 0; Geometry.mkPoint 1 0; Geometry.mkPoint 2 0]
    with (Geometry.mkPoint 0 0 :: [Geometry.mkPoint 1 0] ++ [Geometry.mkPoint 2 0])
    in Hrun.
  rewrite simplifyPath_stuck in Hrun.
  - done.
  - done.
  - cbn [scanMax fst]. rewrite collinear_distance.
    by rewrite Rltb_false by lra.
  - lra.
Qed.

(** * Worked examples *)

(** A solid 3×3 block is traced as one contour of its eight border pixels,
    clockwise from the top-left corner; the walk closes on the start pixel,
    which is not repeated.  The shoelace area of that contour is 4. *)
Example solid_block_contour :
  Tracing.traceContours [[1; 1; 1]; [1; 1; 1]; [1; 1; 1]]
  = Ok [ {| Tracing.points :=
              [ Tracing.mkPixel 0 0; Tracing.mkPixel 1 0; Tracing.mkPixel 2 0;
                Tracing.mkPixel 2 1; Tracing.mkPixel 2 2; Tracing.mkPixel 1 2;
                Tracing.mkPixel 0 2; Tracing.mkPixel 0 1 ];
            Tracing.isHole := false |} ] ∧
  Tracing.traceWalk (S Tracing.MAX_LOOP) [[1; 1; 1]; [1; 1; 1]; [1; 1; 1]] 0 0 6
  = Ok ([ Tracing.mkPixel 0 0; Tracing.mkPixel 1 0; Tracing.mkPixel 2 0;
          Tracing.mkPixel 2 1; Tracing.mkPixel 2 2; Tracing.mkPixel 1 2;
          Tracing.mkPixel 0 2; Tracing.mkPixel 0 1 ], Tracing.Closed).
Proof. split; vm_compute; reflexivity. Qed.

Example solid_block_area :
  Main.getPolygonArea
    (map Main.toPoint
       [ Tracing.mkPixel 0 0; Tracing.mkPixel 1 0; Tracing.mkPixel 2 0;
         Tracing.mkPixel 2 1; Tracing.mkPixel 2 2; Tracing.mkPixel 1 2;
         Tracing.mkPixel 0 2; Tracing.mkPixel 0 1 ])
  = Ok 4%R.
Proof.
  rewrite getPolygonArea_shoelace. f_equal.
  unfold shoelace, cross, vertex. cbn.
  match goal with |- (Rabs ?s / 2)%R = _ => replace s with 8%R by ring end.
  rewrite Rabs_right by lra. lra.
Qed.

(** Dilating a single pixel: the unconditional pass fills its 3×3
    neighbourhood, the bounded pass then keeps what the coverage mask
    allows. *)
Example dilateHybrid_single_pixel :
  Dilate.dilateHybrid
    [[0; 0; 0]; [0; 1; 0]; [0; 0; 0]]
    [[1; 1; 0]; [1; 1; 0]; [0; 0; 0]]
    Dilate.defaultOptions
  = Ok [[1; 1; 0]; [1; 1; 0]; [0; 0; 0]].
Proof. vm_compute. reflexivity. Qed.

(** Shapes of areas 50, 200 and 10 are sorted to 200, 50, 10. *)
Example sortShapes_descending (fill : Quantize.Color) :
  map Main.area
    (Main.sortShapes
       [ Main.mkShape [] fill 50 false; Main.mkShape [] fill 200 false;
         Main.mkShape [] fill 10 false ])
  = [200%R; 50%R; 10%R].
Proof.
  unfold Main.sortShapes. cbn [foldr Main.insertShape Main.area].
  rewrite (Rltb_false 200 10) by lra. cbn [Main.insertShape Main.area].
  rewrite (Rltb_true 50 200) by lra. rewrite (Rltb_false 50 10) by lra.
  reflexivity.
Qed.

(** The test of the simplification step: a line with a bump at [(5, 2)],
    simplified with tolerance 1, keeps its end points and the bump. *)
Section SimplifyExample.
Import Geometry Simplification.
Open Scope R_scope.

Lemma scanMax_bounded a b ps i m j bound :
  m <= bound → Forall (λ p, perpendicularDistance p a b <= bound) ps →
  fst (scanMax a b ps i (m, j)) <= bound.
Proof.
  intros Hm Hps. revert i m j Hm.
  induction Hps as [|p ps Hp Hps IH]; intros i m j Hm; cbn [scanMax fst];
    [done|].
  destruct (Rltb m (perpendicularDistance p a b)); by apply IH.
Qed.

(** Distance to the chord from [(0, 0)] to [(10, 0)]. *)
Lemma distance_to_base x y :
  perpendicularDistance (mkPoint x y) (mkPoint 0 0) (mkPoint 10 0) = Rabs y.
Proof.
  unfold perpendicularDistance. cbn [px py].
  replace ((0 - 0) ^ 2 + (10 - 0) ^ 2) with (10 * 10) by ring.
  rewrite sqrt_square by lra.
  unfold Reqb. destruct (Req_dec_T 10 0) as [|_]; [lra|].
  replace ((0 - 0) * x - (10 - 0) * y + 10 * 0 - 0 * 0) with (- (10 * y))
    by ring.
  rewrite Rabs_Ropp, Rabs_mult, (Rabs_right 10) by lra. field.
Qed.

Lemma sqrt_29 : 5 <= sqrt 29.
Proof.
  rewrite <- (sqrt_square 5) by lra. apply sqrt_le_1; lra.
Qed.

(** A point is within 1 of a chord as long as 29 when the numerator of its
    distance is at most 5. *)
Lemma near_chord p a b :
  (py b - py a) ^ 2 + (px b - px a) ^ 2 = 29 →
  Rabs ((py b - py a) * px p - (px b - px a) * py p + px b * py a - py b * px a)
  <= 5 →
  perpendicularDistance p a b <= 1.
Proof.
  intros Hlen Hnum. unfold perpendicularDistance. cbv zeta. rewrite Hlen.
  pose proof sqrt_29 as Hs.
  destruct (Reqb (sqrt 29) 0); [lra|].
  apply (Rmult_le_reg_r (sqrt 29)); [lra|].
  unfold Rdiv. rewrite Rmult_assoc, Rinv_l by lra. lra.
Qed.

Example simplifyPath_bump :
  simplifyPath 3
    [ mkPoint 0 0; mkPoint 1 0.1; mkPoint 2 (-0.1); mkPoint 5 2;
      mkPoint 8 0.1; mkPoint 10 0 ] 1
  = Ok [mkPoint 0 0; mkPoint 5 2; mkPoint 10 0].
Proof.
  change [ mkPoint 0 0; mkPoint 1 0.1; mkPoint 2 (-0.1); mkPoint 5 2;
           mkPoint 8 0.1; mkPoint 10 0 ]
    with (mkPoint 0 0
          :: ([mkPoint 1 0.1; mkPoint 2 (-0.1)] ++ mkPoint 5 2 :: [mkPoint 8 0.1])
          ++ [mkPoint 10 0]).
  rewrite simplifyPath_long by done. cbv zeta.
  rewrite scanMax_peak; rewrite ?distance_to_base.
  2:{ rewrite Rabs_right; lra. }
  2:{ repeat constructor; rewrite !distance_to_base;
        rewrite (Rabs_right 2) by lra; apply Rabs_def1; lra. }
  2:{ apply Forall_singleton. rewrite !distance_to_base.
      rewrite (Rabs_right 2) by lra. apply Rabs_le; lra. }
  cbn [fst snd]. rewrite (Rabs_right 2) by lra. rewrite Rltb_true by lra.
  rewrite (take_left_part (mkPoint 0 0) [mkPoint 1 0.1; mkPoint 2 (-0.1)]).
  rewrite (drop_right_part (mkPoint 0 0) [mkPoint 1 0.1; mkPoint 2 (-0.1)]).
  (* the left half collapses to its end points *)
  rewrite (simplifyPath_long 1 1 (mkPoint 0 0)
             [mkPoint 1 0.1; mkPoint 2 (-0.1)] (mkPoint 5 2)) by done.
  cbv zeta. rewrite (Rltb_false 1).
  2:{ apply Rle_not_lt, scanMax_bounded; [lra|].
      repeat (apply List.Forall_cons; [apply near_chord; cbn [px py]|]);
        try apply List.Forall_nil; try (ring_simplify; lra); apply Rabs_le; lra. }
  (* and so does the right half *)
  rewrite (simplifyPath_long 1 1 (mkPoint 5 2) [mkPoint 8 0.1] (mkPoint 10 0))
    by done.
  cbv zeta. rewrite (Rltb_false 1).
  2:{ apply Rle_not_lt, scanMax_bounded; [lra|].
      repeat (apply List.Forall_cons; [apply near_chord; cbn [px py]|]);
        try apply List.Forall_nil; try (ring_simplify; lra); apply Rabs_le; lra. }
  reflexivity.
Qed.
End SimplifyExample.

(** * Further properties of the dilation *)

(** The cells [(y, x)] and [(y', x')] are at most [k] apart in each
    direction. *)
Definition within (k : nat) (y x y' x' : nat) : Prop :=
  - Z.of_nat k ≤ Z.of_nat y - Z.of_nat y' ≤ Z.of_nat k ∧
  - Z.of_nat k ≤ Z.of_nat x - Z.of_nat x' ≤ Z.of_nat k.

Section DilateExact.
Import Dilate.
Variables (h w : nat) (mask : Mask) (coverageMask : option Mask).
Hypothesis h_pos : (0 < h)%nat.
Hypothesis mask_rect : rect h w mask.
Hypothesis coverage_rect : ∀ cov, coverageMask = Some cov → rect h w cov.

(** Every one of the output was written for a foreground pixel next to
    it. *)
Definition justified (output : Mask) : Prop :=
  ∀ y x, pixelAt output y x = Some 1 →
    ∃ y' x', pixelAt mask y' x' = Some 1 ∧ within 1 y x y' x'.

Lemma offsets_spec d : d ∈ offsets ↔ -1 ≤ d ≤ 1.
Proof.
  unfold offsets. rewrite !elem_of_cons, elem_of_nil. lia.
Qed.

Lemma writeNeighbour_justified y x dy dx output output' :
  pixelAt mask y x = Some 1 → dy ∈ offsets → dx ∈ offsets →
  justified output →
  writeNeighbour h w coverageMask y x dy dx output = Ok output' →
  justified output'.
Proof.
  intros Hm Hdy%offsets_spec Hdx%offsets_spec Hj. unfold writeNeighbour.
  destruct (inRange _ h && inRange _ w) eqn:Hin; [|by intros [= <-]].
  apply andb_true_iff in Hin as [Hy%inRange_spec Hx%inRange_spec].
  assert (Hset : justified
            (setPixel output (Z.to_nat (Z.of_nat y + dy))
               (Z.to_nat (Z.of_nat x + dx)) 1)).
  { intros y0 x0.
    destruct (decide ((Z.to_nat (Z.of_nat y + dy), Z.to_nat (Z.of_nat x + dx))
                      = (y0, x0))) as [[= <- <-]|Hne].
    - intros _. exists y, x. split; [done|]. unfold within. lia.
    - rewrite pixelAt_setPixel_ne by done. apply Hj. }
  destruct coverageMask as [cov|].
  - destruct (cov !! _); [|discriminate].
    destruct (isOne _); by intros [= <-].
  - by intros [= <-].
Qed.

Lemma dilatePixel_justified y x output output' :
  justified output →
  dilatePixel mask h w coverageMask y x output = Ok output' →
  justified output'.
Proof.
  intros Hj. unfold dilatePixel.
  destruct (isOne (pixelAt mask y x)) eqn:Hone; [|by intros [= <-]].
  apply isOne_spec in Hone.
  apply forM_invariant; [|done]. intros dy t t' Hdy Ht.
  apply forM_invariant; [|done]. intros dx u u' Hdx Hu.
  by apply writeNeighbour_justified.
Qed.

Lemma dilateOnce_justified output :
  dilateOnce mask coverageMask = Ok output → justified output.
Proof.
  rewrite (dilateOnce_unfold h w) by done.
  apply forM_invariant.
  - intros y t t' _ Ht. apply forM_invariant; [|done].
    intros x u u' _ Hu. by apply dilatePixel_justified.
  - intros y x Hv.
    destruct (pixelAt_rect_lt h w _ _ _ _ (rect_newGrid h w 0) Hv).
    by rewrite pixelAt_newGrid in Hv.
Qed.

(** One pass, cell by cell: the output is a grid of zeros and ones of the
    dimensions of the input, with a one exactly where the coverage check
    passes and a foreground pixel of the input is at most one step away. *)
Lemma dilateOnce_exact :
  ∃ output, dilateOnce mask coverageMask = Ok output ∧ rect h w output ∧
    ∀ y x, (y < h)%nat → (x < w)%nat →
      (pixelAt output y x = Some 1 ∨ pixelAt output y x = Some 0) ∧
      (pixelAt output y x = Some 1 ↔
       covered coverageMask y x ∧
       ∃ y' x', pixelAt mask y' x' = Some 1 ∧ within 1 y x y' x').
Proof.
  destruct (dilateOnce_total h w mask coverageMask h_pos mask_rect coverage_rect)
    as (output & Hrun & Hrect & Hval).
  exists output. split; [done|]. split; [done|]. intros y x Hy Hx.
  destruct (pixelAt_rect_is_Some _ _ _ _ _ Hrect Hy Hx) as [v Hv].
  split.
  - destruct (Hval _ _ _ Hv) as [->|[-> _]]; eauto.
  - split.
    + intros Hone. split.
      * destruct (Hval _ _ _ Hone) as [?|[_ ?]]; [done|done].
      * by apply (dilateOnce_justified output).
    + intros (Hcov & y' & x' & Hm & Hnear). unfold within in Hnear.
      destruct (pixelAt_rect_lt _ _ _ _ _ _ mask_rect Hm) as [Hy' Hx'].
      pose proof (dilateOnce_lights h w mask coverageMask h_pos mask_rect
                    coverage_rect y' x'
                    (Z.of_nat y - Z.of_nat y') (Z.of_nat x - Z.of_nat x')
                    output Hrun Hm) as Hl.
      replace (Z.to_nat (Z.of_nat y' + (Z.of_nat y - Z.of_nat y'))) with y
        in Hl by lia.
      replace (Z.to_nat (Z.of_nat x' + (Z.of_nat x - Z.of_nat x'))) with x
        in Hl by lia.
      apply Hl; [apply offsets_spec; lia|apply offsets_spec; lia|lia|lia|done].
Qed.
End DilateExact.

(** X1.  An unconditional [dilateOnce] pass is the 3x3 dilation: on a mask
    of [h > 0] rows of [w] cells it returns a grid of the same dimensions
    that holds only zeros and ones, with a one at [(y, x)] exactly when some
    cell of the input at most one step away, in each direction, holds 1. *)
Theorem dilateOnce_unconditional_is_3x3_dilation (h w : nat) (M : Mask) :
  (0 < h)%nat → rect h w M →
  ∃ out, Dilate.dilateOnce M None = Ok out ∧ rect h w out ∧
    ∀ y x, (y < h)%nat → (x < w)%nat →
      (pixelAt out y x = Some 1 ∨ pixelAt out y x = Some 0) ∧
      (pixelAt out y x = Some 1 ↔
       ∃ y' x', pixelAt M y' x' = Some 1 ∧ within 1 y x y' x').
Proof.
  intros Hh HM.
  destruct (dilateOnce_exact h w M None Hh HM (none_coverage_rect h w))
    as (out & Hrun & Hrect & Hcells).
  exists out. split; [done|]. split; [done|]. intros y x Hy Hx.
  destruct (Hcells y x Hy Hx) as [Hbin Hiff]. split; [done|].
  rewrite Hiff. simpl. tauto.
Qed.

Lemma dilateOnce_unconditional_is_3x3_dilation_witness :
  ∃ out, Dilate.dilateOnce [[0; 0; 0]; [0; 0; 1]] None = Ok out ∧
    rect 2 3 out ∧
    ∀ y x, (y < 2)%nat → (x < 3)%nat →
      (pixelAt out y x = Some 1 ∨ pixelAt out y x = Some 0) ∧
      (pixelAt out y x = Some 1 ↔
       ∃ y' x', pixelAt [[0; 0; 0]; [0; 0; 1]] y' x' = Some 1
                ∧ within 1 y x y' x').
Proof.
  apply (dilateOnce_unconditional_is_3x3_dilation 2 3 [[0; 0; 0]; [0; 0; 1]]).
  - lia.
  - split; [reflexivity | repeat constructor].
Defined.

(** X2.  A coverage-bounded pass is the unconditional pass cut to the
    coverage mask: on masks of equal dimensions, [dilateOnce(M, C)] holds a
    one at [(y, x)] exactly when [C[y][x] === 1] and [dilateOnce(M, null)]
    holds a one there, and a zero everywhere else. *)
Theorem dilateOnce_bounded_is_unconditional_cut_to_coverage
    (h w : nat) (M C : Mask) :
  (0 < h)%nat → rect h w M → rect h w C →
  ∃ free bounded,
    Dilate.dilateOnce M None = Ok free ∧
    Dilate.dilateOnce M (Some C) = Ok bounded ∧
    rect h w bounded ∧
    ∀ y x, (y < h)%nat → (x < w)%nat →
      (pixelAt bounded y x = Some 1 ∨ pixelAt bounded y x = Some 0) ∧
      (pixelAt bounded y x = Some 1 ↔
       pixelAt C y x = Some 1 ∧ pixelAt free y x = Some 1).
Proof.
  intros Hh HM HC.
  destruct (dilateOnce_exact h w M None Hh HM (none_coverage_rect h w))
    as (free & Hfree & _ & Hf).
  destruct (dilateOnce_exact h w M (Some C) Hh HM (some_coverage_rect h w C HC))
    as (bounded & Hbounded & Hrect & Hb).
  exists free, bounded. repeat (split; [done|]). intros y x Hy Hx.
  destruct (Hb y x Hy Hx) as [Hbin Hiff]. split; [done|].
  rewrite Hiff. destruct (Hf y x Hy Hx) as [_ ->]. simpl. tauto.
Qed.

Lemma dilateOnce_bounded_is_unconditional_cut_to_coverage_witness :
  ∃ free bounded,
    Dilate.dilateOnce [[0; 1]; [0; 0]] None = Ok free ∧
    Dilate.dilateOnce [[0; 1]; [0; 0]] (Some [[1; 0]; [1; 0]]) = Ok bounded ∧
    rect 2 2 bounded ∧
    ∀ y x, (y < 2)%nat → (x < 2)%nat →
      (pixelAt bounded y x = Some 1 ∨ pixelAt bounded y x = Some 0) ∧
      (pixelAt bounded y x = Some 1 ↔
       pixelAt [[1; 0]; [1; 0]] y x = Some 1 ∧ pixelAt free y x = Some 1).
Proof.
  apply (dilateOnce_bounded_is_unconditional_cut_to_coverage 2 2
           [[0; 1]; [0; 0]] [[1; 0]; [1; 0]]).
  - lia.
  - split; [reflexivity | repeat constructor].
  - split; [reflexivity | repeat constructor].
Defined.

Section Radius.
Import Dilate.
Variables (h w : nat).
Hypothesis h_pos : (0 < h)%nat.

(** The cell one step from [y'] towards [y]. *)
Definition towards (y y' : nat) : nat :=
  if (y' <? y)%nat then S y' else if (y <? y')%nat then pred y' else y'.

Lemma unconditional_passes_radius k : ∀ mask,
  rect h w mask →
  ∃ out, repeatM k (λ r, dilateOnce r None) mask = Ok out ∧ rect h w out ∧
    ∀ y x, (y < h)%nat → (x < w)%nat →
      (pixelAt out y x = Some 1 ↔
       ∃ y' x', pixelAt mask y' x' = Some 1 ∧ within k y x y' x').
Proof.
  induction k as [|k IH]; intros mask Hrect.
  - exists mask. split; [done|]. split; [done|]. intros y x Hy Hx. split.
    + intros Hone. exists y, x. split; [done|]. unfold within. lia.
    + intros (y' & x' & Hone & Hnear). unfold within in Hnear.
      by replace y with y' by lia; replace x with x' by lia.
  - destruct (dilateOnce_exact h w mask None h_pos Hrect (none_coverage_rect h w))
      as (mid & Hmid & Hmrect & Hm).
    destruct (IH mid Hmrect) as (out & Hout & Horect & Ho).
    exists out. cbn [repeatM]. rewrite Hmid. cbn [bind].
    split; [done|]. split; [done|]. intros y x Hy Hx.
    rewrite (Ho y x Hy Hx). split.
    + intros (y1 & x1 & Hone & Hnear).
      destruct (pixelAt_rect_lt _ _ _ _ _ _ Hmrect Hone) as [Hy1 Hx1].
      apply (Hm y1 x1 Hy1 Hx1) in Hone as (_ & y' & x' & Hsrc & Hstep).
      exists y', x'. split; [done|]. unfold within in *. lia.
    + intros (y' & x' & Hsrc & Hnear).
      destruct (pixelAt_rect_lt _ _ _ _ _ _ Hrect Hsrc) as [Hy' Hx'].
      exists (towards y y'), (towards x x').
      assert (Hty : (towards y y' < h)%nat ∧ within 1 (towards y y') 0 y' 0
                    ∧ - Z.of_nat k ≤ Z.of_nat y - Z.of_nat (towards y y')
                      ≤ Z.of_nat k).
      { unfold towards, within in *.
        destruct (Nat.ltb_spec y' y); [lia|].
        destruct (Nat.ltb_spec y y'); lia. }
      assert (Htx : (towards x x' < w)%nat ∧ within 1 0 (towards x x') 0 x'
                    ∧ - Z.of_nat k ≤ Z.of_nat x - Z.of_nat (towards x x')
                      ≤ Z.of_nat k).
      { unfold towards, within in *.
        destruct (Nat.ltb_spec x' x); [lia|].
        destruct (Nat.ltb_spec x x'); lia. }
      destruct Hty as (Hty & Hy1 & Hyk), Htx as (Htx & Hx1 & Hxk).
      split; [|unfold within; lia].
      apply (Hm _ _ Hty Htx). split; [done|].
      exists y', x'. split; [done|]. unfold within in *. lia.
Qed.
End Radius.

(** X3.  Unconditional passes compose: [dilateHybrid] with [k]
    unconditional passes and no smart pass lights exactly the cells at most
    [k] steps, in each direction, from a foreground pixel of its input,
    whatever the coverage mask. *)
Theorem dilateHybrid_unconditional_passes_reach_k_steps
    (h w k : nat) (M C : Mask) :
  (0 < h)%nat → rect h w M →
  ∃ out,
    Dilate.dilateHybrid M C
      {| Dilate.unconditionalPasses := Some k;
         Dilate.smartPasses := Some 0%nat |} = Ok out ∧
    rect h w out ∧
    ∀ y x, (y < h)%nat → (x < w)%nat →
      (pixelAt out y x = Some 1 ↔
       ∃ y' x', pixelAt M y' x' = Some 1 ∧ within k y x y' x').
Proof.
  intros Hh HM.
  destruct (unconditional_passes_radius h w Hh k M HM) as (out & Hrun & Hrest).
  exists out. split; [|done].
  unfold Dilate.dilateHybrid. cbn [Dilate.unconditionalPasses
    Dilate.smartPasses default from_option]. unfold Datatypes.id.
  rewrite Hrun. reflexivity.
Qed.

Lemma dilateHybrid_unconditional_passes_reach_k_steps_witness :
  ∃ out,
    Dilate.dilateHybrid [[1; 0; 0; 0]] [[0; 0; 0; 0]]
      {| Dilate.unconditionalPasses := Some 2%nat;
         Dilate.smartPasses := Some 0%nat |} = Ok out ∧
    rect 1 4 out ∧
    ∀ y x, (y < 1)%nat → (x < 4)%nat →
      (pixelAt out y x = Some 1 ↔
       ∃ y' x', pixelAt [[1; 0; 0; 0]] y' x' = Some 1 ∧ within 2 y x y' x').
Proof.
  apply (dilateHybrid_unconditional_passes_reach_k_steps 1 4 2
           [[1; 0; 0; 0]] [[0; 0; 0; 0]]).
  - lia.
  - split; [reflexivity | repeat constructor].
Defined.

(** X4.  The edge cases of [dilateHybrid]: with no pass of either kind it
    returns its input mask as it is, of any shape; on an empty mask every
    pass throws (reading [mask[0].length]), so [dilateHybrid] throws as soon
    as one pass is asked for, the default options included. *)
Theorem dilateHybrid_without_passes_and_on_empty_mask
    (M C : Mask) (options : Dilate.Options) :
  let passes :=
    (default 1 (Dilate.unconditionalPasses options)
     + default 1 (Dilate.smartPasses options))%nat in
  (passes = 0%nat → Dilate.dilateHybrid M C options = Ok M) ∧
  ((0 < passes)%nat → Dilate.dilateHybrid [] C options = TypeError) ∧
  Dilate.dilateHybrid [] C Dilate.defaultOptions = TypeError ∧
  Dilate.dilateMask M 0 C = Ok M.
Proof.
  unfold Dilate.dilateHybrid, Dilate.dilateMask, Dilate.dilateHybrid.
  destruct options as [[u|] [s|]]; cbn; repeat split; try done; try lia.
  - intros Hp. assert (u = 0%nat) as -> by lia.
    assert (s = 0%nat) as -> by lia. done.
  - intros Hp. destruct u as [|u]; [|done]. cbn.
    destruct s as [|s]; [lia|done].
  - intros Hp. destruct u as [|u]; done.
Qed.

Lemma dilateHybrid_without_passes_and_on_empty_mask_witness :
  Dilate.dilateHybrid [[1; 2]; [3]] []
    {| Dilate.unconditionalPasses := Some 0%nat;
       Dilate.smartPasses := Some 0%nat |} = Ok [[1; 2]; [3]] ∧
  Dilate.dilateHybrid [] []
    {| Dilate.unconditionalPasses := Some 0%nat;
       Dilate.smartPasses := None |} = TypeError.
Proof.
  split.
  - apply (proj1 (dilateHybrid_without_passes_and_on_empty_mask
                    [[1; 2]; [3]] []
                    {| Dilate.unconditionalPasses := Some 0%nat;
                       Dilate.smartPasses := Some 0%nat |})).
    reflexivity.
  - apply (proj1 (proj2 (dilateHybrid_without_passes_and_on_empty_mask
                    [] []
                    {| Dilate.unconditionalPasses := Some 0%nat;
                       Dilate.smartPasses := None |}))).
    cbn. lia.
Defined.

(** * Further properties of the tracer *)

(** Consecutive points of a contour are different pixels, one step apart. *)
Definition linked (l : list Tracing.Pixel) : Prop :=
  ∀ i p q, l !! i = Some p → l !! S i = Some q →
    p ≠ q ∧ -1 ≤ Tracing.ix q - Tracing.ix p ≤ 1
          ∧ -1 ≤ Tracing.iy q - Tracing.iy p ≤ 1.

Section WalkShape.
Import Tracing.
Variables (mask : Mask) (startX startY : Z).

Lemma foregroundAt_true nx ny :
  foregroundAt mask nx ny = Ok true → foregroundPixel mask nx ny.
Proof.
  unfold foregroundAt, foregroundPixel.
  destruct ((0 <=? nx) && (0 <=? ny)) eqn:Hpos; [|done].
  apply andb_true_iff in Hpos as [Hx%Z.leb_le Hy%Z.leb_le].
  destruct (mask !! 0%nat) as [row0|]; [|done].
  destruct (_ && _); [|done].
  intros [= Hone%isOne_spec]. done.
Qed.

Lemma linked_snoc l p q :
  linked l → last l = Some p →
  p ≠ q ∧ -1 ≤ ix q - ix p ≤ 1 ∧ -1 ≤ iy q - iy p ≤ 1 →
  linked (l ++ [q]).
Proof.
  intros Hl Hlast Hpq i a b Ha Hb.
  rewrite last_lookup in Hlast.
  destruct (decide (S i < length l)%nat) as [Hlt|Hge].
  - rewrite lookup_app_l in Ha by lia. rewrite lookup_app_l in Hb by lia.
    by apply (Hl i).
  - apply lookup_lt_Some in Hb as Hi. rewrite length_app in Hi. simpl in Hi.
    assert (S i = length l) as Hi' by lia.
    rewrite lookup_app_l in Ha by lia.
    rewrite lookup_app_r in Hb by lia.
    replace (S i - length l)%nat with 0%nat in Hb by lia.
    injection Hb as <-.
    replace (pred (length l)) with i in Hlast by lia.
    by replace a with p by congruence.
Qed.

(** What the loop keeps: the contour is a linked walk over foreground
    pixels that ends at the current pixel, one point longer than the number
    of iterations that went on. *)
Definition stepping (st : TraceState) : Prop :=
  Forall (λ p, foregroundPixel mask (ix p) (iy p)) (contour st) ∧
  linked (contour st) ∧
  last (contour st) = Some (mkPixel (cx st) (cy st)) ∧
  length (contour st) = S (loopCount st) ∧
  (loopCount st ≤ MAX_LOOP)%nat.

Lemma stepping_init dir :
  foregroundPixel mask startX startY →
  stepping (traceInit startX startY dir).
Proof.
  intros Hfg. unfold stepping, traceInit. cbn.
  split; [by apply Forall_singleton|]. split; [by intros [|i] p q|].
  repeat split; lia.
Qed.

Lemma stepping_step st st' :
  stepping st → traceStep mask startX startY st = Ok (inl st') → stepping st'.
Proof.
  intros (Hfg & Hlink & Hlast & Hlen & _) Hstep.
  destruct (traceStep_counts _ _ _ _ _ Hstep) as [Hcount Hcap].
  revert Hstep. unfold traceStep.
  destruct (_ <? _)%nat; [done|].
  destruct (scanNeighbours _ _ _ _ _) as [[[[nx ny] bt]|]| |] eqn:Hscan;
    simpl; try done.
  destruct ((nx =? startX) && (ny =? startY)); [done|].
  apply scanNeighbours_found in Hscan
    as (dx & dy & Hdx & Hdy & Hne & -> & -> & Hfound%foregroundAt_true).
  intros [= <-]. unfold stepping. cbn [contour cx cy loopCount] in *.
  split; [|split; [|split; [|split]]].
  - apply Forall_app. split; [done|]. by apply Forall_singleton.
  - apply (linked_snoc _ (mkPixel (cx st) (cy st))); [done|done|].
    cbn [ix iy]. split; [|lia].
    intros [= Hx Hy]. apply Hne. f_equal; lia.
  - apply last_snoc.
  - rewrite length_app. simpl. lia.
  - lia.
Qed.

Lemma traceWalk_stepping fuel dir c e :
  foregroundPixel mask startX startY →
  traceWalk fuel mask startX startY dir = Ok (c, e) →
  Forall (λ p, foregroundPixel mask (ix p) (iy p)) c ∧ linked c ∧
  (1 ≤ length c ≤ S MAX_LOOP)%nat.
Proof.
  unfold traceWalk. intros Hfg Hrun.
  apply (while_invariant _ stepping) in Hrun
    as (st & (Hall & Hlink & _ & Hlen & Hcap) & Hexit).
  - apply traceStep_exit in Hexit as ->. split; [done|]. split; [done|]. lia.
  - intros t t'. apply stepping_step.
  - by apply stepping_init.
Qed.
End WalkShape.

Lemma unvisited_newGrid h w y x :
  Tracing.unvisited (newGrid h w false) y x = true.
Proof.
  unfold Tracing.unvisited, newGrid.
  destruct (replicate h (replicate w false) !! y) as [row|] eqn:Hrow; [|done].
  apply lookup_replicate in Hrow as [-> _].
  destruct (replicate w false !! x) as [v|] eqn:Hv; [|done].
  by apply lookup_replicate in Hv as [-> _].
Qed.

Section ScanShape.
Import Tracing.
Variable mask : Mask.

(** The two ways through the body of the scan: the pixel is skipped, or it
    is a foreground pixel not visited yet, and then its walk is appended as a
    contour and its region is flood filled. *)
Lemma scanPixel_cases y x visited contours st' :
  scanPixel mask y x (visited, contours) = Ok st' →
  (isOne (pixelAt mask y x) && unvisited visited y x = false
   ∧ st' = (visited, contours)) ∨
  (pixelAt mask y x = Some 1 ∧ unvisited visited y x = true ∧
   ∃ rest e visited',
     traceWalk (S MAX_LOOP) mask (Z.of_nat x) (Z.of_nat y) 6
     = Ok (mkPixel (Z.of_nat x) (Z.of_nat y) :: rest, e)
     ∧ floodFillVisited mask x y visited = Ok visited'
     ∧ st' = (visited',
              contours ++ [ {| points := mkPixel (Z.of_nat x) (Z.of_nat y) :: rest;
                               isHole := false |} ])).
Proof.
  unfold scanPixel.
  destruct (isOne (pixelAt mask y x) && unvisited visited y x) eqn:Hfg;
    [|intros [= <-]; by left].
  apply andb_true_iff in Hfg as [Hone%isOne_spec Hun].
  unfold mooreNeighborTrace.
  destruct (traceWalk _ _ _ _ _) as [[pts e]| |] eqn:Hwalk; cbn [bind fst];
    try done.
  destruct (floodFillVisited _ _ _ _) as [visited'| |]; cbn [bind]; try done.
  destruct (traceWalk_contour _ _ _ _ _ _ _ Hwalk) as (rest & -> & _).
  intros [= <-]. right. cbn. eauto 10.
Qed.

Definition noHoles (st : list (list bool) * list Contour) : Prop :=
  Forall (λ c, isHole c = false) (snd st).

Lemma scanPixel_noHoles y x st st' :
  noHoles st → scanPixel mask y x st = Ok st' → noHoles st'.
Proof.
  destruct st as [visited contours]. intros Hall Hscan.
  apply scanPixel_cases in Hscan
    as [[_ ->]|(_ & _ & rest & e & visited' & _ & _ & ->)]; [done|].
  unfold noHoles in *. cbn [snd] in *.
  apply Forall_app. split; [done|]. by apply Forall_singleton.
Qed.

Lemma traceContours_noHoles contours c :
  traceContours mask = Ok contours → c ∈ contours → isHole c = false.
Proof.
  unfold traceContours. destruct (mask !! 0%nat) as [row0|]; [|done].
  destruct (forM _ _ _) as [st| |] eqn:Hrun; cbn [bind]; try done.
  intros [= <-] Hin.
  assert (Hst : noHoles st).
  { revert Hrun. apply forM_invariant; [|by apply Forall_nil].
    intros y t t' _ Ht. apply forM_invariant; [|done].
    intros x u u' _. apply scanPixel_noHoles. }
  unfold noHoles in Hst. rewrite Forall_forall in Hst. by apply Hst.
Qed.

(** As long as no contour was found, nothing was visited. *)
Definition fresh (st : list (list bool) * list Contour) : Prop :=
  snd st = [] → ∀ y x, unvisited (fst st) y x = true.

Definition found (st : list (list bool) * list Contour) : Prop :=
  snd st ≠ [].

Lemma scanPixel_fresh y x st st' :
  fresh st → scanPixel mask y x st = Ok st' → fresh st'.
Proof.
  destruct st as [visited contours]. intros Hfresh Hscan.
  apply scanPixel_cases in Hscan
    as [[_ ->]|(_ & _ & rest & e & visited' & _ & _ & ->)]; [done|].
  intros Hnil. cbn [snd] in Hnil. by apply app_nil in Hnil as [_ ?].
Qed.

Lemma scanPixel_found y x st st' :
  found st → scanPixel mask y x st = Ok st' → found st'.
Proof.
  destruct st as [visited contours]. intros Hfound Hscan.
  apply scanPixel_cases in Hscan
    as [[_ ->]|(_ & _ & rest & e & visited' & _ & _ & ->)]; [done|].
  intros Hnil. cbn [snd] in Hnil. by apply app_nil in Hnil as [_ ?].
Qed.

Lemma scanPixel_finds y x st st' :
  pixelAt mask y x = Some 1 →
  fresh st → scanPixel mask y x st = Ok st' → found st'.
Proof.
  destruct st as [visited contours]. intros Hone Hfresh Hscan.
  apply scanPixel_cases in Hscan
    as [[Hskip ->]|(_ & _ & rest & e & visited' & _ & _ & ->)].
  - intros Hnil. cbn [snd] in Hnil. rewrite (Hfresh Hnil), Hone in Hskip.
    done.
  - intros Hnil. cbn [snd] in Hnil. by apply app_nil in Hnil as [_ ?].
Qed.

Lemma scanPixel_background y x st :
  pixelAt mask y x ≠ Some 1 → scanPixel mask y x st = Ok st.
Proof.
  destruct st as [visited contours]. intros Hzero. unfold scanPixel.
  destruct (isOne (pixelAt mask y x)) eqn:Hone; [|done].
  by apply isOne_spec in Hone.
Qed.
End ScanShape.

(** X5.  A contour is a walk over foreground pixels: every point of every
    contour that [traceContours] returns is a foreground pixel of the mask,
    and any two consecutive points are different pixels at most one step
    apart in each direction. *)
Theorem contour_is_a_walk_over_foreground_pixels (mask : Mask)
    (contours : list Tracing.Contour) (c : Tracing.Contour) :
  Tracing.traceContours mask = Ok contours → c ∈ contours →
  Forall (λ p, foregroundPixel mask (Tracing.ix p) (Tracing.iy p))
    (Tracing.points c) ∧
  ∀ i p q,
    Tracing.points c !! i = Some p → Tracing.points c !! S i = Some q →
    p ≠ q ∧ -1 ≤ Tracing.ix q - Tracing.ix p ≤ 1
          ∧ -1 ≤ Tracing.iy q - Tracing.iy p ≤ 1.
Proof.
  intros Hrun Hin.
  destruct (traceContours_traced mask contours c Hrun Hin)
    as (x & y & e & Hone & Hwalk).
  apply traceWalk_stepping in Hwalk as (Hall & Hlink & _); [done|].
  unfold foregroundPixel. rewrite !Nat2Z.id. repeat split; [lia|lia|done].
Qed.

Lemma contour_is_a_walk_over_foreground_pixels_witness :
  Forall (λ p, foregroundPixel [[1; 1]; [0; 1]] (Tracing.ix p) (Tracing.iy p))
    [Tracing.mkPixel 0 0; Tracing.mkPixel 1 0; Tracing.mkPixel 1 1] ∧
  ∀ i p q,
    [Tracing.mkPixel 0 0; Tracing.mkPixel 1 0; Tracing.mkPixel 1 1] !! i
    = Some p →
    [Tracing.mkPixel 0 0; Tracing.mkPixel 1 0; Tracing.mkPixel 1 1] !! S i
    = Some q →
    p ≠ q ∧ -1 ≤ Tracing.ix q - Tracing.ix p ≤ 1
          ∧ -1 ≤ Tracing.iy q - Tracing.iy p ≤ 1.
Proof.
  apply (contour_is_a_walk_over_foreground_pixels [[1; 1]; [0; 1]]
           [ {| Tracing.points :=
                  [Tracing.mkPixel 0 0; Tracing.mkPixel 1 0; Tracing.mkPixel 1 1];
                Tracing.isHole := false |} ]
           {| Tracing.points :=
                [Tracing.mkPixel 0 0; Tracing.mkPixel 1 0; Tracing.mkPixel 1 1];
              Tracing.isHole := false |}).
  - vm_compute. reflexivity.
  - apply list_elem_of_here.
Defined.

(** X6.  Every contour that [traceContours] returns starts at a foreground
    pixel, holds at least that point and at most [MAX_LOOP + 1] points (the
    cap of the walk cuts a longer boundary short), and is never marked as a
    hole. *)
Theorem contour_length_is_capped_and_never_a_hole (mask : Mask)
    (contours : list Tracing.Contour) (c : Tracing.Contour) :
  Tracing.traceContours mask = Ok contours → c ∈ contours →
  (∃ x y rest,
     pixelAt mask y x = Some 1 ∧
     Tracing.points c
     = Tracing.mkPixel (Z.of_nat x) (Z.of_nat y) :: rest) ∧
  (1 ≤ length (Tracing.points c) ≤ S Tracing.MAX_LOOP)%nat ∧
  Tracing.isHole c = false.
Proof.
  intros Hrun Hin.
  destruct (traceContours_traced mask contours c Hrun Hin)
    as (x & y & e & Hone & Hwalk).
  split; [|split].
  - destruct (traceWalk_contour _ _ _ _ _ _ _ Hwalk) as (rest & Hc & _).
    eauto.
  - apply traceWalk_stepping in Hwalk as (_ & _ & Hlen); [done|].
    unfold foregroundPixel. rewrite !Nat2Z.id. repeat split; [lia|lia|done].
  - by apply (traceContours_noHoles mask contours).
Qed.

Lemma contour_length_is_capped_and_never_a_hole_witness :
  (∃ x y rest,
     pixelAt [[0; 1]] y x = Some 1 ∧
     [Tracing.mkPixel 1 0]
     = Tracing.mkPixel (Z.of_nat x) (Z.of_nat y) :: rest) ∧
  (1 ≤ length [Tracing.mkPixel 1 0] ≤ S Tracing.MAX_LOOP)%nat ∧
  false = false.
Proof.
  apply (contour_length_is_capped_and_never_a_hole [[0; 1]]
           [ {| Tracing.points := [Tracing.mkPixel 1 0];
                Tracing.isHole := false |} ]
           {| Tracing.points := [Tracing.mkPixel 1 0];
              Tracing.isHole := false |}).
  - vm_compute. reflexivity.
  - apply list_elem_of_here.
Defined.

(** X7.  [traceContours] throws on a mask without rows; on a mask of
    [h > 0] rows of [w] cells it returns, and the list of contours is empty
    exactly when the mask has no foreground pixel. *)
Theorem traceContours_is_empty_only_without_foreground :
  Tracing.traceContours [] = TypeError ∧
  ∀ (h w : nat) (mask : Mask),
    (0 < h)%nat → rect h w mask →
    ∃ contours, Tracing.traceContours mask = Ok contours ∧
      (contours = [] ↔ ∀ y x, pixelAt mask y x ≠ Some 1).
Proof.
  split; [done|]. intros h w mask Hh Hrect.
  destruct (lookup_lt_is_Some_2 mask 0%nat) as [row0 Hrow0];
    [destruct Hrect; lia|].
  destruct (traceContours_returns mask row0 Hrow0) as [contours Hrun].
  exists contours. split; [done|].
  revert Hrun. unfold Tracing.traceContours. rewrite Hrow0.
  rewrite (rect_row _ _ _ _ _ Hrect Hrow0).
  destruct Hrect as [Hlen Hrows]. rewrite Hlen.
  destruct (forM _ _ _) as [st| |] eqn:Hrun; cbn [bind]; try done.
  intros [= <-]. split.
  - intros Hnil y x Hone.
    destruct (pixelAt_rect_lt h w mask y x 1) as [Hy Hx]; [done|done|].
    assert (Hfound : found st); [|done].
    revert Hrun. apply (forM_reach fresh found _ _ y).
    + apply elem_of_seq. lia.
    + intros b t t' _ Ht. apply forM_invariant; [|done].
      intros a u u' _. apply scanPixel_fresh.
    + intros t t' Ht. apply (forM_reach fresh found _ _ x).
      * apply elem_of_seq. lia.
      * intros a u u' _. apply scanPixel_fresh.
      * intros u u'. by apply scanPixel_finds.
      * intros a u u' _. apply scanPixel_found.
      * done.
    + intros b t t' _ Ht. apply forM_invariant; [|done].
      intros a u u' _. apply scanPixel_found.
    + intros _ y0 x0. apply unvisited_newGrid.
  - intros Hzero.
    assert (Hsame : st = (newGrid h w false, [])); [|by rewrite Hsame].
    revert Hrun. apply (forM_invariant (λ st, st = (newGrid h w false, [])));
      [|done].
    intros y t t' _ ->.
    apply (forM_invariant (λ st, st = (newGrid h w false, []))); [|done].
    intros x u u' _ ->. rewrite scanPixel_background by done. congruence.
Qed.

Lemma traceContours_is_empty_only_without_foreground_witness :
  ∃ contours, Tracing.traceContours [[0; 0]; [0; 0]] = Ok contours ∧
    (contours = [] ↔ ∀ y x, pixelAt [[0; 0]; [0; 0]] y x ≠ Some 1).
Proof.
  apply (proj2 traceContours_is_empty_only_without_foreground 2%nat 2%nat
           [[0; 0]; [0; 0]]).
  - lia.
  - split; [reflexivity | repeat constructor].
Defined.

(** * The flood fill *)

(** Two cells that share a side. *)
Definition adjacent4 (y x y' x' : nat) : Prop :=
  (y' = y ∧ (x' = S x ∨ x = S x')) ∨ (x' = x ∧ (y' = S y ∨ y = S y')).

(** The cells the fill reaches from the start cell: the start itself, and
    from a reached cell every side neighbour that is a foreground pixel not
    visited before the fill. *)
Inductive flooded (mask : Mask) (visited : list (list bool))
    (startY startX : nat) : nat → nat → Prop :=
  | flooded_start : flooded mask visited startY startX startY startX
  | flooded_step y x y' x' :
      flooded mask visited startY startX y x →
      adjacent4 y x y' x' →
      pixelAt mask y' x' = Some 1 →
      Tracing.unvisited visited y' x' = true →
      flooded mask visited startY startX y' x'.

(** The pixel of the cell in row [y] and column [x]. *)
Definition pixelOf (y x : nat) : Tracing.Pixel :=
  Tracing.mkPixel (Z.of_nat x) (Z.of_nat y).

Section VisitedGrid.
Import Tracing.
Variables (h w : nat).

Lemma unvisited_lt v y x :
  rect h w v → unvisited v y x = false → (y < h)%nat ∧ (x < w)%nat.
Proof.
  intros Hrect. unfold unvisited.
  destruct (v !! y) as [row|] eqn:Hrow; [|done].
  pose proof (rect_row _ _ _ _ _ Hrect Hrow) as Hlen.
  destruct Hrect as [Hh _]. apply lookup_lt_Some in Hrow as Hy.
  destruct (row !! x) as [b|] eqn:Hb; [|done].
  apply lookup_lt_Some in Hb. lia.
Qed.

Lemma unvisited_mark_eq v y x :
  rect h w v → (y < h)%nat → (x < w)%nat →
  unvisited (setPixel v y x true) y x = false.
Proof.
  intros Hrect Hy Hx. unfold unvisited, setPixel.
  destruct (lookup_lt_is_Some_2 v y) as [row Hrow]; [destruct Hrect; lia|].
  rewrite list_lookup_alter_eq, Hrow. simpl.
  rewrite list_lookup_insert_eq; [done|].
  by rewrite (rect_row _ _ _ _ _ Hrect Hrow).
Qed.

Lemma unvisited_mark_ne v y x y' x' :
  (y, x) ≠ (y', x') →
  unvisited (setPixel v y x true) y' x' = unvisited v y' x'.
Proof.
  intros Hne. unfold unvisited, setPixel.
  destruct (decide (y = y')) as [->|Hy].
  - rewrite list_lookup_alter_eq. destruct (v !! y'); simpl; [|done].
    rewrite list_lookup_insert_ne; [done|congruence].
  - by rewrite list_lookup_alter_ne.
Qed.

Lemma unvisited_mark_mono v y x y' x' :
  rect h w v → (y < h)%nat → (x < w)%nat →
  unvisited v y' x' = false →
  unvisited (setPixel v y x true) y' x' = false.
Proof.
  intros Hrect Hy Hx Hv.
  destruct (decide ((y, x) = (y', x'))) as [[= <- <-]|Hne].
  - by apply unvisited_mark_eq.
  - by rewrite unvisited_mark_ne.
Qed.
End VisitedGrid.

Section Flood.
Import Tracing.
Variables (h w : nat) (mask : Mask) (visited0 : list (list bool)).
Variables (sy sx : nat).
Hypothesis mask_rect : rect h w mask.
Hypothesis visited_rect : rect h w visited0.
Hypothesis sy_lt : (sy < h)%nat.
Hypothesis sx_lt : (sx < w)%nat.

Lemma flooded_cases y x :
  flooded mask visited0 sy sx y x →
  (y = sy ∧ x = sx) ∨
  (pixelAt mask y x = Some 1 ∧ unvisited visited0 y x = true).
Proof. destruct 1; eauto. Qed.

Lemma flooded_lt y x :
  flooded mask visited0 sy sx y x → (y < h)%nat ∧ (x < w)%nat.
Proof.
  intros [[-> ->]|[Hone _]]%flooded_cases; [done|].
  by apply (pixelAt_rect_lt h w mask y x 1).
Qed.

(** Every foreground side neighbour of the cell is visited. *)
Definition closedAt (v : list (list bool)) (y x : nat) : Prop :=
  ∀ y' x', adjacent4 y x y' x' → pixelAt mask y' x' = Some 1 →
    unvisited v y' x' = false.

(** What one call on a neighbour does, by cells. *)
Lemma visitNeighbour_cell n q v :
  visitInside mask w h n (q, v) = (q, v) ∨
  ∃ ny nx, n = pixelOf ny nx ∧ (ny < h)%nat ∧ (nx < w)%nat ∧
    pixelAt mask ny nx = Some 1 ∧ unvisited v ny nx = true ∧
    visitInside mask w h n (q, v) = (q ++ [n], setPixel v ny nx true).
Proof.
  unfold visitInside.
  destruct (inRange (ix n) w && inRange (iy n) h) eqn:Hin; [|by left].
  apply andb_true_iff in Hin as [Hx%inRange_spec Hy%inRange_spec].
  destruct (isOne _ && unvisited _ _ _) eqn:Hfg; [|by left].
  apply andb_true_iff in Hfg as [Hone%isOne_spec Hun].
  right. exists (Z.to_nat (iy n)), (Z.to_nat (ix n)).
  split; [|repeat split; try done; lia].
  destruct n as [nx ny]. unfold pixelOf. cbn [ix iy] in *. f_equal; lia.
Qed.

Lemma visitNeighbour_mono n st y x :
  rect h w (snd st) →
  unvisited (snd st) y x = false →
  unvisited (snd (visitInside mask w h n st)) y x = false.
Proof.
  destruct st as [q v]. cbn [snd]. intros Hrect Hv.
  destruct (visitNeighbour_cell n q v)
    as [->|(ny & nx & _ & Hny & Hnx & _ & _ & ->)]; [done|].
  cbn [snd]. by apply (unvisited_mark_mono h w).
Qed.

Lemma visitNeighbour_rect n st :
  rect h w (snd st) → rect h w (snd (visitInside mask w h n st)).
Proof.
  destruct st as [q v]. cbn [snd]. intros Hrect.
  destruct (visitNeighbour_cell n q v)
    as [->|(ny & nx & _ & Hny & Hnx & _ & _ & ->)]; [done|].
  cbn [snd]. by apply rect_setPixel.
Qed.

(** After the call, a foreground neighbour inside the grid is visited. *)
Lemma visitNeighbour_marks ny nx st :
  rect h w (snd st) → (ny < h)%nat → (nx < w)%nat →
  pixelAt mask ny nx = Some 1 →
  unvisited (snd (visitInside mask w h (pixelOf ny nx) st)) ny nx = false.
Proof.
  destruct st as [q v]. cbn [snd]. intros Hrect Hny Hnx Hone.
  unfold visitInside, pixelOf. cbn [ix iy].
  assert (inRange (Z.of_nat nx) w && inRange (Z.of_nat ny) h = true) as ->.
  { apply andb_true_iff. split; apply inRange_spec; lia. }
  rewrite !Nat2Z.id, Hone. cbn [isOne andb].
  destruct (unvisited v ny nx) eqn:Hun; cbn [snd]; [|done].
  by apply (unvisited_mark_eq h w).
Qed.

(** The state of the loop: the grid only gains marks, every mark it gained
    is on a reached cell, the queue holds reached cells, and a reached cell
    that is marked either waits in the queue or has all its foreground side
    neighbours marked. *)
Record filling (st : list Pixel * list (list bool)) : Prop := {
  filling_rect : rect h w (snd st);
  filling_mono : ∀ y x,
    unvisited visited0 y x = false → unvisited (snd st) y x = false;
  filling_start : unvisited (snd st) sy sx = false;
  filling_sound : ∀ y x,
    unvisited (snd st) y x = false →
    unvisited visited0 y x = false ∨ flooded mask visited0 sy sx y x;
  filling_queue :
    Forall (λ p, ∃ y x, p = pixelOf y x ∧ flooded mask visited0 sy sx y x)
      (fst st);
  filling_closed : ∀ y x,
    flooded mask visited0 sy sx y x → unvisited (snd st) y x = false →
    pixelOf y x ∈ fst st ∨ closedAt (snd st) y x
}.

Lemma filling_init :
  filling ([pixelOf sy sx], setPixel visited0 sy sx true).
Proof.
  split; cbn [fst snd].
  - by apply rect_setPixel.
  - intros y x Hv. by apply (unvisited_mark_mono h w).
  - by apply (unvisited_mark_eq h w).
  - intros y x Hv.
    destruct (decide ((sy, sx) = (y, x))) as [[= <- <-]|Hne].
    + right. constructor.
    + left. by rewrite unvisited_mark_ne in Hv.
  - apply Forall_singleton. exists sy, sx. split; [done|constructor].
  - intros y x Hfl Hv. left.
    destruct (flooded_cases y x Hfl) as [[-> ->]|[_ Hun]].
    + apply list_elem_of_here.
    + destruct (decide ((sy, sx) = (y, x))) as [[= <- <-]|Hne].
      * apply list_elem_of_here.
      * rewrite unvisited_mark_ne in Hv by done. congruence.
Qed.

(** The state while the neighbours of the dequeued cell [(y, x)] are
    looked at, against the state [(queue, v)] this started from. *)
Record visiting (y x : nat) (queue : list Pixel) (v : list (list bool))
    (st : list Pixel * list (list bool)) : Prop := {
  visiting_rect : rect h w (snd st);
  visiting_mono : ∀ y' x',
    unvisited v y' x' = false → unvisited (snd st) y' x' = false;
  visiting_sound : ∀ y' x',
    unvisited (snd st) y' x' = false →
    unvisited v y' x' = false ∨
    (flooded mask visited0 sy sx y' x' ∧ pixelOf y' x' ∈ fst st);
  visiting_queue : ∀ p, p ∈ queue → p ∈ fst st;
  visiting_reached :
    Forall (λ p, ∃ y x, p = pixelOf y x ∧ flooded mask visited0 sy sx y x)
      (fst st)
}.

Lemma visiting_step y x queue v n st :
  flooded mask visited0 sy sx y x →
  (∀ y' x', unvisited visited0 y' x' = false → unvisited v y' x' = false) →
  (∀ ny nx, n = pixelOf ny nx → adjacent4 y x ny nx) →
  visiting y x queue v st →
  visiting y x queue v (visitInside mask w h n st).
Proof.
  intros Hfl Hmono0 Hadj [Hrect Hmono Hsound Hqueue Hreached].
  destruct st as [q v']. cbn [fst snd] in *.
  destruct (visitNeighbour_cell n q v')
    as [->|(ny & nx & -> & Hny & Hnx & Hone & Hun & ->)]; [by split|].
  assert (Hnew : flooded mask visited0 sy sx ny nx).
  { apply (flooded_step _ _ _ _ y x); [done|by apply Hadj|done|].
    destruct (unvisited visited0 ny nx) eqn:Hun0; [done|].
    apply Hmono0, Hmono in Hun0. congruence. }
  split; cbn [fst snd].
  - by apply rect_setPixel.
  - intros y' x' Hv. apply (unvisited_mark_mono h w); auto.
  - intros y' x' Hv.
    destruct (decide ((ny, nx) = (y', x'))) as [[= <- <-]|Hne].
    + right. split; [done|]. apply elem_of_app. right. apply list_elem_of_here.
    + rewrite unvisited_mark_ne in Hv by done.
      destruct (Hsound _ _ Hv) as [?|[? ?]]; [by left|].
      right. split; [done|]. apply elem_of_app. by left.
  - intros p Hp. apply elem_of_app. left. by apply Hqueue.
  - apply Forall_app. split; [done|]. apply Forall_singleton. eauto.
Qed.

Lemma floodStep_filling st st' :
  filling st → floodStep mask w h st = Ok (inl st') → filling st'.
Proof.
  intros [Hrect Hmono Hstart Hsound Hqueue Hclosed].
  rewrite (floodStep_inside mask w h) by done.
  destruct st as [[|p queue] v]; cbn [fst snd] in *; [done|].
  apply Forall_cons in Hqueue as [(y & x & -> & Hfl) Hqueue].
  destruct (flooded_lt y x Hfl) as [Hy Hx].
  cbn [fst snd fold_left pixelOf ix iy].
  set (n1 := mkPixel (Z.of_nat x + 1) (Z.of_nat y)).
  set (n2 := mkPixel (Z.of_nat x - 1) (Z.of_nat y)).
  set (n3 := mkPixel (Z.of_nat x) (Z.of_nat y + 1)).
  set (n4 := mkPixel (Z.of_nat x) (Z.of_nat y - 1)).
  set (st1 := visitInside mask w h n1 (queue, v)).
  set (st2 := visitInside mask w h n2 st1).
  set (st3 := visitInside mask w h n3 st2).
  set (st4 := visitInside mask w h n4 st3).
  intros [= <-].
  assert (H0 : visiting y x queue v (queue, v)).
  { split; cbn [fst snd]; auto. }
  assert (H1 : visiting y x queue v st1).
  { apply visiting_step; try done. unfold n1, pixelOf, adjacent4.
    intros ny nx [= ? ?]. lia. }
  assert (H2 : visiting y x queue v st2).
  { apply visiting_step; try done. unfold n2, pixelOf, adjacent4.
    intros ny nx [= ? ?]. lia. }
  assert (H3 : visiting y x queue v st3).
  { apply visiting_step; try done. unfold n3, pixelOf, adjacent4.
    intros ny nx [= ? ?]. lia. }
  assert (H4 : visiting y x queue v st4).
  { apply visiting_step; try done. unfold n4, pixelOf, adjacent4.
    intros ny nx [= ? ?]. lia. }
  assert (Hdone : closedAt (snd st4) y x).
  { intros y' x' Hadj Hone.
    destruct (pixelAt_rect_lt h w mask y' x' 1) as [Hy' Hx']; [done|done|].
    destruct Hadj as [[-> [->| ->]]|[-> [->| ->]]].
    - apply visitNeighbour_mono; [apply H3|].
      apply visitNeighbour_mono; [apply H2|].
      apply visitNeighbour_mono; [apply H1|].
      unfold st1. replace n1 with (pixelOf y (S x))
        by (unfold n1, pixelOf; f_equal; lia).
      by apply visitNeighbour_marks.
    - apply visitNeighbour_mono; [apply H3|].
      apply visitNeighbour_mono; [apply H2|].
      unfold st2. replace n2 with (pixelOf y x')
        by (unfold n2, pixelOf; f_equal; lia).
      apply visitNeighbour_marks; [apply H1|done|done|done].
    - apply visitNeighbour_mono; [apply H3|].
      unfold st3. replace n3 with (pixelOf (S y) x)
        by (unfold n3, pixelOf; f_equal; lia).
      apply visitNeighbour_marks; [apply H2|done|done|done].
    - unfold st4. replace n4 with (pixelOf y' x)
        by (unfold n4, pixelOf; f_equal; lia).
      apply visitNeighbour_marks; [apply H3|done|done|done]. }
  destruct H4 as [Hrect4 Hmono4 Hsound4 Hqueue4 Hreached4].
  split.
  - done.
  - auto.
  - auto.
  - intros y' x' Hv. destruct (Hsound4 _ _ Hv) as [Hold|[Hnew _]]; auto.
  - done.
  - intros y' x' Hfl' Hv.
    destruct (Hsound4 _ _ Hv) as [Hold|[_ Hnew]]; [|by left].
    destruct (Hclosed _ _ Hfl' Hold) as [Hin|Hcl].
    + apply elem_of_cons in Hin as [Heq|Hin]; [|left; by apply Hqueue4].
      right. unfold pixelOf in Heq. injection Heq as Hx' Hy'.
      apply Nat2Z.inj in Hx', Hy'. by subst.
    + right. intros y'' x'' Hadj Hone. apply Hmono4. by apply Hcl.
Qed.

Lemma floodFillVisited_filling visited' :
  floodFillVisited mask sx sy visited0 = Ok visited' →
  filling ([], visited').
Proof.
  unfold floodFillVisited.
  destruct (lookup_lt_is_Some_2 mask 0%nat) as [row0 Hrow0];
    [destruct mask_rect; lia|].
  rewrite Hrow0, (rect_row _ _ _ _ _ mask_rect Hrow0).
  rewrite (markVisited_inside w h) by done. cbn [bind].
  destruct mask_rect as [-> _].
  intros Hrun.
  apply (while_invariant _ filling) in Hrun as (st & Hst & Hexit).
  - rewrite (floodStep_inside mask w h) in Hexit by apply Hst.
    destruct st as [[|p queue] v]; [|done].
    cbn [fst snd] in Hexit.
    by injection Hexit as <-.
  - intros t t'. apply floodStep_filling.
  - apply filling_init.
Qed.

Lemma filling_complete visited' y x :
  filling ([], visited') →
  flooded mask visited0 sy sx y x → unvisited visited' y x = false.
Proof.
  intros [Hrect Hmono Hstart Hsound Hqueue Hclosed]. cbn [fst snd] in *.
  induction 1 as [|y x y' x' Hfl IH Hadj Hone Hun]; [done|].
  destruct (Hclosed _ _ Hfl IH) as [Hin|Hcl].
  - by apply elem_of_nil in Hin.
  - by apply (Hcl y' x').
Qed.
End Flood.

Lemma floodFillVisited_region (h w : nat) (mask : Mask)
    (visited : list (list bool)) (startX startY : nat) :
  rect h w mask → rect h w visited → (startY < h)%nat → (startX < w)%nat →
  ∃ visited',
    Tracing.floodFillVisited mask startX startY visited = Ok visited' ∧
    rect h w visited' ∧
    ∀ y x,
      Tracing.unvisited visited' y x = false ↔
      Tracing.unvisited visited y x = false ∨
      flooded mask visited startY startX y x.
Proof.
  intros Hmask Hvisited Hy Hx.
  destruct (lookup_lt_is_Some_2 mask 0%nat) as [row0 Hrow0];
    [destruct Hmask; lia|].
  destruct (floodFillVisited_returns mask row0 Hrow0 startX startY visited)
    as (visited' & Hrun & _).
  { rewrite (rect_row _ _ _ _ _ Hmask Hrow0). by destruct Hmask as [-> _]. }
  { destruct Hmask; lia. }
  { by rewrite (rect_row _ _ _ _ _ Hmask Hrow0). }
  exists visited'. split; [done|].
  pose proof (floodFillVisited_filling h w mask visited startY startX
                Hmask Hvisited Hy Hx visited' Hrun) as Hfill.
  split; [apply Hfill|]. intros y x. split.
  - apply (filling_sound _ _ _ _ _ _ _ Hfill).
  - intros [Hold|Hfl].
    + by apply (filling_mono _ _ _ _ _ _ _ Hfill).
    + by eapply filling_complete.
Qed.

(** X8.  [floodFillVisited], on a mask and a [visited] grid of the same
    dimensions and a start cell inside them, returns the grid with exactly
    the cells marked that were marked before or that the fill reaches: the
    start cell (whatever it holds) and every foreground pixel not visited
    before that a chain of side-by-side such pixels links to it.  Diagonal
    neighbours are not followed. *)
Theorem floodFillVisited_marks_the_side_connected_region
    (h w : nat) (mask : Mask) (visited : list (list bool))
    (startX startY : nat) :
  rect h w mask → rect h w visited → (startY < h)%nat → (startX < w)%nat →
  ∃ visited',
    Tracing.floodFillVisited mask startX startY visited = Ok visited' ∧
    rect h w visited' ∧
    ∀ y x,
      Tracing.unvisited visited' y x = false ↔
      Tracing.unvisited visited y x = false ∨
      flooded mask visited startY startX y x.
Proof. apply floodFillVisited_region. Qed.

Lemma floodFillVisited_marks_the_side_connected_region_witness :
  ∃ visited',
    Tracing.floodFillVisited [[1; 1]; [0; 1]] 0 0 (newGrid 2 2 false)
    = Ok visited' ∧
    rect 2 2 visited' ∧
    ∀ y x,
      Tracing.unvisited visited' y x = false ↔
      Tracing.unvisited (newGrid 2 2 false) y x = false ∨
      flooded [[1; 1]; [0; 1]] (newGrid 2 2 false) 0 0 y x.
Proof.
  apply (floodFillVisited_marks_the_side_connected_region 2 2
           [[1; 1]; [0; 1]] (newGrid 2 2 false) 0 0).
  - split; [reflexivity | repeat constructor].
  - split; [reflexivity | repeat constructor].
  - lia.
  - lia.
Defined.

(** * Contours and side-connected regions *)

(** Two foreground pixels linked by a chain of foreground pixels in which
    each shares a side with the next. *)
Inductive connected4 (mask : Mask) (y x : nat) : nat → nat → Prop :=
  | connected4_refl :
      pixelAt mask y x = Some 1 → connected4 mask y x y x
  | connected4_step y1 x1 y' x' :
      connected4 mask y x y1 x1 →
      adjacent4 y1 x1 y' x' →
      pixelAt mask y' x' = Some 1 →
      connected4 mask y x y' x'.

Section Connected.
Variable mask : Mask.

Lemma adjacent4_sym y x y' x' : adjacent4 y x y' x' → adjacent4 y' x' y x.
Proof. unfold adjacent4. lia. Qed.

Lemma connected4_fg_l y x y' x' :
  connected4 mask y x y' x' → pixelAt mask y x = Some 1.
Proof. induction 1; done. Qed.

Lemma connected4_fg_r y x y' x' :
  connected4 mask y x y' x' → pixelAt mask y' x' = Some 1.
Proof. destruct 1; done. Qed.

Lemma connected4_trans y x y1 x1 y' x' :
  connected4 mask y x y1 x1 → connected4 mask y1 x1 y' x' →
  connected4 mask y x y' x'.
Proof.
  intros H1 H2. induction H2 as [|y2 x2 y' x' H2 IH Hadj Hone]; [done|].
  by apply (connected4_step _ _ _ y2 x2).
Qed.

Lemma connected4_sym y x y' x' :
  connected4 mask y x y' x' → connected4 mask y' x' y x.
Proof.
  induction 1 as [Hone|y1 x1 y' x' Hc IH Hadj Hone].
  - by constructor.
  - apply (connected4_trans _ _ y1 x1); [|done].
    apply (connected4_step _ _ _ y' x'); [by constructor| |].
    + by apply adjacent4_sym.
    + by apply (connected4_fg_r y x).
Qed.
End Connected.

Section Regions.
Import Tracing.
Variables (h w : nat) (mask : Mask).
Hypothesis mask_rect : rect h w mask.

(** The contour [c] was started at the cell [(y, x)]. *)
Definition startsAt (c : Contour) (y x : nat) : Prop :=
  ∃ rest, points c = pixelOf y x :: rest.

Lemma pixelOf_inj y x y' x' : pixelOf y x = pixelOf y' x' → y = y' ∧ x = x'.
Proof. unfold pixelOf. intros [= Hx Hy]. lia. Qed.

(** The state of the scan: the visited cells are the regions of the
    contours found so far, and no two of these contours started in the same
    region. *)
Record scanning (st : list (list bool) * list Contour) : Prop := {
  scanning_rect : rect h w (fst st);
  scanning_visited : ∀ y x,
    unvisited (fst st) y x = false ↔
    ∃ c sy sx, c ∈ snd st ∧ startsAt c sy sx ∧ connected4 mask sy sx y x;
  scanning_apart : ∀ i j ci cj yi xi yj xj,
    snd st !! i = Some ci → snd st !! j = Some cj → i ≠ j →
    startsAt ci yi xi → startsAt cj yj xj →
    ¬ connected4 mask yi xi yj xj
}.

Lemma scanning_init : scanning (newGrid h w false, []).
Proof.
  split; cbn [fst snd].
  - apply rect_newGrid.
  - intros y x. rewrite unvisited_newGrid. split; [done|].
    intros (c & _ & _ & Hin & _). by apply elem_of_nil in Hin.
  - intros i j ci cj yi xi yj xj Hi. by rewrite lookup_nil in Hi.
Qed.

(** From an unvisited foreground pixel the fill reaches its region. *)
Lemma flooded_connected visited contours y x y' x' :
  scanning (visited, contours) →
  pixelAt mask y x = Some 1 → unvisited visited y x = true →
  flooded mask visited y x y' x' ↔ connected4 mask y x y' x'.
Proof.
  intros [_ Hvisited _] Hone Hun. cbn [fst snd] in *. split.
  - induction 1 as [|y1 x1 y2 x2 Hfl IH Hadj Hone2 Hun2]; [by constructor|].
    by apply (connected4_step _ _ _ y1 x1).
  - induction 1 as [_|y1 x1 y2 x2 Hc IH Hadj Hone2]; [constructor|].
    apply (flooded_step _ _ _ _ y1 x1); [by apply IH|done|done|].
    destruct (unvisited visited y2 x2) eqn:Hun2; [done|].
    apply Hvisited in Hun2 as (c & sy & sx & Hin & Hstart & Hreach).
    assert (Hback : unvisited visited y x = false); [|congruence].
    apply Hvisited. exists c, sy, sx. split; [done|]. split; [done|].
    apply (connected4_trans _ _ _ y2 x2); [done|].
    apply connected4_sym. by apply (connected4_step _ _ _ y1 x1).
Qed.

Lemma scanPixel_scanning y x st st' :
  scanning st → scanPixel mask y x st = Ok st' → scanning st'.
Proof.
  destruct st as [visited contours]. intros Hst Hscan.
  apply scanPixel_cases in Hscan
    as [[_ ->]|(Hone & Hun & rest & e & visited' & _ & Hfill & ->)]; [done|].
  destruct (pixelAt_rect_lt h w mask y x 1) as [Hy Hx]; [done|done|].
  destruct (floodFillVisited_region h w mask visited x y mask_rect
              (scanning_rect _ Hst) Hy Hx) as (v & Hv & Hrect & Hmarks).
  rewrite Hv in Hfill. injection Hfill as <-.
  pose proof (λ y' x', flooded_connected visited contours y x y' x'
                         Hst Hone Hun) as Hreach.
  destruct Hst as [_ Hvisited Hapart]. cbn [fst snd] in *.
  set (c := {| points := mkPixel (Z.of_nat x) (Z.of_nat y) :: rest;
               isHole := false |}).
  assert (Hc : ∀ sy sx, startsAt c sy sx ↔ sy = y ∧ sx = x).
  { intros sy sx. unfold startsAt, c. cbn [points]. split.
    - intros [r [= Hx' Hy' _]]. lia.
    - intros [-> ->]. by exists rest. }
  assert (Hnot : ∀ c' sy sx, c' ∈ contours → startsAt c' sy sx →
                   ¬ connected4 mask sy sx y x).
  { intros c' sy sx Hin Hstart Hconn.
    assert (unvisited visited y x = false); [|congruence].
    apply Hvisited. by exists c', sy, sx. }
  split; cbn [fst snd].
  - done.
  - intros y' x'. rewrite Hmarks, Hvisited, Hreach. split.
    + intros [(c' & sy & sx & Hin & Hstart & Hconn)|Hconn].
      * exists c', sy, sx. split; [|done]. apply elem_of_app. by left.
      * exists c, y, x. split; [|split; [by apply Hc|done]].
        apply elem_of_app. right. apply list_elem_of_here.
    + intros (c' & sy & sx & Hin & Hstart & Hconn).
      apply elem_of_app in Hin as [Hin|Hin%list_elem_of_singleton].
      * left. by exists c', sy, sx.
      * right. subst c'. apply Hc in Hstart as [-> ->]. done.
  - intros i j ci cj yi xi yj xj Hi Hj Hij Hsi Hsj.
    apply lookup_app_Some in Hi as [Hi|[Hilen Hi]];
      apply lookup_app_Some in Hj as [Hj|[Hjlen Hj]].
    + by apply (Hapart i j ci cj).
    + apply list_lookup_singleton_Some in Hj as [_ <-].
      apply Hc in Hsj as [-> ->].
      apply (Hnot ci); [by eapply list_elem_of_lookup_2|done].
    + apply list_lookup_singleton_Some in Hi as [_ <-].
      apply Hc in Hsi as [-> ->]. intros Hconn%connected4_sym. revert Hconn.
      apply (Hnot cj); [by eapply list_elem_of_lookup_2|done].
    + apply list_lookup_singleton_Some in Hi as [Hi _].
      apply list_lookup_singleton_Some in Hj as [Hj _]. lia.
Qed.

Lemma scanPixel_visits y x st st' :
  pixelAt mask y x = Some 1 →
  scanning st → scanPixel mask y x st = Ok st' →
  unvisited (fst st') y x = false.
Proof.
  destruct st as [visited contours]. intros Hone Hst Hscan.
  apply scanPixel_cases in Hscan
    as [[Hskip ->]|(_ & Hun & rest & e & visited' & _ & Hfill & ->)].
  - rewrite Hone in Hskip. cbn [isOne andb] in Hskip. done.
  - destruct (pixelAt_rect_lt h w mask y x 1) as [Hy Hx]; [done|done|].
    destruct (floodFillVisited_region h w mask visited x y mask_rect
                (scanning_rect _ Hst) Hy Hx) as (v & Hv & Hrect & Hmarks).
    rewrite Hv in Hfill. injection Hfill as <-. cbn [fst].
    apply Hmarks. right. constructor.
Qed.

Lemma scanPixel_stays y x y' x' st st' :
  scanning st → scanPixel mask y x st = Ok st' →
  unvisited (fst st) y' x' = false → unvisited (fst st') y' x' = false.
Proof.
  destruct st as [visited contours]. intros Hst Hscan Hv.
  apply scanPixel_cases in Hscan
    as [[_ ->]|(Hone & Hun & rest & e & visited' & _ & Hfill & ->)]; [done|].
  destruct (pixelAt_rect_lt h w mask y x 1) as [Hy Hx]; [done|done|].
  destruct (floodFillVisited_region h w mask visited x y mask_rect
              (scanning_rect _ Hst) Hy Hx) as (v & Hv' & Hrect & Hmarks).
  rewrite Hv' in Hfill. injection Hfill as <-. cbn [fst] in *.
  apply Hmarks. by left.
Qed.

Lemma scan_regions st :
  forM (seq 0 h) (λ y, forM (seq 0 w) (λ x, scanPixel mask y x))
    (newGrid h w false, []) = Ok st →
  scanning st ∧ ∀ y x, pixelAt mask y x = Some 1 → unvisited (fst st) y x = false.
Proof.
  intros Hrun.
  assert (Hrow : ∀ y t t', scanning t →
            forM (seq 0 w) (λ x, scanPixel mask y x) t = Ok t' → scanning t').
  { intros y t t' Ht. apply forM_invariant; [|done].
    intros x u u' _. apply scanPixel_scanning. }
  split.
  - revert Hrun. apply forM_invariant; [|apply scanning_init].
    intros y t t' _. apply Hrow.
  - intros y x Hone.
    destruct (pixelAt_rect_lt h w mask y x 1) as [Hy Hx]; [done|done|].
    set (Q := λ st : list (list bool) * list Contour,
           scanning st ∧ unvisited (fst st) y x = false).
    assert (Hkeep : ∀ a b t t', Q t → scanPixel mask a b t = Ok t' → Q t').
    { intros a b t t' [Ht Hv] Hscan. split.
      - by apply (scanPixel_scanning a b t).
      - by apply (scanPixel_stays a b _ _ t). }
    assert (HQ : Q st); [|apply HQ].
    revert Hrun. apply (forM_reach scanning Q _ _ y).
    + apply elem_of_seq. lia.
    + intros b t t' _. apply Hrow.
    + intros t t' Ht. apply (forM_reach scanning Q _ _ x).
      * apply elem_of_seq. lia.
      * intros a u u' _. apply scanPixel_scanning.
      * intros u u' Hu Hscan. split.
        -- by apply (scanPixel_scanning y x u).
        -- by apply (scanPixel_visits y x u).
      * intros a u u' _. apply Hkeep.
      * done.
    + intros b t t' _ Ht. apply forM_invariant; [|done].
      intros a u u' _. apply Hkeep.
    + apply scanning_init.
Qed.
End Regions.

(** X9.  [traceContours] finds one contour per side-connected region of the
    foreground: on a mask of [h > 0] rows of [w] cells it returns, every
    foreground pixel is linked by a chain of side-by-side foreground pixels
    to the start pixel of some contour, and the start pixels of two
    different contours are never linked by such a chain.  (Regions that
    touch by a corner only are separate regions.) *)
Theorem traceContours_one_contour_per_side_connected_region
    (h w : nat) (mask : Mask) :
  (0 < h)%nat → rect h w mask →
  ∃ contours, Tracing.traceContours mask = Ok contours ∧
    (∀ y x, pixelAt mask y x = Some 1 →
       ∃ c sy sx rest,
         c ∈ contours ∧ Tracing.points c = pixelOf sy sx :: rest ∧
         connected4 mask sy sx y x) ∧
    (∀ i j ci cj yi xi yj xj resti restj,
       contours !! i = Some ci → contours !! j = Some cj → i ≠ j →
       Tracing.points ci = pixelOf yi xi :: resti →
       Tracing.points cj = pixelOf yj xj :: restj →
       ¬ connected4 mask yi xi yj xj).
Proof.
  intros Hh Hrect.
  destruct (lookup_lt_is_Some_2 mask 0%nat) as [row0 Hrow0];
    [destruct Hrect; lia|].
  destruct (traceContours_returns mask row0 Hrow0) as [contours Hrun].
  exists contours. split; [done|].
  revert Hrun. unfold Tracing.traceContours. rewrite Hrow0.
  rewrite (rect_row _ _ _ _ _ Hrect Hrow0).
  destruct Hrect as [Hlen Hrows]. rewrite Hlen.
  destruct (forM _ _ _) as [st| |] eqn:Hrun; cbn [bind]; try done.
  intros [= <-].
  destruct (scan_regions h w mask (conj Hlen Hrows) st Hrun)
    as [[_ Hvisited Hapart] Hall].
  split.
  - intros y x Hone.
    apply Hall, Hvisited in Hone as (c & sy & sx & Hin & [rest Hc] & Hconn).
    eauto 10.
  - intros i j ci cj yi xi yj xj resti restj Hi Hj Hij Hci Hcj.
    apply (Hapart i j ci cj); try done; by eexists.
Qed.

Lemma traceContours_one_contour_per_side_connected_region_witness :
  ∃ contours, Tracing.traceContours [[1; 0]; [0; 1]] = Ok contours ∧
    (∀ y x, pixelAt [[1; 0]; [0; 1]] y x = Some 1 →
       ∃ c sy sx rest,
         c ∈ contours ∧ Tracing.points c = pixelOf sy sx :: rest ∧
         connected4 [[1; 0]; [0; 1]] sy sx y x) ∧
    (∀ i j ci cj yi xi yj xj resti restj,
       contours !! i = Some ci → contours !! j = Some cj → i ≠ j →
       Tracing.points ci = pixelOf yi xi :: resti →
       Tracing.points cj = pixelOf yj xj :: restj →
       ¬ connected4 [[1; 0]; [0; 1]] yi xi yj xj).
Proof.
  apply (traceContours_one_contour_per_side_connected_region 2 2
           [[1; 0]; [0; 1]]).
  - lia.
  - split; [reflexivity | repeat constructor].
Defined.

(** * Smoothing *)

Section Smooth.
Import Geometry Smoothing.
Open Scope R_scope.

Lemma mapM_total {A B : Type} (P : B → Prop) (f : A → outcome B) l :
  (∀ a, a ∈ l → ∃ b, f a = Ok b ∧ P b) →
  ∃ bs, mapM f l = Ok bs ∧ length bs = length l ∧ Forall P bs.
Proof.
  induction l as [|a l IH]; intros Hf; cbn [mapM].
  - exists []. by repeat split.
  - destruct (Hf a) as (b & -> & Hb); [apply list_elem_of_here|].
    destruct IH as (bs & -> & Hlen & Hbs).
    { intros a' Ha'. apply Hf. by apply list_elem_of_further. }
    cbn [bind]. exists (b :: bs). repeat split; [by rewrite !length_cons, Hlen|].
    by apply List.Forall_cons.
Qed.

(** The weighted average of three points. *)
Definition average (prev curr next : Point) : Point :=
  {| px := (px prev + (px curr * 2) + px next) / 4;
     py := (py prev + (py curr * 2) + py next) / 4 |}.

(** One pass returns as many points, each the average of a point of the
    input and its two neighbours. *)
Lemma smoothOnce_total currentPoints :
  ∃ newPoints, smoothOnce currentPoints = Ok newPoints ∧
    length newPoints = length currentPoints ∧
    Forall (λ q, ∃ prev curr next,
              prev ∈ currentPoints ∧ curr ∈ currentPoints ∧
              next ∈ currentPoints ∧ q = average prev curr next)
      newPoints.
Proof.
  unfold smoothOnce. set (len := length currentPoints).
  destruct (mapM_total
    (λ q, ∃ prev curr next,
       prev ∈ currentPoints ∧ curr ∈ currentPoints ∧
       next ∈ currentPoints ∧ q = average prev curr next)
    (λ i,
       let* prev := at_ currentPoints ((i + len - 1) mod len)%nat in
       let* curr := at_ currentPoints i in
       let* next := at_ currentPoints ((i + 1) mod len)%nat in
       Ok {| px := (px prev + (px curr * 2) + px next) / 4;
             py := (py prev + (py curr * 2) + py next) / 4 |})
    (seq 0 len)) as (bs & Hrun & Hlen & Hall).
  - intros i Hi%elem_of_seq.
    destruct (at_lt currentPoints ((i + len - 1) mod len)%nat)
      as (prev & -> & Hprev); [apply Nat.mod_upper_bound; lia|].
    destruct (at_lt currentPoints i) as (curr & -> & Hcurr); [lia|].
    destruct (at_lt currentPoints ((i + 1) mod len)%nat)
      as (next & -> & Hnext); [apply Nat.mod_upper_bound; lia|].
    cbn [bind]. eexists. split; [done|].
    exists prev, curr, next.
    repeat split; try done; by eapply list_elem_of_lookup_2.
  - exists bs. rewrite length_seq in Hlen. by repeat split.
Qed.



Lemma smoothPoints_passes (P : Point → Prop) points iterations :
  (∀ prev curr next, P prev → P curr → P next → P (average prev curr next)) →
  Forall P points →
  ∃ result, smoothPoints points iterations = Ok result ∧
    length result = length points ∧ Forall P result.
Proof.
  intros Havg Hall. unfold smoothPoints.
  destruct (length points <? 3)%nat; [by exists points|].
  apply (repeatM_total (λ l, length l = length points ∧ Forall P l));
    [|done].
  intros t [Hlen Ht].
  destruct (smoothOnce_total t) as (t' & -> & Hlen' & Ht').
  exists t'. split; [done|]. split; [congruence|].
  rewrite Forall_forall in Ht. eapply Forall_impl; [exact Ht'|].
  intros q (prev & curr & next & Hp & Hc & Hn & ->). auto.
Qed.
End Smooth.

(** X10.  [smoothPoints] never throws and returns as many points as it is
    given; a contour of fewer than three points, and any contour when no
    iteration is asked for, comes back unchanged. *)
Theorem smoothPoints_keeps_the_number_of_points
    (points : list Geometry.Point) (iterations : nat) :
  (∃ result, Smoothing.smoothPoints points iterations = Ok result ∧
     length result = length points) ∧
  ((length points < 3)%nat →
   Smoothing.smoothPoints points iterations = Ok points) ∧
  Smoothing.smoothPoints points 0 = Ok points.
Proof.
  split; [|split].
  - destruct (smoothPoints_passes (λ _, True) points iterations)
      as (result & Hrun & Hlen & _); [done|by apply Forall_true|].
    eauto.
  - intros Hshort%Nat.ltb_lt. unfold Smoothing.smoothPoints.
    by rewrite Hshort.
  - unfold Smoothing.smoothPoints. by destruct (_ <? _)%nat.
Qed.

Lemma smoothPoints_keeps_the_number_of_points_witness :
  Smoothing.smoothPoints [Geometry.mkPoint 0 0; Geometry.mkPoint 1 1] 5
  = Ok [Geometry.mkPoint 0 0; Geometry.mkPoint 1 1].
Proof.
  apply (proj1 (proj2 (smoothPoints_keeps_the_number_of_points
           [Geometry.mkPoint 0 0; Geometry.mkPoint 1 1] 5))).
  simpl. lia.
Defined.




Section Centroid.
Import Geometry Smoothing.
Open Scope R_scope.
















End Centroid.


(** * What the simplification returns *)

Section Shape.
Import Geometry Simplification.
Open Scope R_scope.
Variable tolerance : R.

(** How a result is built: the two end points alone when no interior point
    is farther than the tolerance from the chord, and else the results for
    the two halves around the farthest interior point [x], joined at [x]. *)
Lemma simplifyPath_shape (P : Point → list Point → Point → list Point → Prop) :
  (∀ a mid b,
     Forall (λ p, perpendicularDistance p a b <= tolerance) mid →
     P a mid b []) →
  (∀ a A x B b A' B',
     tolerance < perpendicularDistance x a b →
     P a A x A' → P x B b B' →
     P a (A ++ x :: B) b (A' ++ x :: B')) →
  ∀ fuel a mid b result,
    simplifyPath fuel (a :: mid ++ [b]) tolerance = Ok result →
    ∃ mid', result = a :: mid' ++ [b] ∧ P a mid b mid'.
Proof.
  intros Hflat Hsplit. induction fuel as [|fuel IH]; intros a mid b result;
    [done|].
  destruct (decide (mid = [])) as [->|Hmid].
  { rewrite simplifyPath_short by (cbn; lia). intros [= <-].
    exists []. split; [done|]. by apply Hflat. }
  rewrite simplifyPath_long by done. cbv zeta.
  destruct (scanMax_spec a b mid 1 0 0%nat)
    as [[Hscan Hall] | (A & x & B & -> & Hscan & Hx & HA & HB)];
    rewrite Hscan; cbn [fst snd].
  - destruct (Rltb tolerance 0) eqn:Htol.
    + apply Rltb_spec in Htol. rewrite drop_0.
      rewrite (simplifyPath_stuck tolerance fuel a mid b) by done.
      by destruct (simplifyPath fuel (take _ _) tolerance).
    + apply Rltb_spec_false in Htol. intros [= <-].
      exists []. split; [done|]. apply Hflat.
      eapply Forall_impl; [exact Hall|]. intros p Hp. simpl in Hp. lra.
  - destruct (Rltb tolerance (perpendicularDistance x a b)) eqn:Htol.
    2:{ apply Rltb_spec_false in Htol. intros [= <-].
        exists []. split; [done|]. apply Hflat.
        apply Forall_app. split; [|apply List.Forall_cons; [done|]].
        - eapply Forall_impl; [exact HA|]. intros p Hp. simpl in Hp. lra.
        - eapply Forall_impl; [exact HB|]. intros p Hp. simpl in Hp. lra. }
    apply Rltb_spec in Htol.
    rewrite take_left_part, drop_right_part.
    destruct (simplifyPath fuel (a :: A ++ [x]) tolerance)
      as [leftPath| |] eqn:Hleft; cbn [bind]; try done.
    destruct (simplifyPath fuel (x :: B ++ [b]) tolerance)
      as [rightPath| |] eqn:Hright; cbn [bind]; try done.
    destruct (IH _ _ _ _ Hleft) as (A' & -> & HPA).
    destruct (IH _ _ _ _ Hright) as (B' & -> & HPB).
    rewrite take_all_but_last. intros [= <-].
    exists (A' ++ x :: B'). split; [|by apply Hsplit].
    cbn [app]. by rewrite <- app_assoc.
Qed.

Lemma simplifyPath_returns points :
  0 <= tolerance →
  ∃ result, ∀ fuel, (S (length points) ≤ fuel)%nat →
    simplifyPath fuel points tolerance = Ok result.
Proof.
  intros Htol.
  destruct (simplifyPath_total tolerance (length points) points Htol)
    as [result Hrun]; [done|].
  exists result. intros fuel Hfuel.
  by apply (simplifyPath_fuel_mono tolerance (S (length points))).
Qed.

Lemma perpendicularDistance_degenerate p a :
  perpendicularDistance p a a = 0.
Proof.
  unfold perpendicularDistance.
  replace ((py a - py a) ^ 2 + (px a - px a) ^ 2) with 0 by ring.
  rewrite sqrt_0. unfold Reqb. by destruct (Req_dec_T 0 0).
Qed.

(** Some two consecutive points of [result] span a line that passes within
    the tolerance of [p]. *)
Definition approximated (result : list Point) (p : Point) : Prop :=
  ∃ i u v, result !! i = Some u ∧ result !! S i = Some v ∧
    perpendicularDistance p u v <= tolerance.

Lemma approximated_app_l l l' p :
  approximated l p → approximated (l ++ l') p.
Proof.
  intros (i & u & v & Hu & Hv & Hd). exists i, u, v.
  split; [|split; [|done]]; by apply lookup_app_l_Some.
Qed.

Lemma approximated_app_r l l' p :
  approximated l' p → approximated (l ++ l') p.
Proof.
  intros (i & u & v & Hu & Hv & Hd). exists (length l + i)%nat, u, v.
  split; [|split; [|done]].
  - by rewrite lookup_app_r, Nat.add_comm, Nat.add_sub by lia.
  - replace (S (length l + i)) with (length l + S i)%nat by lia.
    by rewrite lookup_app_r, Nat.add_comm, Nat.add_sub by lia.
Qed.
End Shape.

(** X13.  Whatever the tolerance, a result of [simplifyPath] is a
    subsequence of its input that keeps the first and the last point: the
    points in between are some of the interior points, in their order.  A
    path of fewer than three points is returned as it is.  With a tolerance
    that is not negative the function returns. *)
Theorem simplifyPath_keeps_the_ends_and_drops_interior_points
    (tolerance : R) :
  (∀ fuel a mid b result,
     Simplification.simplifyPath fuel (a :: mid ++ [b]) tolerance = Ok result →
     ∃ mid', result = a :: mid' ++ [b] ∧ sublist mid' mid) ∧
  (∀ fuel points,
     (length points < 3)%nat →
     Simplification.simplifyPath (S fuel) points tolerance = Ok points) ∧
  ((0 <= tolerance)%R →
   ∀ points, ∃ result, ∀ fuel, (S (length points) ≤ fuel)%nat →
     Simplification.simplifyPath fuel points tolerance = Ok result).
Proof.
  split; [|split].
  - apply (simplifyPath_shape tolerance (λ _ mid _ mid', sublist mid' mid)).
    + intros a mid b _. apply sublist_nil_l.
    + intros a A x B b A' B' _ HA HB.
      apply sublist_app; [done|]. by apply sublist_skip.
  - intros fuel points Hshort. by apply simplifyPath_short.
  - intros Htol points. by apply simplifyPath_returns.
Qed.

Lemma simplifyPath_keeps_the_ends_and_drops_interior_points_witness :
  ∃ result, ∀ fuel, (4 ≤ fuel)%nat →
    Simplification.simplifyPath fuel
      [Geometry.mkPoint 0 0; Geometry.mkPoint 1 5; Geometry.mkPoint 2 0] 1
    = Ok result.
Proof.
  assert (Htol : (0 <= 1)%R) by lra.
  exact (proj2 (proj2
           (simplifyPath_keeps_the_ends_and_drops_interior_points 1)) Htol
           [Geometry.mkPoint 0 0; Geometry.mkPoint 1 5; Geometry.mkPoint 2 0]).
Defined.

(** X14.  With a tolerance [t >= 0], [simplifyPath] on a path of at least
    two points returns just the two end points exactly when no interior
    point is farther than [t] from the line through them.  The distance to
    a chord whose ends coincide counts as 0, so a path that ends where it
    starts always collapses to its two (equal) end points. *)
Theorem simplifyPath_collapses_iff_within_tolerance
    (a b : Geometry.Point) (mid : list Geometry.Point) (tolerance : R) :
  (0 <= tolerance)%R →
  ∃ mid',
    (∀ fuel, (S (length (a :: mid ++ [b])) ≤ fuel)%nat →
       Simplification.simplifyPath fuel (a :: mid ++ [b]) tolerance
       = Ok (a :: mid' ++ [b])) ∧
    (mid' = [] ↔
     Forall (λ p, (Simplification.perpendicularDistance p a b <= tolerance)%R)
       mid) ∧
    (a = b → mid' = []).
Proof.
  intros Htol.
  destruct (simplifyPath_returns tolerance (a :: mid ++ [b]) Htol)
    as [result Hrun].
  pose proof (Hrun _ (le_n _)) as Hone.
  apply (simplifyPath_shape tolerance
           (λ a mid b mid',
              mid' = [] ↔
              Forall (λ p, (Simplification.perpendicularDistance p a b
                            <= tolerance)%R) mid))
    in Hone as (mid' & -> & Hiff).
  - exists mid'. split; [done|]. split; [done|].
    intros <-. apply Hiff. apply Forall_forall. intros p _.
    rewrite perpendicularDistance_degenerate. done.
  - intros a0 mid0 b0 Hall. done.
  - intros a0 A x B b0 A' B' Hfar _ _. split.
    + intros Hnil. by destruct A'.
    + intros [_ [Hx _]%Forall_cons]%Forall_app. lra.
Qed.

Lemma simplifyPath_collapses_iff_within_tolerance_witness :
  ∃ mid',
    (∀ fuel,
       (S (length (Geometry.mkPoint 0 0 :: [Geometry.mkPoint 3 7]
                     ++ [Geometry.mkPoint 0 0])) ≤ fuel)%nat →
       Simplification.simplifyPath fuel
         (Geometry.mkPoint 0 0 :: [Geometry.mkPoint 3 7]
            ++ [Geometry.mkPoint 0 0]) 1
       = Ok (Geometry.mkPoint 0 0 :: mid' ++ [Geometry.mkPoint 0 0])) ∧
    (mid' = [] ↔
     Forall (λ p, (Simplification.perpendicularDistance p
                     (Geometry.mkPoint 0 0) (Geometry.mkPoint 0 0) <= 1)%R)
       [Geometry.mkPoint 3 7]) ∧
    (Geometry.mkPoint 0 0 = Geometry.mkPoint 0 0 → mid' = []).
Proof.
  apply (simplifyPath_collapses_iff_within_tolerance (Geometry.mkPoint 0 0)
           (Geometry.mkPoint 0 0) [Geometry.mkPoint 3 7] 1).
  lra.
Defined.

(** X15.  The guarantee of the Douglas-Peucker simplification: with a
    tolerance [t >= 0], [simplifyPath] drops a point only within [t] of a
    segment it keeps.  Every point of a path of at least two points is
    either a point of the result, or the distance the code computes from it
    to the line through two consecutive points of the result is at most
    [t]. *)
Theorem simplifyPath_result_passes_near_every_point
    (a b : Geometry.Point) (mid : list Geometry.Point) (tolerance : R) :
  (0 <= tolerance)%R →
  ∃ result,
    (∀ fuel, (S (length (a :: mid ++ [b])) ≤ fuel)%nat →
       Simplification.simplifyPath fuel (a :: mid ++ [b]) tolerance
       = Ok result) ∧
    ∀ p, p ∈ a :: mid ++ [b] →
      p ∈ result ∨
      ∃ i u v, result !! i = Some u ∧ result !! S i = Some v ∧
        (Simplification.perpendicularDistance p u v <= tolerance)%R.
Proof.
  intros Htol.
  destruct (simplifyPath_returns tolerance (a :: mid ++ [b]) Htol)
    as [result Hrun].
  exists result. split; [done|].
  pose proof (Hrun _ (le_n _)) as Hone.
  apply (simplifyPath_shape tolerance
           (λ a mid b mid',
              ∀ p, p ∈ mid →
                   p ∈ mid' ∨ approximated tolerance (a :: mid' ++ [b]) p))
    in Hone as (mid' & -> & Hall).
  - intros p [->|Hp]%elem_of_cons; [left; apply list_elem_of_here|].
    apply elem_of_app in Hp as [Hp|Hp%list_elem_of_singleton].
    + destruct (Hall p Hp) as [Hkept|Hnear]; [|by right].
      left. apply list_elem_of_further, elem_of_app. by left.
    + subst p. left. apply list_elem_of_further, elem_of_app. right.
      apply list_elem_of_here.
  - intros a0 mid0 b0 Hnear p Hp. right. exists 0%nat, a0, b0.
    split; [done|]. split; [done|].
    rewrite Forall_forall in Hnear. by apply Hnear.
  - intros a0 A x B b0 A' B' _ HA HB p Hp.
    apply elem_of_app in Hp as [Hp|Hp].
    { destruct (HA p Hp) as [Hkept|Hnear].
      - left. apply elem_of_app. by left.
      - right.
        replace (a0 :: (A' ++ x :: B') ++ [b0])
          with ((a0 :: A' ++ [x]) ++ (B' ++ [b0]))
          by (cbn [app]; by rewrite <- !app_assoc).
        by apply approximated_app_l. }
    apply elem_of_cons in Hp as [->|Hp].
    { left. apply elem_of_app. right. apply list_elem_of_here. }
    destruct (HB p Hp) as [Hkept|Hnear].
    + left. apply elem_of_app. right. by apply list_elem_of_further.
    + right.
      replace (a0 :: (A' ++ x :: B') ++ [b0])
        with ((a0 :: A') ++ (x :: B' ++ [b0]))
        by (cbn [app]; by rewrite <- app_assoc).
      by apply approximated_app_r.
Qed.

Lemma simplifyPath_result_passes_near_every_point_witness :
  ∃ result,
    (∀ fuel,
       (S (length (Geometry.mkPoint 0 0 :: [Geometry.mkPoint 1 0]
                     ++ [Geometry.mkPoint 2 0])) ≤ fuel)%nat →
       Simplification.simplifyPath fuel
         (Geometry.mkPoint 0 0 :: [Geometry.mkPoint 1 0]
            ++ [Geometry.mkPoint 2 0]) 1
       = Ok result) ∧
    ∀ p, p ∈ Geometry.mkPoint 0 0 :: [Geometry.mkPoint 1 0]
             ++ [Geometry.mkPoint 2 0] →
      p ∈ result ∨
      ∃ i u v, result !! i = Some u ∧ result !! S i = Some v ∧
        (Simplification.perpendicularDistance p u v <= 1)%R.
Proof.
  apply (simplifyPath_result_passes_near_every_point (Geometry.mkPoint 0 0)
           (Geometry.mkPoint 2 0) [Geometry.mkPoint 1 0] 1).
  lra.
Defined.

(** * Curve fitting, point by point *)

(** A loop over [i, i + k) with a property that follows the index. *)
Lemma forM_seq_total {S : Type} (P : nat → S → Prop)
    (body : nat → S → outcome S) k : ∀ i s,
  P i s →
  (∀ j t, (i ≤ j < i + k)%nat → P j t → ∃ t', body j t = Ok t' ∧ P (Datatypes.S j) t') →
  ∃ s', forM (seq i k) body s = Ok s' ∧ P (i + k)%nat s'.
Proof.
  induction k as [|k IH]; intros i s Hs Hbody; cbn [seq forM].
  - exists s. by rewrite Nat.add_0_r.
  - destruct (Hbody i s) as (t & -> & Ht); [lia|done|]. cbn [bind].
    destruct (IH (Datatypes.S i) t Ht) as (s' & Hrun & Hs').
    { intros j u Hj. apply Hbody. lia. }
    exists s'. split; [done|]. by replace (i + Datatypes.S k)%nat
      with (Datatypes.S i + k)%nat by lia.
Qed.

(** Consecutive points of [l] are more than [threshold] apart. *)
Definition spaced (threshold : R) (l : list Geometry.Point) : Prop :=
  ∀ i u v, l !! i = Some u → l !! S i = Some v →
    (threshold < Geometry.distance u v)%R.

Section Duplicates.
Import Geometry CurveFitting.
Open Scope R_scope.
Variables (points : list Point) (threshold : R) (first : Point).
Hypothesis points_first : points !! 0%nat = Some first.
Hypothesis threshold_nonneg : 0 <= threshold.

Lemma distance_sym p q : distance p q = distance q p.
Proof. unfold distance. f_equal. ring. Qed.

Lemma spaced_snoc l q p :
  spaced threshold l → last l = Some q → threshold < distance q p →
  spaced threshold (l ++ [p]).
Proof.
  intros Hl Hlast Hqp i u v Hu Hv.
  rewrite last_lookup in Hlast.
  destruct (decide (S i < length l)%nat) as [Hlt|Hge].
  - rewrite lookup_app_l in Hu by lia. rewrite lookup_app_l in Hv by lia.
    by apply (Hl i).
  - apply lookup_lt_Some in Hv as Hi. rewrite length_app in Hi. simpl in Hi.
    rewrite lookup_app_l in Hu by lia.
    rewrite lookup_app_r in Hv by lia.
    replace (S i - length l)%nat with 0%nat in Hv by lia.
    injection Hv as <-.
    replace (pred (length l)) with i in Hlast by lia.
    by replace u with q by congruence.
Qed.

(** The state of the filtering loop before index [j]: the points kept so
    far, out of the first [j] points. *)
Record kept (j : nat) (result : list Point) : Prop := {
  kept_head : head result = Some first;
  kept_spaced : spaced threshold result;
  kept_sublist : sublist result (take j points);
  kept_last : ∃ q p, last result = Some q ∧ points !! pred j = Some p ∧
                     (q = p ∨ distance q p <= threshold);
  kept_cluster :
    Forall (λ p, distance first p <= threshold) (drop 1 (take j points)) →
    result = [first]
}.

Lemma kept_init : kept 1 [first].
Proof.
  assert (Htake : take 1 points = [first]).
  { destruct points as [|p l]; [done|]. by injection points_first as ->. }
  split.
  - done.
  - by intros [|i] u v.
  - by rewrite Htake.
  - exists first, first. eauto.
  - done.
Qed.

Lemma keepDistinct_kept j result :
  (1 ≤ j < length points)%nat → kept j result →
  ∃ result', keepDistinct points threshold j result = Ok result'
             ∧ kept (S j) result'.
Proof.
  intros Hj [Hhead Hspaced Hsub (q & p & Hlast & Hp & Hqp) Hcluster].
  unfold keepDistinct.
  assert (at_ result (length result - 1) = Ok q) as ->.
  { apply at_Ok. rewrite last_lookup in Hlast.
    by replace (length result - 1)%nat with (pred (length result)) by lia. }
  destruct (at_lt points j) as (curr & -> & Hcurr); [lia|]. cbn [bind].
  assert (Htake : take (S j) points = take j points ++ [curr])
    by (by apply take_S_r).
  assert (Hdrop : drop 1 (take (S j) points)
                  = drop 1 (take j points) ++ [curr]).
  { rewrite Htake. rewrite drop_app_le; [done|]. rewrite length_take. lia. }
  destruct (Rltb threshold (distance q curr)) eqn:Hfar.
  - apply Rltb_spec in Hfar. eexists. split; [done|]. split.
    + by destruct result.
    + by apply (spaced_snoc _ q).
    + rewrite Htake. by apply sublist_app.
    + exists curr, curr. rewrite last_snoc. cbn [pred]. eauto.
    + rewrite Hdrop. intros [Hall [Hc _]%Forall_cons]%Forall_app.
      rewrite (Hcluster Hall) in Hlast. injection Hlast as <-. lra.
  - apply Rltb_spec_false in Hfar. eexists. split; [done|]. split.
    + done.
    + done.
    + rewrite Htake. by apply sublist_inserts_r.
    + exists q, curr. cbn [pred]. eauto.
    + rewrite Hdrop. intros [Hall _]%Forall_app. auto.
Qed.

Lemma filterDuplicates_kept :
  (2 ≤ length points)%nat →
  ∃ result, filterDuplicates points threshold = Ok result
            ∧ kept (length points) result.
Proof.
  intros Hlen. unfold filterDuplicates.
  destruct (Nat.ltb_spec (length points) 2) as [|_]; [lia|].
  assert (at_ points 0 = Ok first) as -> by (by apply at_Ok).
  cbn [bind].
  destruct (forM_seq_total kept (keepDistinct points threshold)
              (length points - 1) 1 [first] kept_init)
    as (result & -> & Hkept).
  { intros j t Hj. apply keepDistinct_kept. lia. }
  replace (1 + (length points - 1))%nat with (length points) in Hkept by lia.
  cbn [bind]. destruct (2 <? length points)%nat; [|eauto].
  destruct (at_lt points (length points - 1)) as (lastPoint & -> & Hlast);
    [lia|].
  cbn [bind].
  destruct (Reqb (px first) (px lastPoint) && Reqb (py first) (py lastPoint))
    eqn:Hclosed; [|eauto].
  apply andb_true_iff in Hclosed as [Hx%Reqb_spec Hy%Reqb_spec].
  assert (first = lastPoint) as <-.
  { destruct first, lastPoint. cbn [px py] in *. by subst. }
  destruct Hkept as [Hhead Hspaced Hsub (q & p & Hq & Hp & Hqp) Hcluster].
  assert (at_ result 0 = Ok first) as ->.
  { apply at_Ok. by destruct result as [|r0 l]; [|injection Hhead as ->]. }
  assert (at_ result (length result - 1) = Ok q) as ->.
  { apply at_Ok. rewrite last_lookup in Hq.
    by replace (length result - 1)%nat with (pred (length result)) by lia. }
  cbn [bind].
  assert (p = first) as ->.
  { replace (pred (length points)) with (length points - 1)%nat in Hp by lia.
    congruence. }
  rewrite Rltb_false.
  - eexists. split; [done|]. split; [done|done|done| |done].
    exists q, first. by repeat split.
  - destruct Hqp as [->|Hnear].
    + rewrite distance_self. lra.
    + rewrite distance_sym. lra.
Qed.
End Duplicates.

Section Segments.
Import Geometry CurveFitting.
Open Scope R_scope.
Variables (cleanPoints : list Point) (isClosed : bool).
Hypothesis clean_spaced : spaced 1.0 cleanPoints.

(** After the filtering no segment is skipped. *)
Lemma fitSegment_Some i :
  (i + 1 < length cleanPoints)%nat →
  ∃ c, fitSegment cleanPoints isClosed i = Ok (Some c) ∧
       cleanPoints !! i = Some (p0 c) ∧ cleanPoints !! S i = Some (p3 c).
Proof.
  intros Hi.
  destruct (fitSegment_total cleanPoints isClosed i Hi) as [c Hc].
  revert Hc. unfold fitSegment.
  destruct (at_lt cleanPoints i) as (q0 & -> & Hq0); [lia|].
  destruct (at_lt cleanPoints (i + 1)) as (q3 & -> & Hq3); [lia|].
  cbn [bind]. replace (i + 1)%nat with (S i) in Hq3 by lia.
  pose proof (clean_spaced i q0 q3 Hq0 Hq3) as Hfar.
  rewrite Rltb_false by lra.
  match goal with |- bind ?m _ = _ → _ => destruct m as [prev| |] end;
    cbn [bind]; try done.
  match goal with |- bind ?m _ = _ → _ => destruct m as [next| |] end;
    cbn [bind]; try done.
  intros _. eexists. split; [done|]. by cbn [p0 p3].
Qed.

(** The state of the fitting loop before index [j]. *)
Definition fitted (j : nat) (curves : list BezierCurve) : Prop :=
  length curves = j ∧
  ∀ i c, curves !! i = Some c →
    cleanPoints !! i = Some (p0 c) ∧ cleanPoints !! S i = Some (p3 c).

Lemma fitting_loop :
  ∃ curves,
    forM (seq 0 (length cleanPoints - 1)) (λ i curves,
      let* c := fitSegment cleanPoints isClosed i in
      match c with
      | Some c => Ok (curves ++ [c])
      | None => Ok curves
      end) [] = Ok curves
    ∧ fitted (length cleanPoints - 1) curves.
Proof.
  apply (forM_seq_total fitted _ (length cleanPoints - 1) 0 []).
  - split; [done|]. intros i c Hc. by rewrite lookup_nil in Hc.
  - intros j curves Hj [Hlen Hcurves].
    destruct (fitSegment_Some j) as (c & -> & Hc0 & Hc3); [lia|].
    cbn [bind]. eexists. split; [done|]. split.
    + rewrite length_app. simpl. lia.
    + intros i c' Hi. apply lookup_app_Some in Hi as [Hi|[Hge Hi]]; [auto|].
      apply list_lookup_singleton_Some in Hi as [Hi <-].
      by replace i with j by lia.
Qed.
End Segments.

Lemma filterDuplicates_spec
    (points : list Geometry.Point) (threshold : R) :
  (0 <= threshold)%R →
  ∃ result, CurveFitting.filterDuplicates points threshold = Ok result ∧
    sublist result points ∧
    head result = head points ∧
    (∀ i u v, result !! i = Some u → result !! S i = Some v →
       (threshold < Geometry.distance u v)%R) ∧
    (∀ first rest, points = first :: rest →
       Forall (λ p, (Geometry.distance first p <= threshold)%R) rest →
       result = [first]).
Proof.
  intros Htol.
  destruct (Nat.lt_ge_cases (length points) 2) as [Hshort|Hlong].
  - exists points. unfold CurveFitting.filterDuplicates.
    apply Nat.ltb_lt in Hshort as Hb. rewrite Hb.
    split; [done|]. split; [done|]. split; [done|]. split.
    + intros i u v Hu Hv. apply lookup_lt_Some in Hv. lia.
    + intros first rest -> _. destruct rest; [done|]. simpl in Hshort. lia.
  - destruct points as [|first rest] eqn:Hpoints; [simpl in Hlong; lia|].
    rewrite <- Hpoints in *.
    destruct (filterDuplicates_kept points threshold first) as
      (result & Hrun & [Hhead Hspaced Hsub _ Hcluster]);
      [by rewrite Hpoints|done|done|].
    exists result. split; [done|].
    rewrite firstn_all in Hsub, Hcluster.
    split; [done|]. split; [by rewrite Hpoints|]. split; [done|].
    intros first' rest' Heq Hall. rewrite Hpoints in Heq.
    injection Heq as <- <-. apply Hcluster. by rewrite Hpoints.
Qed.

(** X16.  With a threshold [t >= 0], [filterDuplicates] returns a
    subsequence of its input that starts with the same point and in which
    any two consecutive points are more than [t] apart; the step that is
    meant to close the cleaned list again never appends anything.  When all
    the points lie within [t] of the first one, only the first is kept. *)
Theorem filterDuplicates_keeps_points_more_than_threshold_apart
    (points : list Geometry.Point) (threshold : R) :
  (0 <= threshold)%R →
  ∃ result, CurveFitting.filterDuplicates points threshold = Ok result ∧
    sublist result points ∧
    head result = head points ∧
    (∀ i u v, result !! i = Some u → result !! S i = Some v →
       (threshold < Geometry.distance u v)%R) ∧
    (∀ first rest, points = first :: rest →
       Forall (λ p, (Geometry.distance first p <= threshold)%R) rest →
       result = [first]).
Proof. apply filterDuplicates_spec. Qed.

Lemma filterDuplicates_keeps_points_more_than_threshold_apart_witness :
  ∃ result,
    CurveFitting.filterDuplicates
      [Geometry.mkPoint 0 0; Geometry.mkPoint 10 10] 1 = Ok result ∧
    sublist result [Geometry.mkPoint 0 0; Geometry.mkPoint 10 10] ∧
    head result = head [Geometry.mkPoint 0 0; Geometry.mkPoint 10 10] ∧
    (∀ i u v, result !! i = Some u → result !! S i = Some v →
       (1 < Geometry.distance u v)%R) ∧
    (∀ first rest,
       [Geometry.mkPoint 0 0; Geometry.mkPoint 10 10] = first :: rest →
       Forall (λ p, (Geometry.distance first p <= 1)%R) rest →
       result = [first]).
Proof.
  apply (filterDuplicates_keeps_points_more_than_threshold_apart
           [Geometry.mkPoint 0 0; Geometry.mkPoint 10 10] 1).
  lra.
Defined.

Lemma fitCurves_kept (points : list Geometry.Point) :
  ∃ clean curves,
    CurveFitting.filterDuplicates points 1.0 = Ok clean ∧
    CurveFitting.fitCurves points = Ok curves ∧
    sublist clean points ∧
    length curves = (length clean - 1)%nat ∧
    ∀ i c, curves !! i = Some c →
      clean !! i = Some (CurveFitting.p0 c) ∧
      clean !! S i = Some (CurveFitting.p3 c) ∧
      (1 < Geometry.distance (CurveFitting.p0 c) (CurveFitting.p3 c))%R.
Proof.
  destruct (filterDuplicates_spec points 1.0)
    as (clean & Hclean & Hsub & _ & Hspaced & _); [lra|].
  exists clean. unfold CurveFitting.fitCurves. rewrite Hclean. cbn [bind].
  destruct (Nat.ltb_spec (length clean) 2) as [Hshort|Hlong].
  - exists []. split; [done|]. split; [done|]. split; [done|].
    split; [simpl; lia|]. intros i c Hc. by rewrite lookup_nil in Hc.
  - destruct (at_lt clean 0) as (first & -> & _); [lia|].
    destruct (at_lt clean (length clean - 1)) as (last & -> & _); [lia|].
    cbn [bind].
    destruct (fitting_loop clean
                (Geometry.Reqb (Geometry.px first) (Geometry.px last)
                 && Geometry.Reqb (Geometry.py first) (Geometry.py last))
                Hspaced) as (curves & Hrun & Hlen & Hcurves).
    exists curves. split; [done|]. split; [done|]. split; [done|].
    split; [done|]. intros i c Hc.
    destruct (Hcurves i c Hc) as [H0 H3]. split; [done|]. split; [done|].
    pose proof (Hspaced i _ _ H0 H3). lra.
Qed.

(** X17.  [fitCurves] emits exactly one curve per pair of consecutive
    points of the list that [filterDuplicates(points, 1.0)] keeps, from the
    one to the other, in order: the curves form a chain over points of the
    input, each chord is longer than 1, and the check that skips a chord
    shorter than 0.1 never fires. *)
Theorem fitCurves_one_curve_per_kept_segment (points : list Geometry.Point) :
  ∃ clean curves,
    CurveFitting.filterDuplicates points 1.0 = Ok clean ∧
    CurveFitting.fitCurves points = Ok curves ∧
    sublist clean points ∧
    length curves = (length clean - 1)%nat ∧
    ∀ i c, curves !! i = Some c →
      clean !! i = Some (CurveFitting.p0 c) ∧
      clean !! S i = Some (CurveFitting.p3 c) ∧
      (1 < Geometry.distance (CurveFitting.p0 c) (CurveFitting.p3 c))%R.
Proof. apply fitCurves_kept. Qed.

Section Pair.
Import Geometry CurveFitting.
Open Scope R_scope.
Variables (a b : Point).
Hypothesis apart : 1 < distance a b.



End Pair.



(** X19.  A path whose points all lie within 1 of its first point is
    fitted with no curve at all, and so is the empty path: the filtering
    keeps the first point alone. *)
Theorem fitCurves_of_a_cluster_is_empty
    (first : Geometry.Point) (rest : list Geometry.Point) :
  Forall (λ p, (Geometry.distance first p <= 1)%R) rest →
  CurveFitting.fitCurves (first :: rest) = Ok [] ∧
  CurveFitting.fitCurves [] = Ok [].
Proof.
  intros Hnear. split; [|done].
  destruct (filterDuplicates_spec (first :: rest) 1.0)
    as (clean & Hclean & _ & _ & _ & Hcluster); [lra|].
  rewrite (Hcluster first rest eq_refl) in Hclean.
  - unfold CurveFitting.fitCurves. by rewrite Hclean.
  - eapply Forall_impl; [exact Hnear|]. intros p Hp. simpl in Hp. lra.
Qed.

Lemma fitCurves_of_a_cluster_is_empty_witness :
  CurveFitting.fitCurves
    (Geometry.mkPoint 0 0 :: [Geometry.mkPoint 0 0; Geometry.mkPoint 0 0])
  = Ok [] ∧
  CurveFitting.fitCurves [] = Ok [].
Proof.
  apply (fitCurves_of_a_cluster_is_empty (Geometry.mkPoint 0 0)
           [Geometry.mkPoint 0 0; Geometry.mkPoint 0 0]).
  repeat apply List.Forall_cons; try apply List.Forall_nil;
    rewrite distance_self; lra.
Defined.

(** * The quantizer *)

(** The position of the pixel with index [i] in an image [width] wide. *)
Definition pixelOfIndex (width i : nat) : Tracing.Pixel :=
  Tracing.mkPixel (Z.of_nat (i mod width)) (Z.of_nat (i / width)).

(** The index of the pixel at a position. *)
Definition indexOfPixel (width : nat) (p : Tracing.Pixel) : nat :=
  (Z.to_nat (Tracing.iy p) * width + Z.to_nat (Tracing.ix p))%nat.

(** The sum of one colour channel over the pixels at the given positions. *)
Definition channelSum (pixels : list Z) (width : nat) (f : Quantize.Color → Z)
    (positions : list Tracing.Pixel) : Z :=
  fold_right (λ p s, f (Quantize.colorAt pixels (indexOfPixel width p)) + s)
    0 positions.

(** A loop over a list with a property that follows the part of the list
    gone through. *)
Lemma forM_prefix_total {A S : Type} (P : list A → S → Prop)
    (body : A → S → outcome S) l : ∀ gone s,
  P gone s →
  (∀ d a t, a ∈ l → P d t → ∃ t', body a t = Ok t' ∧ P (d ++ [a]) t') →
  ∃ s', forM l body s = Ok s' ∧ P (gone ++ l) s'.
Proof.
  induction l as [|a l IH]; intros gone s Hs Hbody; cbn [forM].
  - exists s. by rewrite app_nil_r.
  - destruct (Hbody gone a s) as (t & -> & Ht); [apply list_elem_of_here|done|].
    cbn [bind]. destruct (IH (gone ++ [a]) t Ht) as (s' & Hrun & Hs').
    { intros d b u Hb. apply Hbody. by apply list_elem_of_further. }
    exists s'. split; [done|]. by rewrite <- app_assoc in Hs'.
Qed.

Lemma fold_left_invariant {A B : Type} (P : A → Prop) (f : A → B → A) l :
  ∀ a, (∀ a b, b ∈ l → P a → P (f a b)) → P a → P (fold_left f l a).
Proof.
  induction l as [|b l IH]; intros a Hf Ha; [done|].
  cbn [fold_left]. apply IH.
  - intros a' b' Hb'. apply Hf. by apply list_elem_of_further.
  - apply Hf; [apply list_elem_of_here|done].
Qed.

Section Kmeans.
Import Quantize.
Variables (pixels : list Z) (width colorCount : nat).
Hypothesis colors_pos : (0 < colorCount)%nat.

Lemma indexOfPixel_pixelOfIndex i :
  indexOfPixel width (pixelOfIndex width i) = i.
Proof.
  unfold indexOfPixel, pixelOfIndex. cbn [Tracing.ix Tracing.iy].
  rewrite !Nat2Z.id. pose proof (Nat.div_mod_eq i width). lia.
Qed.

Lemma channelSum_snoc f positions p :
  channelSum pixels width f (positions ++ [p])
  = channelSum pixels width f positions
    + f (colorAt pixels (indexOfPixel width p)).
Proof.
  unfold channelSum. induction positions as [|q l IH]; simpl; [lia|].
  rewrite IH. lia.
Qed.

(** The index of the closest centre is the index of a centre. *)
Lemma closest_lt centers c : (closest centers colorCount c < colorCount)%nat.
Proof.
  unfold closest.
  apply (fold_left_invariant (λ st : option Z * nat,
                                (snd st < colorCount)%nat)); [|done].
  intros st k Hk%elem_of_seq Hst.
  destruct (centers !! k); [|done]. cbv zeta.
  destruct (fst st); [destruct (_ <? _)|]; cbn [snd]; (done || lia).
Qed.

(** The sums a cluster holds are the sums over its points. *)
Definition summed (cluster : Cluster) : Prop :=
  sumR cluster = channelSum pixels width r (clusterPoints cluster) ∧
  sumG cluster = channelSum pixels width g (clusterPoints cluster) ∧
  sumB cluster = channelSum pixels width b (clusterPoints cluster).

(** The clusters after the pixels [gone] were assigned. *)
Definition clustered (gone : list nat) (clusters : list Cluster) : Prop :=
  length clusters = colorCount ∧
  concat (map clusterPoints clusters) ≡ₚ map (pixelOfIndex width) gone ∧
  Forall summed clusters.

Lemma clustered_empty :
  clustered []
    (replicate colorCount
       {| clusterPoints := []; sumR := 0; sumG := 0; sumB := 0 |}).
Proof.
  split; [by rewrite length_replicate|]. split.
  - assert (Hnone : ∀ n, concat (map clusterPoints (replicate n
              {| clusterPoints := []; sumR := 0; sumG := 0; sumB := 0 |}))
            = []) by (induction n; done).
    by rewrite Hnone.
  - by apply Forall_replicate.
Qed.

Lemma concat_insert_snoc (clusters : list Cluster) k cluster cluster' p :
  clusters !! k = Some cluster →
  clusterPoints cluster' = clusterPoints cluster ++ [p] →
  concat (map clusterPoints (<[k := cluster']> clusters))
  ≡ₚ concat (map clusterPoints clusters) ++ [p].
Proof.
  revert k. induction clusters as [|c l IH]; intros k Hk Hpoints; [done|].
  destruct k as [|k]; cbn [insert list_insert map concat].
  - injection Hk as ->. rewrite Hpoints.
    rewrite <- !app_assoc. apply Permutation_app_head.
    apply Permutation_app_comm.
  - cbn [lookup list_lookup] in Hk. rewrite <- app_assoc.
    apply Permutation_app_head. by apply IH.
Qed.

Lemma assign_clustered centers gone pIdx clusters :
  clustered gone clusters →
  ∃ clusters', assign pixels width centers colorCount pIdx clusters
               = Ok clusters'
    ∧ clustered (gone ++ [pIdx]) clusters'.
Proof.
  intros (Hlen & Hperm & Hsums). unfold assign.
  pose proof (closest_lt centers (colorAt pixels pIdx)) as Hbest.
  set (bestCenter := closest centers colorCount (colorAt pixels pIdx)) in *.
  destruct (lookup_lt_is_Some_2 clusters bestCenter) as [cluster Hcluster];
    [lia|].
  rewrite Hcluster. eexists. split; [done|]. split; [|split].
  - by rewrite length_insert.
  - rewrite (concat_insert_snoc clusters bestCenter cluster _
               (pixelOfIndex width pIdx)); [|done|done].
    rewrite map_app. by apply Permutation_app.
  - apply Forall_insert; [done|].
    rewrite Forall_forall in Hsums.
    destruct (Hsums cluster) as (Hr & Hg & Hb);
      [by eapply list_elem_of_lookup_2|].
    unfold summed. cbn [clusterPoints sumR sumG sumB].
    unfold pixelOfIndex in *.
    rewrite !channelSum_snoc.
    pose proof (indexOfPixel_pixelOfIndex pIdx) as Hidx.
    unfold pixelOfIndex in Hidx. rewrite Hidx. lia.
Qed.

(** One iteration over the visible pixels [valid]. *)
Lemma kmeansIteration_clustered valid st :
  ∃ clusters,
    kmeansIteration pixels width valid colorCount st
    = Ok (clusters, zip_with recenter clusters (snd st))
    ∧ clustered valid clusters.
Proof.
  unfold kmeansIteration.
  destruct (forM_prefix_total clustered
              (assign pixels width (snd st) colorCount) valid []
              (replicate colorCount
                 {| clusterPoints := []; sumR := 0; sumG := 0; sumB := 0 |})
              clustered_empty) as (clusters & -> & Hclusters).
  { intros d a t _. apply assign_clustered. }
  exists clusters. by split.
Qed.

End Kmeans.

Section Layers.
Import Quantize.
Variables (pixels : list Z) (width : nat).

(** The layers made of the clusters and their centres. *)
Definition layersOf (clusters : list Cluster) (centers : list Color)
  : list Layer :=
  filter (λ l, (0 <? length (points l))%nat = true)
    (zip_with (λ cluster center,
       {| color := center; points := clusterPoints cluster |})
       clusters centers).

Lemma layersOf_points clusters centers :
  length clusters = length centers →
  concat (map points (layersOf clusters centers))
  = concat (map clusterPoints clusters).
Proof.
  unfold layersOf. revert centers.
  induction clusters as [|c l IH]; intros [|d centers] Hlen; try done.
  cbn [zip_with map concat]. rewrite filter_cons. cbn [points].
  injection Hlen as Hlen.
  destruct (decide _) as [Hne|Hnil]; cbn [map concat points].
  - by rewrite IH.
  - rewrite IH by done.
    destruct (clusterPoints c); [done|]. by destruct Hnil.
Qed.

Lemma layersOf_nonempty clusters centers :
  Forall (λ l, points l ≠ []) (layersOf clusters centers).
Proof.
  unfold layersOf. apply Forall_forall. intros l [Hl _]%list_elem_of_filter.
  by destruct (points l).
Qed.

Lemma layersOf_length clusters centers :
  (length (layersOf clusters centers) ≤ length clusters)%nat.
Proof.
  unfold layersOf. etransitivity; [apply length_filter|].
  rewrite length_zip_with. lia.
Qed.

(** The colour of a layer is the floored mean of the colours of its
    pixels. *)
Definition meanColour (l : Layer) : Prop :=
  let count := Z.of_nat (length (points l)) in
  r (color l) = channelSum pixels width r (points l) / count ∧
  g (color l) = channelSum pixels width g (points l) / count ∧
  b (color l) = channelSum pixels width b (points l) / count.

Lemma layersOf_mean clusters centers :
  Forall (summed pixels width) clusters →
  Forall meanColour (layersOf clusters (zip_with recenter clusters centers)).
Proof.
  unfold layersOf. revert centers.
  induction clusters as [|c l IH]; intros [|d centers] Hsums; try done.
  apply Forall_cons in Hsums as [(Hr & Hg & Hb) Hsums].
  cbn [zip_with]. rewrite filter_cons. cbn [points].
  destruct (decide _) as [Hne|Hnil]; [|by apply IH].
  apply List.Forall_cons; [|by apply IH].
  unfold meanColour, recenter. cbn [points color].
  apply Nat.ltb_lt in Hne.
  destruct (Z.ltb_spec 0 (Z.of_nat (length (clusterPoints c)))); [|lia].
  cbn [r g b]. by rewrite Hr, Hg, Hb.
Qed.
End Layers.

Section Seeding.
Import Quantize.
Variables (random : nat → nat → nat) (pixels : list Z) (valid : list nat).

Lemma seedDistinct_length colorCount : ∀ left attempts centers seenColors,
  (length centers ≤ colorCount)%nat →
  (length (fst (seedDistinct random pixels valid colorCount left attempts
                  centers seenColors)) ≤ colorCount)%nat.
Proof.
  induction left as [|left IH]; intros attempts centers seenColors Hlen;
    cbn [seedDistinct]; [done|].
  destruct (Nat.ltb_spec (length centers) colorCount) as [Hlt|_]; [|done].
  destruct (existsb _ _); apply IH; [done|].
  rewrite length_app. simpl. lia.
Qed.

Lemma seedRepeat_length : ∀ missing call centers,
  length (seedRepeat random pixels valid missing call centers)
  = (length centers + missing)%nat.
Proof.
  induction missing as [|missing IH]; intros call centers; cbn [seedRepeat];
    [lia|].
  rewrite IH, length_app. simpl. lia.
Qed.
End Seeding.

Section Quantizer.
Import Quantize.
Variables (random : nat → nat → nat) (pixelData : PixelData).
Variable colorCount : nat.
Hypothesis colors_pos : (0 < colorCount)%nat.

(** What [quantizeImage] returns when at least one colour is asked for. *)
Lemma quantizeImage_layers :
  ∃ layers, quantizeImage random pixelData colorCount = Ok layers ∧
    concat (map points layers)
    ≡ₚ map (pixelOfIndex (width pixelData)) (validPixelIndices pixelData) ∧
    Forall (λ l, points l ≠ []) layers ∧
    (length layers ≤ colorCount)%nat ∧
    Forall (meanColour (pixels pixelData) (width pixelData)) layers.
Proof.
  unfold quantizeImage.
  destruct (Nat.eqb_spec (length (validPixelIndices pixelData)) 0)
    as [Hnone|Hsome].
  { exists []. apply length_zero_iff_nil in Hnone. rewrite Hnone.
    repeat split; try done. simpl. lia. }
  destruct (seedDistinct random (pixels pixelData)
              (validPixelIndices pixelData) colorCount 1000 0 [] [])
    as [seeds calls] eqn:Hseed.
  pose proof (seedDistinct_length random (pixels pixelData)
                (validPixelIndices pixelData) colorCount 1000 0 [] []) as Hle.
  rewrite Hseed in Hle. cbn [fst length] in Hle.
  set (centers := seedRepeat random (pixels pixelData)
                    (validPixelIndices pixelData)
                    (colorCount - length seeds) calls seeds).
  assert (Hcenters : length centers = colorCount).
  { unfold centers. rewrite seedRepeat_length. lia. }
  cbn [repeatM].
  destruct (kmeansIteration_clustered (pixels pixelData) (width pixelData)
              colorCount colors_pos (validPixelIndices pixelData)
              ([], centers)) as (c1 & -> & Hc1 & _ & _).
  cbn [bind snd].
  destruct (kmeansIteration_clustered (pixels pixelData) (width pixelData)
              colorCount colors_pos (validPixelIndices pixelData)
              (c1, zip_with recenter c1 centers)) as (c2 & -> & Hc2 & _ & _).
  cbn [bind snd].
  destruct (kmeansIteration_clustered (pixels pixelData) (width pixelData)
              colorCount colors_pos (validPixelIndices pixelData)
              (c2, zip_with recenter c2 (zip_with recenter c1 centers)))
    as (c3 & -> & Hc3 & Hperm & Hsums).
  cbn [bind fst snd].
  set (final := zip_with recenter c3
                  (zip_with recenter c2 (zip_with recenter c1 centers))).
  exists (layersOf c3 final). split; [done|].
  assert (Hfinal : length c3 = length final).
  { unfold final. rewrite !length_zip_with. lia. }
  split; [by rewrite layersOf_points|].
  split; [apply layersOf_nonempty|].
  split; [rewrite <- Hc3; apply layersOf_length|].
  by apply layersOf_mean.
Qed.
End Quantizer.

Lemma quantizeImage_zero (random : nat → nat → nat)
    (pixelData : Quantize.PixelData) :
  Quantize.validPixelIndices pixelData ≠ [] →
  Quantize.quantizeImage random pixelData 0 = TypeError.
Proof.
  intros Hvalid. unfold Quantize.quantizeImage.
  destruct (Quantize.validPixelIndices pixelData) as [|i valid]; [done|].
  change (length (i :: valid) =? 0)%nat with false. cbv iota.
  change (Quantize.seedDistinct random (Quantize.pixels pixelData) (i :: valid)
            0 1000 0 [] []) with (@nil Quantize.Color, 0%nat).
  cbv iota beta. cbn [length Nat.sub Quantize.seedRepeat repeatM].
  unfold Quantize.kmeansIteration at 1. cbn [replicate forM snd].
  unfold Quantize.assign. cbn [lookup list_lookup bind]. done.
Qed.

(** X20.  When at least one colour is asked for, [quantizeImage] returns,
    whatever the random draws, and its layers share out the visible pixels
    (alpha above 20): the points of all the layers together are the
    positions of the visible pixels, each one once.  No layer is empty and
    there are at most [colorCount] layers. *)
Theorem quantizeImage_shares_out_the_visible_pixels
    (random : nat → nat → nat) (pixelData : Quantize.PixelData)
    (colorCount : nat) :
  (0 < colorCount)%nat →
  ∃ layers,
    Quantize.quantizeImage random pixelData colorCount = Ok layers ∧
    concat (map Quantize.points layers)
    ≡ₚ map (pixelOfIndex (Quantize.width pixelData))
         (Quantize.validPixelIndices pixelData) ∧
    Forall (λ l, Quantize.points l ≠ []) layers ∧
    (length layers ≤ colorCount)%nat.
Proof.
  intros Hpos.
  destruct (quantizeImage_layers random pixelData colorCount Hpos)
    as (layers & Hrun & Hperm & Hne & Hlen & _).
  by exists layers.
Qed.

Lemma quantizeImage_shares_out_the_visible_pixels_witness :
  ∃ layers,
    Quantize.quantizeImage (λ _ _, 0%nat)
      (Quantize.mkPixelData 2 1 [255; 0; 0; 255; 0; 0; 255; 0]) 2 = Ok layers ∧
    concat (map Quantize.points layers)
    ≡ₚ map (pixelOfIndex 2)
         (Quantize.validPixelIndices
            (Quantize.mkPixelData 2 1 [255; 0; 0; 255; 0; 0; 255; 0])) ∧
    Forall (λ l, Quantize.points l ≠ []) layers ∧
    (length layers ≤ 2)%nat.
Proof.
  apply (quantizeImage_shares_out_the_visible_pixels (λ _ _, 0%nat)
           (Quantize.mkPixelData 2 1 [255; 0; 0; 255; 0; 0; 255; 0]) 2).
  lia.
Defined.

(** X21.  The colour of every layer that [quantizeImage] returns is the
    mean colour of the pixels of that layer, channel by channel, rounded
    down. *)
Theorem layer_colour_is_the_floored_mean_of_its_pixels
    (random : nat → nat → nat) (pixelData : Quantize.PixelData)
    (colorCount : nat) (layers : list Quantize.Layer) (l : Quantize.Layer) :
  Quantize.quantizeImage random pixelData colorCount = Ok layers →
  l ∈ layers →
  let count := Z.of_nat (length (Quantize.points l)) in
  let total := channelSum (Quantize.pixels pixelData)
                 (Quantize.width pixelData) in
  Quantize.r (Quantize.color l) = total Quantize.r (Quantize.points l) / count ∧
  Quantize.g (Quantize.color l) = total Quantize.g (Quantize.points l) / count ∧
  Quantize.b (Quantize.color l) = total Quantize.b (Quantize.points l) / count.
Proof.
  intros Hrun Hin.
  destruct colorCount as [|n].
  - destruct (Quantize.validPixelIndices pixelData) as [|i valid] eqn:Hvalid.
    + revert Hrun. unfold Quantize.quantizeImage. rewrite Hvalid.
      intros [= <-]. by apply elem_of_nil in Hin.
    + rewrite quantizeImage_zero in Hrun; [done|by rewrite Hvalid].
  - destruct (quantizeImage_layers random pixelData (S n) ltac:(lia))
      as (layers' & Hrun' & _ & _ & _ & Hmean).
    rewrite Hrun in Hrun'. injection Hrun' as <-.
    rewrite Forall_forall in Hmean. by apply Hmean.
Qed.

Lemma layer_colour_is_the_floored_mean_of_its_pixels_witness :
  Quantize.r (Quantize.mkColor 127 0 127)
  = channelSum [255; 0; 0; 255; 0; 0; 255; 255] 2 Quantize.r
      [Tracing.mkPixel 0 0; Tracing.mkPixel 1 0] / 2 ∧
  Quantize.g (Quantize.mkColor 127 0 127)
  = channelSum [255; 0; 0; 255; 0; 0; 255; 255] 2 Quantize.g
      [Tracing.mkPixel 0 0; Tracing.mkPixel 1 0] / 2 ∧
  Quantize.b (Quantize.mkColor 127 0 127)
  = channelSum [255; 0; 0; 255; 0; 0; 255; 255] 2 Quantize.b
      [Tracing.mkPixel 0 0; Tracing.mkPixel 1 0] / 2.
Proof.
  apply (layer_colour_is_the_floored_mean_of_its_pixels (λ _ _, 0%nat)
           (Quantize.mkPixelData 2 1 [255; 0; 0; 255; 0; 0; 255; 255]) 1
           [Quantize.mkLayer (Quantize.mkColor 127 0 127)
              [Tracing.mkPixel 0 0; Tracing.mkPixel 1 0]]
           (Quantize.mkLayer (Quantize.mkColor 127 0 127)
              [Tracing.mkPixel 0 0; Tracing.mkPixel 1 0])).
  - vm_compute. reflexivity.
  - apply list_elem_of_here.
Defined.

(** X22.  Asking for no colour at all makes [quantizeImage] throw as soon
    as the image has a visible pixel: the first pixel is assigned to the
    cluster [clusters[0]], which does not exist.  A fully transparent image
    gives the empty list of layers, whatever the number of colours. *)
Theorem quantizeImage_without_colours_throws
    (random : nat → nat → nat) (pixelData : Quantize.PixelData) :
  (Quantize.validPixelIndices pixelData ≠ [] →
   Quantize.quantizeImage random pixelData 0 = TypeError) ∧
  (Quantize.validPixelIndices pixelData = [] →
   ∀ colorCount, Quantize.quantizeImage random pixelData colorCount = Ok []).
Proof.
  split; [apply quantizeImage_zero|].
  intros Hnone colorCount. unfold Quantize.quantizeImage.
  by rewrite Hnone.
Qed.

Lemma quantizeImage_without_colours_throws_witness :
  Quantize.quantizeImage (λ _ _, 0%nat)
    (Quantize.mkPixelData 1 1 [255; 0; 0; 255]) 0 = TypeError ∧
  Quantize.quantizeImage (λ _ _, 0%nat)
    (Quantize.mkPixelData 1 1 [255; 0; 0; 0]) 8 = Ok [].
Proof.
  split.
  - apply (proj1 (quantizeImage_without_colours_throws (λ _ _, 0%nat)
                    (Quantize.mkPixelData 1 1 [255; 0; 0; 255]))).
    vm_compute. discriminate.
  - apply (proj2 (quantizeImage_without_colours_throws (λ _ _, 0%nat)
                    (Quantize.mkPixelData 1 1 [255; 0; 0; 0]))).
    vm_compute. reflexivity.
Defined.

(** * From a layer to its dilated mask *)

(** The position lies inside an image of [h] rows of [w] pixels. *)
Definition insideImage (h w : nat) (p : Tracing.Pixel) : Prop :=
  0 ≤ Tracing.ix p < Z.of_nat w ∧ 0 ≤ Tracing.iy p < Z.of_nat h.

Section LayerMask.
Import Quantize.
Variables (h w : nat).

Lemma insideImage_pixelOf p :
  insideImage h w p →
  p = pixelOf (Z.to_nat (Tracing.iy p)) (Z.to_nat (Tracing.ix p))
  ∧ (Z.to_nat (Tracing.iy p) < h)%nat ∧ (Z.to_nat (Tracing.ix p) < w)%nat.
Proof.
  intros [Hx Hy]. destruct p as [x y]. unfold pixelOf.
  cbn [Tracing.ix Tracing.iy] in *. split; [f_equal; lia|lia].
Qed.

(** The mask after the points [gone] were marked. *)
Definition marked (gone : list Tracing.Pixel) (mask : Mask) : Prop :=
  rect h w mask ∧
  ∀ y x, (y < h)%nat → (x < w)%nat →
    (pixelAt mask y x = Some 1 ∨ pixelAt mask y x = Some 0) ∧
    (pixelAt mask y x = Some 1 ↔ pixelOf y x ∈ gone).

(** Inside a mask of [h] rows of [w] cells the write changes one cell. *)
Lemma markPoint_inside p mask row :
  rect h w mask → 0 ≤ Tracing.ix p < Z.of_nat w → 0 ≤ Tracing.iy p →
  mask !! Z.to_nat (Tracing.iy p) = Some row →
  markPoint p mask
  = Ok (setPixel mask (Z.to_nat (Tracing.iy p)) (Z.to_nat (Tracing.ix p)) 1).
Proof.
  intros Hrect Hx Hy Hrow. unfold markPoint. cbv zeta.
  destruct (Z.ltb_spec (Tracing.iy p) 0); [lia|].
  rewrite Hrow. destruct (Z.ltb_spec (Tracing.ix p) 0); [lia|].
  rewrite (rect_row _ _ _ _ _ Hrect Hrow).
  by destruct (Nat.ltb_spec (Z.to_nat (Tracing.ix p)) w); [|lia].
Qed.

Lemma marked_init : marked [] (newGrid h w 0).
Proof.
  split; [apply rect_newGrid|]. intros y x Hy Hx.
  rewrite pixelAt_newGrid by done. split; [by right|].
  split; [done|]. by intros ?%elem_of_nil.
Qed.

Lemma markPoint_marked gone p mask :
  insideImage h w p → marked gone mask →
  ∃ mask', markPoint p mask = Ok mask' ∧ marked (gone ++ [p]) mask'.
Proof.
  intros Hin [Hrect Hcells].
  destruct (insideImage_pixelOf p Hin) as (Hp & Hy & Hx).
  destruct (lookup_lt_is_Some_2 mask (Z.to_nat (Tracing.iy p))) as [row Hrow];
    [destruct Hrect; lia|].
  rewrite (markPoint_inside p mask row) by (done || apply Hin).
  eexists. split; [done|]. split; [by apply rect_setPixel|].
  intros y x Hy' Hx'.
  destruct (decide ((Z.to_nat (Tracing.iy p), Z.to_nat (Tracing.ix p))
                    = (y, x))) as [[= <- <-]|Hne].
  - rewrite (pixelAt_setPixel_eq h w) by done. split; [by left|].
    split; [|done]. intros _. apply elem_of_app. right.
    rewrite <- Hp. apply list_elem_of_here.
  - rewrite pixelAt_setPixel_ne by done.
    destruct (Hcells y x Hy' Hx') as [Hbin Hiff]. split; [done|].
    rewrite Hiff. split.
    + intros Hg. apply elem_of_app. by left.
    + intros [Hg|Hg%list_elem_of_singleton]%elem_of_app; [done|].
      rewrite Hp in Hg. unfold pixelOf in Hg. injection Hg as Hx'' Hy''.
      destruct Hne. f_equal; lia.
Qed.

Lemma layerToMask_marked layerPoints :
  Forall (insideImage h w) layerPoints →
  ∃ mask, layerToMask layerPoints w h = Ok mask ∧ marked layerPoints mask.
Proof.
  intros Hall. unfold layerToMask.
  apply (forM_prefix_total marked markPoint layerPoints [] _ marked_init).
  intros d p t Hp. apply markPoint_marked.
  rewrite Forall_forall in Hall. by apply Hall.
Qed.

Lemma markPoints_throw layerPoints : ∀ mask,
  rect h w mask →
  Forall (λ p, 0 ≤ Tracing.ix p < Z.of_nat w ∧ 0 ≤ Tracing.iy p) layerPoints →
  Exists (λ p, Z.of_nat h ≤ Tracing.iy p) layerPoints →
  forM layerPoints markPoint mask = TypeError.
Proof.
  induction layerPoints as [|p l IH]; intros mask Hrect Hall Hbad.
  - by apply Exists_nil in Hbad.
  - apply Forall_cons in Hall as [[Hx Hy] Hall]. cbn [forM].
    destruct (mask !! Z.to_nat (Tracing.iy p)) as [row|] eqn:Hrow.
    2:{ unfold markPoint. cbv zeta. rewrite Hrow.
        by destruct (Tracing.iy p <? 0). }
    rewrite (markPoint_inside p mask row) by done.
    cbn [bind]. apply IH; [by apply rect_setPixel|done|].
    apply Exists_cons in Hbad as [Hp|Hl]; [|done].
    apply lookup_lt_Some in Hrow. destruct Hrect as [Hlen _]. lia.
Qed.
End LayerMask.

Lemma elem_of_concat {A : Type} (x : A) l ls :
  x ∈ l → l ∈ ls → x ∈ concat ls.
Proof.
  intros Hx. induction 1 as [l ls|l l' ls Hl IH]; cbn [concat];
    apply elem_of_app; auto.
Qed.

Section Coverage.
Import Quantize.
Variable pixelData : PixelData.

Lemma coverageMask_rect :
  rect (height pixelData) (width pixelData) (Main.coverageMask pixelData).
Proof.
  unfold Main.coverageMask. split.
  - by rewrite length_map, length_seq.
  - apply Forall_forall. intros row (y & -> & _)%list_elem_of_fmap.
    by rewrite length_map, length_seq.
Qed.

Lemma coverageMask_cell y x :
  (y < height pixelData)%nat → (x < width pixelData)%nat →
  pixelAt (Main.coverageMask pixelData) y x
  = Some (if visible (pixels pixelData) (y * width pixelData + x)%nat
          then 1 else 0).
Proof.
  intros Hy Hx. unfold pixelAt, Main.coverageMask.
  rewrite list_lookup_fmap, lookup_seq_lt by done. cbn [fmap option_fmap
    option_map]. rewrite list_lookup_fmap, lookup_seq_lt by done. done.
Qed.

(** A visible pixel lies inside the image and inside the coverage mask. *)
Lemma valid_pixel_covered i :
  i ∈ validPixelIndices pixelData →
  insideImage (height pixelData) (width pixelData)
    (pixelOfIndex (width pixelData) i) ∧
  pixelAt (Main.coverageMask pixelData) (i / width pixelData)
    (i mod width pixelData) = Some 1.
Proof.
  unfold validPixelIndices.
  intros [Hvis Hi%elem_of_seq]%list_elem_of_filter.
  assert (Hw : (0 < width pixelData)%nat) by nia.
  assert (Hx : (i mod width pixelData < width pixelData)%nat)
    by (apply Nat.mod_upper_bound; lia).
  assert (Hy : (i / width pixelData < height pixelData)%nat)
    by (apply Nat.Div0.div_lt_upper_bound; lia).
  split.
  - unfold insideImage, pixelOfIndex. cbn [Tracing.ix Tracing.iy]. lia.
  - rewrite coverageMask_cell by done.
    replace (i / width pixelData * width pixelData + i mod width pixelData)%nat
      with i by (pose proof (Nat.div_mod_eq i (width pixelData)); lia).
    by rewrite Hvis.
Qed.

Lemma layer_point_covered random colorCount layers layer p :
  quantizeImage random pixelData colorCount = Ok layers →
  layer ∈ layers → p ∈ points layer →
  insideImage (height pixelData) (width pixelData) p ∧
  pixelAt (Main.coverageMask pixelData) (Z.to_nat (Tracing.iy p))
    (Z.to_nat (Tracing.ix p)) = Some 1.
Proof.
  intros Hrun Hlayer Hp.
  assert (Hvalid : ∃ i, i ∈ validPixelIndices pixelData
                        ∧ p = pixelOfIndex (width pixelData) i).
  { destruct colorCount as [|n].
    - destruct (validPixelIndices pixelData) as [|i valid] eqn:Hvalid.
      + revert Hrun. unfold quantizeImage. rewrite Hvalid.
        intros [= <-]. by apply elem_of_nil in Hlayer.
      + rewrite quantizeImage_zero in Hrun; [done|by rewrite Hvalid].
    - destruct (quantizeImage_layers random pixelData (S n) ltac:(lia))
        as (layers' & Hrun' & Hperm & _).
      rewrite Hrun in Hrun'. injection Hrun' as <-.
      assert (Hin : p ∈ concat (map points layers)).
      { apply (elem_of_concat p (points layer)); [done|].
        by apply list_elem_of_fmap_2. }
      rewrite Hperm in Hin. apply list_elem_of_fmap in Hin as (i & -> & Hi).
      eauto. }
  destruct Hvalid as (i & Hi & ->).
  destruct (valid_pixel_covered i Hi) as [Hin Hcov]. split; [done|].
  unfold pixelOfIndex. cbn [Tracing.ix Tracing.iy]. by rewrite !Nat2Z.id.
Qed.
End Coverage.

(** X23.  [layerToMask] draws the layer: for points inside the image it
    returns a mask of [height] rows of [width] cells that holds 1 exactly at
    the positions of the points and 0 elsewhere.  A point below the last row
    makes it throw. *)
Theorem layerToMask_marks_exactly_the_layer_points
    (layerPoints : list Tracing.Pixel) (width height : nat) :
  (Forall (insideImage height width) layerPoints →
   ∃ mask, Quantize.layerToMask layerPoints width height = Ok mask ∧
     rect height width mask ∧
     ∀ y x, (y < height)%nat → (x < width)%nat →
       (pixelAt mask y x = Some 1 ∨ pixelAt mask y x = Some 0) ∧
       (pixelAt mask y x = Some 1 ↔ pixelOf y x ∈ layerPoints)) ∧
  (Forall (λ p, 0 ≤ Tracing.ix p < Z.of_nat width ∧ 0 ≤ Tracing.iy p)
     layerPoints →
   Exists (λ p, Z.of_nat height ≤ Tracing.iy p) layerPoints →
   Quantize.layerToMask layerPoints width height = TypeError).
Proof.
  split.
  - intros Hall.
    destruct (layerToMask_marked height width layerPoints Hall)
      as (mask & Hrun & Hrect & Hcells).
    by exists mask.
  - intros Hall Hbad. unfold Quantize.layerToMask.
    apply (markPoints_throw height width); [apply rect_newGrid|done|done].
Qed.

Lemma layerToMask_marks_exactly_the_layer_points_witness :
  (∃ mask, Quantize.layerToMask [Tracing.mkPixel 1 0] 2 1 = Ok mask ∧
     rect 1 2 mask ∧
     ∀ y x, (y < 1)%nat → (x < 2)%nat →
       (pixelAt mask y x = Some 1 ∨ pixelAt mask y x = Some 0) ∧
       (pixelAt mask y x = Some 1 ↔ pixelOf y x ∈ [Tracing.mkPixel 1 0])) ∧
  Quantize.layerToMask [Tracing.mkPixel 1 1] 2 1 = TypeError.
Proof.
  split.
  - apply (proj1 (layerToMask_marks_exactly_the_layer_points
                    [Tracing.mkPixel 1 0] 2 1)).
    apply List.Forall_cons; [|apply List.Forall_nil].
    unfold insideImage. simpl. lia.
  - apply (proj2 (layerToMask_marks_exactly_the_layer_points
                    [Tracing.mkPixel 1 1] 2 1)).
    + apply List.Forall_cons; [simpl; lia|apply List.Forall_nil].
    + apply List.Exists_cons_hd. simpl. lia.
Defined.

(** X24.  The layers fit the rest of the pipeline: every point of every
    layer that [quantizeImage] returns lies inside the image and is a 1 of
    the coverage mask that [main] builds, so [layerToMask] draws the layer
    without throwing, [dilateHybrid] returns for any options, and the dilated
    mask still holds a 1 at every point of the layer. *)
Theorem layer_pixels_survive_the_dilation
    (random : nat → nat → nat) (pixelData : Quantize.PixelData)
    (colorCount : nat) (options : Dilate.Options)
    (layers : list Quantize.Layer) (layer : Quantize.Layer) :
  Quantize.quantizeImage random pixelData colorCount = Ok layers →
  layer ∈ layers →
  ∃ mask dilated,
    Quantize.layerToMask (Quantize.points layer)
      (Quantize.width pixelData) (Quantize.height pixelData) = Ok mask ∧
    Dilate.dilateHybrid mask (Main.coverageMask pixelData) options
    = Ok dilated ∧
    ∀ p, p ∈ Quantize.points layer →
      insideImage (Quantize.height pixelData) (Quantize.width pixelData) p ∧
      pixelAt (Main.coverageMask pixelData)
        (Z.to_nat (Tracing.iy p)) (Z.to_nat (Tracing.ix p)) = Some 1 ∧
      pixelAt dilated
        (Z.to_nat (Tracing.iy p)) (Z.to_nat (Tracing.ix p)) = Some 1.
Proof.
  intros Hrun Hlayer.
  pose proof (layer_point_covered pixelData random colorCount layers layer)
    as Hcov.
  destruct (layerToMask_marked (Quantize.height pixelData)
              (Quantize.width pixelData) (Quantize.points layer))
    as (mask & Hmask & Hrect & Hcells).
  { apply Forall_forall. intros p Hp. by apply Hcov. }
  assert (Hh : (0 < Quantize.height pixelData)%nat).
  { destruct (Quantize.validPixelIndices pixelData) as [|i valid] eqn:Hvalid.
    - revert Hrun. unfold Quantize.quantizeImage. rewrite Hvalid.
      intros [= <-]. by apply elem_of_nil in Hlayer.
    - destruct (valid_pixel_covered pixelData i) as [[_ Hy] _];
        [rewrite Hvalid; apply list_elem_of_here|].
      unfold pixelOfIndex in Hy. cbn [Tracing.iy] in Hy. lia. }
  destruct (dilateHybrid_keeps_covered (Quantize.height pixelData)
              (Quantize.width pixelData) (Main.coverageMask pixelData) Hh
              (coverageMask_rect pixelData) mask options Hrect)
    as (dilated & Hdilated & _ & Hkeep).
  exists mask, dilated. split; [done|]. split; [done|].
  intros p Hp. destruct (Hcov p Hrun Hlayer Hp) as [Hin Hc].
  split; [done|]. split; [done|].
  apply Hkeep; [|done].
  destruct (insideImage_pixelOf _ _ p Hin) as (Heq & Hy & Hx).
  apply (Hcells _ _ Hy Hx). by rewrite <- Heq.
Qed.

Lemma layer_pixels_survive_the_dilation_witness :
  ∃ mask dilated,
    Quantize.layerToMask [Tracing.mkPixel 0 0] 1 1 = Ok mask ∧
    Dilate.dilateHybrid mask (Main.coverageMask onePixel) Dilate.defaultOptions
    = Ok dilated ∧
    ∀ p, p ∈ [Tracing.mkPixel 0 0] →
      insideImage 1 1 p ∧
      pixelAt (Main.coverageMask onePixel)
        (Z.to_nat (Tracing.iy p)) (Z.to_nat (Tracing.ix p)) = Some 1 ∧
      pixelAt dilated
        (Z.to_nat (Tracing.iy p)) (Z.to_nat (Tracing.ix p)) = Some 1.
Proof.
  apply (layer_pixels_survive_the_dilation (λ _ _, 0%nat) onePixel 1
           Dilate.defaultOptions
           [Quantize.mkLayer (Quantize.mkColor 255 0 0) [Tracing.mkPixel 0 0]]
           (Quantize.mkLayer (Quantize.mkColor 255 0 0) [Tracing.mkPixel 0 0])).
  - vm_compute. reflexivity.
  - apply list_elem_of_here.
Defined.

(** * The assembly of the shapes *)

(** The shapes come largest first. *)
Definition largestFirst (shapes : list Main.Shape) : Prop :=
  ∀ i j a b, (i < j)%nat → shapes !! i = Some a → shapes !! j = Some b →
    (Main.area b <= Main.area a)%R.

Section Sorting.
Import Geometry Main.
Open Scope R_scope.

Fixpoint descending (l : list Shape) : Prop :=
  match l with
  | [] => True
  | a :: l' => Forall (λ b, area b <= area a) l' ∧ descending l'
  end.

Lemma insertShape_descending a sorted :
  descending sorted → descending (insertShape a sorted).
Proof.
  induction sorted as [|b sorted IH]; intros Hs; cbn [insertShape].
  - by split.
  - destruct Hs as [Hb Hs].
    destruct (Rltb (area a) (area b)) eqn:Hab.
    + apply Rltb_spec in Hab. split; [|by apply IH].
      apply insertShape_Forall; [lra|done].
    + apply Rltb_spec_false in Hab. split; [|by split].
      apply List.Forall_cons; [done|].
      eapply Forall_impl; [exact Hb|]. intros c Hc. simpl in Hc. lra.
Qed.

Lemma sortShapes_descending_all shapes : descending (sortShapes shapes).
Proof.
  unfold sortShapes. induction shapes as [|a l IH]; cbn [foldr]; [done|].
  by apply insertShape_descending.
Qed.

Lemma descending_largestFirst l : descending l → largestFirst l.
Proof.
  induction l as [|a l IH]; intros Hl i j u v Hij Hu Hv.
  - by rewrite lookup_nil in Hu.
  - destruct Hl as [Ha Hl]. destruct j as [|j]; [lia|].
    cbn [lookup list_lookup] in Hv. destruct i as [|i].
    + injection Hu as <-. rewrite Forall_forall in Ha. apply Ha.
      by eapply list_elem_of_lookup_2.
    + cbn [lookup list_lookup] in Hu. apply (IH Hl i j); [lia|done|done].
Qed.

Lemma insertShape_Permutation a sorted : insertShape a sorted ≡ₚ a :: sorted.
Proof.
  induction sorted as [|b sorted IH]; cbn [insertShape]; [done|].
  destruct (Rltb _ _); [|done].
  rewrite IH. apply Permutation_swap.
Qed.

Lemma sortShapes_Permutation shapes : sortShapes shapes ≡ₚ shapes.
Proof.
  unfold sortShapes. induction shapes as [|a l IH]; cbn [foldr]; [done|].
  rewrite insertShape_Permutation. by rewrite IH.
Qed.
End Sorting.

Section Assembly.
Import Geometry Main.
Open Scope R_scope.
Variables (random : nat → nat → nat) (config : Config).
Variable pixelData : Quantize.PixelData.
Hypothesis epsilon_nonneg : 0 <= simplifyEpsilon config.

(** What every shape of the output satisfies. *)
Definition accepted (s : Shape) : Prop :=
  minArea config <= area s ∧ isHole s = false.

Lemma toShape_total fill contour :
  Tracing.isHole contour = false →
  ∃ o, toShape config fill contour = Ok o ∧ ∀ s, o = Some s → accepted s.
Proof.
  intros Hhole. unfold toShape. rewrite getPolygonArea_shoelace. cbn [bind].
  destruct (Rltb _ (minArea config)) eqn:Hsmall; [by exists None|].
  apply Rltb_spec_false in Hsmall.
  destruct (smoothPoints_passes (λ _, True)
              (map toPoint (Tracing.points contour)) (smoothingIters config))
    as (smoothed & -> & _ & _); [done|by apply Forall_true|].
  cbn [bind].
  destruct (simplifyPath_total (simplifyEpsilon config) (length smoothed)
              smoothed epsilon_nonneg) as [simplified ->]; [done|].
  cbn [bind].
  destruct (fitCurves_kept simplified) as (clean & curves & _ & -> & _).
  cbn [bind]. eexists. split; [done|]. intros s [= <-]. by split.
Qed.

Lemma processLayer_total layers layer allShapes colors :
  Quantize.quantizeImage random pixelData colors = Ok layers →
  layer ∈ layers → Forall accepted allShapes →
  ∃ shapes,
    processLayer config pixelData (coverageMask pixelData) layer allShapes
    = Ok shapes ∧ Forall accepted shapes.
Proof.
  intros Hrun Hlayer Hall. unfold processLayer.
  pose proof (layer_point_covered pixelData random colors layers layer)
    as Hcov.
  destruct (layerToMask_marked (Quantize.height pixelData)
              (Quantize.width pixelData) (Quantize.points layer))
    as (mask & -> & Hrect & _).
  { apply Forall_forall. intros p Hp. by apply Hcov. }
  cbn [bind].
  assert (Hh : (0 < Quantize.height pixelData)%nat).
  { destruct (Quantize.validPixelIndices pixelData) as [|i valid] eqn:Hvalid.
    - revert Hrun. unfold Quantize.quantizeImage. rewrite Hvalid.
      intros [= <-]. by apply elem_of_nil in Hlayer.
    - destruct (valid_pixel_covered pixelData i) as [[_ Hy] _];
        [rewrite Hvalid; apply list_elem_of_here|].
      unfold pixelOfIndex in Hy. cbn [Tracing.iy] in Hy. lia. }
  destruct (dilateHybrid_keeps_covered (Quantize.height pixelData)
              (Quantize.width pixelData) (coverageMask pixelData) Hh
              (coverageMask_rect pixelData) mask (dilation config) Hrect)
    as (dilated & -> & Hdrect & _).
  cbn [bind].
  destruct (lookup_lt_is_Some_2 dilated 0%nat) as [row0 Hrow0];
    [destruct Hdrect; lia|].
  destruct (traceContours_returns dilated row0 Hrow0) as [contours Htrace].
  rewrite Htrace. cbn [bind].
  destruct (mapM_total (λ o, ∀ s, o = Some s → accepted s)
              (toShape config (Quantize.color layer)) contours)
    as (found & -> & _ & Hfound).
  { intros c Hc. apply toShape_total.
    by apply (traceContours_noHoles dilated contours). }
  cbn [bind]. eexists. split; [done|]. apply Forall_app. split; [done|].
  by apply notNull_Forall.
Qed.

Lemma assemble_total :
  (0 < colorCount config)%nat →
  ∃ shapes, assemble random config pixelData = Ok shapes ∧
    Forall accepted shapes ∧ largestFirst shapes.
Proof.
  intros Hcolors. unfold assemble.
  destruct (quantizeImage_layers random pixelData (colorCount config) Hcolors)
    as (layers & Hrun & _).
  rewrite Hrun. cbn [bind].
  destruct (forM_total (Forall accepted) layers
              (processLayer config pixelData (coverageMask pixelData)) [])
    as (allShapes & -> & Hall); [|done|].
  { intros layer t Hlayer Ht. by apply (processLayer_total layers _ _ _ Hrun). }
  cbn [bind]. eexists. split; [done|]. split.
  - by apply sortShapes_Forall.
  - apply descending_largestFirst, sortShapes_descending_all.
Qed.
End Assembly.

(** X25.  The assembly never fails: with at least one colour and a
    simplification tolerance that is not negative, the part of [main] from
    the quantizer to the sort returns for every image and every random
    draw, and so it does with the configuration of [main] itself.  The
    shapes come largest area first; every shape has at least the area
    [minArea], and none is marked as a hole. *)
Theorem assemble_returns_shapes_largest_first
    (random : nat → nat → nat) (config : Main.Config)
    (pixelData : Quantize.PixelData) :
  ((0 < Main.colorCount config)%nat →
   (0 <= Main.simplifyEpsilon config)%R →
   ∃ shapes, Main.assemble random config pixelData = Ok shapes ∧
     Forall (λ s, (Main.minArea config <= Main.area s)%R
                  ∧ Main.isHole s = false) shapes ∧
     largestFirst shapes) ∧
  ∃ shapes, Main.main random pixelData = Ok shapes ∧
    Forall (λ s, (10 <= Main.area s)%R ∧ Main.isHole s = false) shapes ∧
    largestFirst shapes.
Proof.
  split.
  - intros Hcolors Heps.
    by apply (assemble_total random config pixelData Heps).
  - unfold Main.main.
    destruct (assemble_total random Main.CONFIG pixelData) as
      (shapes & Hrun & Hall & Hsorted).
    + cbn [Main.simplifyEpsilon Main.CONFIG]. lra.
    + cbn [Main.colorCount Main.CONFIG]. lia.
    + by exists shapes.
Qed.

Lemma assemble_returns_shapes_largest_first_witness :
  ∃ shapes, Main.assemble (λ _ _, 0%nat) keepAll onePixel = Ok shapes ∧
    Forall (λ s, (Main.minArea keepAll <= Main.area s)%R
                 ∧ Main.isHole s = false) shapes ∧
    largestFirst shapes.
Proof.
  apply (proj1 (assemble_returns_shapes_largest_first (λ _ _, 0%nat)
                  keepAll onePixel)).
  - simpl. lia.
  - simpl. lra.
Defined.

Section SmallAreas.
Import Geometry Main.
Open Scope R_scope.

Lemma shoelace_small points :
  (length points < 3)%nat → shoelace points = 0.
Proof.
  destruct points as [|p [|q [|r l]]]; intros Hlen;
    [| | |simpl in Hlen; lia]; unfold shoelace, cross, vertex; cbn; ring.
Qed.

Lemma getPolygonArea_small points :
  (length points < 3)%nat → getPolygonArea points = Ok 0.
Proof.
  intros Hlen. rewrite getPolygonArea_shoelace, shoelace_small by done.
  rewrite Rabs_R0. f_equal. lra.
Qed.
End SmallAreas.

(** X26.  A contour of fewer than three points has area 0, and [main]
    drops it whenever [minArea] is positive: [getPolygonArea] returns 0 for
    it and the callback of [contours.map] returns [null]. *)
Theorem contour_of_fewer_than_three_points_has_no_area
    (config : Main.Config) (fill : Quantize.Color)
    (contour : Tracing.Contour) :
  (length (Tracing.points contour) < 3)%nat →
  Main.getPolygonArea (map Main.toPoint (Tracing.points contour)) = Ok 0%R ∧
  ((0 < Main.minArea config)%R → Main.toShape config fill contour = Ok None).
Proof.
  intros Hlen.
  assert (Harea : Main.getPolygonArea
                    (map Main.toPoint (Tracing.points contour)) = Ok 0%R).
  { apply getPolygonArea_small. by rewrite length_map. }
  split; [done|]. intros Hmin. unfold Main.toShape. rewrite Harea.
  cbn [bind]. by rewrite Rltb_true.
Qed.

Lemma contour_of_fewer_than_three_points_has_no_area_witness :
  Main.getPolygonArea
    (map Main.toPoint [Tracing.mkPixel 4 7; Tracing.mkPixel 5 7]) = Ok 0%R ∧
  ((0 < Main.minArea Main.CONFIG)%R →
   Main.toShape Main.CONFIG (Quantize.mkColor 1 2 3)
     {| Tracing.points := [Tracing.mkPixel 4 7; Tracing.mkPixel 5 7];
        Tracing.isHole := false |} = Ok None).
Proof.
  apply (contour_of_fewer_than_three_points_has_no_area Main.CONFIG
           (Quantize.mkColor 1 2 3)
           {| Tracing.points := [Tracing.mkPixel 4 7; Tracing.mkPixel 5 7];
              Tracing.isHole := false |}).
  simpl. lia.
Defined.

Section Noise.
Import Geometry Smoothing.
Open Scope R_scope.

Lemma aboveNoise_area minArea contour :
  aboveNoise minArea contour
  = Ok (Rltb minArea (Rabs (shoelace contour) / 2)).
Proof.
  unfold aboveNoise.
  change (noiseAreaStep contour) with (Main.areaStep contour).
  rewrite area_loop; [done|].
  apply Forall_forall. intros i Hi%elem_of_seq. lia.
Qed.

Lemma filterM_filter {A : Type} (f : A → outcome bool) (g : A → bool) l :
  (∀ a, f a = Ok (g a)) → filterM f l = Ok (List.filter g l).
Proof.
  intros Hf. induction l as [|a l IH]; cbn [filterM List.filter]; [done|].
  rewrite Hf, IH. cbn [bind]. done.
Qed.

Lemma filter_sublist {A : Type} (g : A → bool) l :
  sublist (List.filter g l) l.
Proof.
  induction l as [|a l IH]; cbn [List.filter]; [done|].
  destruct (g a); [by apply sublist_skip|by apply sublist_cons].
Qed.
End Noise.

(** X27.  [filterNoise] never throws; it keeps, in their order, exactly
    the contours whose area, as [getPolygonArea] computes it, is greater
    than [minArea].  A contour whose area equals [minArea] is dropped (where
    the filter of [main] keeps it). *)
Theorem filterNoise_keeps_the_contours_above_minArea
    (contours : list (list Geometry.Point)) (minArea : R) :
  ∃ kept, Smoothing.filterNoise contours minArea = Ok kept ∧
    sublist kept contours ∧
    (∀ c, c ∈ kept ↔
          c ∈ contours ∧
          ∃ a, Main.getPolygonArea c = Ok a ∧ (minArea < a)%R).
Proof.
  exists (List.filter
            (λ c, Geometry.Rltb minArea (Rabs (shoelace c) / 2)) contours).
  split; [apply filterM_filter; intros c; apply aboveNoise_area|].
  split; [apply filter_sublist|].
  assert (Hin : ∀ c,
    c ∈ List.filter (λ c, Geometry.Rltb minArea (Rabs (shoelace c) / 2))
          contours ↔
    c ∈ contours ∧ (minArea < Rabs (shoelace c) / 2)%R).
  { intros c. rewrite !list_elem_of_In, filter_In, Rltb_spec. done. }
  intros c. rewrite Hin. split.
  - intros [Hc Hfar]. split; [done|]. eexists.
    split; [apply getPolygonArea_shoelace|done].
  - intros [Hc (a & Ha & Hfar)]. split; [done|].
    rewrite getPolygonArea_shoelace in Ha. by injection Ha as <-.
Qed.

(** The unit square, of area 1, is kept with [minArea = 1/2], and the
    triangle of area 1/2 before it is dropped. *)
Lemma filterNoise_keeps_the_contours_above_minArea_witness :
  ∃ kept,
    Smoothing.filterNoise
      [ [Geometry.mkPoint 0 0; Geometry.mkPoint 1 0; Geometry.mkPoint 0 1];
        [Geometry.mkPoint 0 0; Geometry.mkPoint 1 0; Geometry.mkPoint 1 1;
         Geometry.mkPoint 0 1] ] (/ 2)
    = Ok kept ∧
    [Geometry.mkPoint 0 0; Geometry.mkPoint 1 0; Geometry.mkPoint 1 1;
     Geometry.mkPoint 0 1] ∈ kept ∧
    [Geometry.mkPoint 0 0; Geometry.mkPoint 1 0; Geometry.mkPoint 0 1] ∉ kept.
Proof.
  destruct (filterNoise_keeps_the_contours_above_minArea
              [ [Geometry.mkPoint 0 0; Geometry.mkPoint 1 0;
                 Geometry.mkPoint 0 1];
                [Geometry.mkPoint 0 0; Geometry.mkPoint 1 0;
                 Geometry.mkPoint 1 1; Geometry.mkPoint 0 1] ] (/ 2))
    as (kept & Hrun & _ & Hkept).
  exists kept. split; [exact Hrun|]. split.
  - apply Hkept. split; [apply list_elem_of_further, list_elem_of_here|].
    exists 1%R. split; [|lra].
    rewrite getPolygonArea_shoelace. f_equal.
    unfold shoelace, cross, vertex. cbn.
    rewrite Rabs_right by lra. lra.
  - intros [_ (a & Ha & Hfar)]%Hkept.
    rewrite getPolygonArea_shoelace in Ha. injection Ha as <-.
    revert Hfar. unfold shoelace, cross, vertex. cbn.
    rewrite Rabs_right by lra. lra.
Defined.

(** * The text of the document *)

Section SvgText.
Import Svg String Ascii.
Open Scope string_scope.

(** The digit a value below 16 is written with, in upper case. *)
Definition digitOf (d : Z) : ascii :=
  match get (Z.to_nat d) "0123456789ABCDEF" with
  | Some c => c
  | None => " "%char
  end.

(** The two upper-case hexadecimal digits of a byte. *)
Definition hexByte (v : Z) : string :=
  String (digitOf (v / 16)) (String (digitOf (v mod 16)) "").

(** The strings of a list, one after the other. *)
Definition joined (l : list string) : string := fold_right append "" l.

Lemma sixteen_cases d :
  0 <= d < 16 →
  d = 0 ∨ d = 1 ∨ d = 2 ∨ d = 3 ∨ d = 4 ∨ d = 5 ∨ d = 6 ∨ d = 7 ∨ d = 8 ∨
  d = 9 ∨ d = 10 ∨ d = 11 ∨ d = 12 ∨ d = 13 ∨ d = 14 ∨ d = 15.
Proof. lia. Qed.

Lemma upper_hexDigit d : 0 <= d < 16 → upper (hexDigit d) = digitOf d.
Proof.
  intros Hd. destruct (sixteen_cases d Hd) as
    [->|[->|[->|[->|[->|[->|[->|[->|[->|[->|[->|[->|[->|[->|[->| ->]]]]]]]]]]]]]]];
    reflexivity.
Qed.

Lemma digitOf_inj d d' :
  0 <= d < 16 → 0 <= d' < 16 → digitOf d = digitOf d' → d = d'.
Proof.
  intros Hd Hd'.
  destruct (sixteen_cases d Hd) as
    [->|[->|[->|[->|[->|[->|[->|[->|[->|[->|[->|[->|[->|[->|[->| ->]]]]]]]]]]]]]]];
  destruct (sixteen_cases d' Hd') as
    [->|[->|[->|[->|[->|[->|[->|[->|[->|[->|[->|[->|[->|[->|[->| ->]]]]]]]]]]]]]]];
  intros H; try reflexivity; vm_compute in H; discriminate H.
Qed.

Lemma hexByte_inj v v' :
  0 <= v <= 255 → 0 <= v' <= 255 → hexByte v = hexByte v' → v = v'.
Proof.
  intros Hv Hv' [= Hhi Hlo].
  apply digitOf_inj in Hhi; [|Z.div_mod_to_equations; lia..].
  apply digitOf_inj in Hlo; [|Z.div_mod_to_equations; lia..].
  Z.div_mod_to_equations; lia.
Qed.

Lemma toInt32_small n : 0 <= n < 2 ^ 31 → toInt32 n = n.
Proof.
  intros Hn. unfold toInt32. cbv zeta.
  change (2 ^ 31) with 2147483648 in *. change (2 ^ 32) with 4294967296.
  rewrite Z.mod_small by lia.
  destruct (Z.ltb_spec n 2147483648); [reflexivity | lia].
Qed.

Lemma shl_small v k :
  0 <= k → 0 <= v < 2 ^ 31 → v * 2 ^ k < 2 ^ 31 → shl v k = v * 2 ^ k.
Proof.
  intros Hk Hv Hlt. unfold shl. rewrite (toInt32_small v) by done.
  rewrite Z.shiftl_mul_pow2 by done. apply toInt32_small.
  split; [|done]. apply Z.mul_nonneg_nonneg; [lia|]. apply Z.pow_nonneg. lia.
Qed.

Lemma hexDigits_step fuel m d acc :
  0 <= d < 16 → 0 < m →
  hexDigits (S fuel) (16 * m + d) acc
  = hexDigits fuel m (String (hexDigit d) acc).
Proof.
  intros Hd Hm. cbn [hexDigits].
  assert (Hmod : (16 * m + d) mod 16 = d) by (Z.div_mod_to_equations; lia).
  assert (Hdiv : (16 * m + d) / 16 = m) by (Z.div_mod_to_equations; lia).
  rewrite Hmod, Hdiv.
  destruct (Z.ltb_spec (16 * m + d) 16); [lia | done].
Qed.

Lemma hexDigits_last fuel d acc :
  0 <= d < 16 → hexDigits (S fuel) d acc = String (hexDigit d) acc.
Proof.
  intros Hd. cbn [hexDigits]. rewrite Z.mod_small by lia.
  destruct (Z.ltb_spec d 16); [done | lia].
Qed.

(** The text of a number of seven hexadecimal digits. *)
Lemma toString16_digits lead r g b :
  1 <= lead < 16 → 0 <= r <= 255 → 0 <= g <= 255 → 0 <= b <= 255 →
  toString16 (lead * 16777216 + r * 65536 + g * 256 + b)
  = String (hexDigit lead)
      (String (hexDigit (r / 16)) (String (hexDigit (r mod 16))
      (String (hexDigit (g / 16)) (String (hexDigit (g mod 16))
      (String (hexDigit (b / 16)) (String (hexDigit (b mod 16)) "")))))).
Proof.
  intros Hlead Hr Hg Hb.
  set (n := lead * 16777216 + r * 65536 + g * 256 + b).
  assert (Hn : 2 ^ 24 <= n) by (change (2 ^ 24) with 16777216; lia).
  unfold toString16. destruct (Z.ltb_spec n 0); [lia|].
  assert (Hlog : 24 <= Z.log2 n).
  { rewrite <- (Z.log2_pow2 24) by lia. by apply Z.log2_le_mono. }
  set (L := Z.to_nat (Z.log2 n)).
  replace (S L) with (S (S (S (S (S (S (S (L - 6))))))))%nat by lia.
  replace n with
    (16 * (16 * (16 * (16 * (16 * (16 * lead + r / 16) + r mod 16) + g / 16)
                 + g mod 16) + b / 16) + b mod 16)
    by (unfold n; Z.div_mod_to_equations; lia).
  rewrite !hexDigits_step by (Z.div_mod_to_equations; lia).
  rewrite hexDigits_last by lia. done.
Qed.

Lemma rgbToHex_digits lead r g b :
  1 <= lead < 16 → 0 <= r <= 255 → 0 <= g <= 255 → 0 <= b <= 255 →
  String "#"
    (toUpperCase
       (slice1 (toString16 (lead * 16777216 + r * 65536 + g * 256 + b))))
  = String "#" (hexByte r ++ hexByte g ++ hexByte b).
Proof.
  intros Hlead Hr Hg Hb. rewrite toString16_digits by done.
  cbn [slice1 toUpperCase]. unfold hexByte. cbn [append].
  rewrite !upper_hexDigit by (Z.div_mod_to_equations; lia). done.
Qed.

Lemma rgbToHex_bytes r g b :
  0 <= r <= 255 → 0 <= g <= 255 → 0 <= b <= 255 →
  rgbToHex r g b = String "#" (hexByte r ++ hexByte g ++ hexByte b).
Proof.
  intros Hr Hg Hb. unfold rgbToHex.
  rewrite !shl_small by (change (2 ^ 31) with 2147483648; lia).
  change (2 ^ 24) with 16777216. change (2 ^ 16) with 65536.
  change (2 ^ 8) with 256.
  by apply (rgbToHex_digits 1).
Qed.

Lemma rgbToHex_wraps r g b :
  0 <= r <= 255 → 0 <= g <= 255 → 0 <= b <= 255 →
  rgbToHex (r + 256) g b = rgbToHex r g b.
Proof.
  intros Hr Hg Hb. rewrite (rgbToHex_bytes r g b) by done. unfold rgbToHex.
  rewrite !shl_small by (change (2 ^ 31) with 2147483648; lia).
  change (2 ^ 24) with 16777216. change (2 ^ 16) with 65536.
  change (2 ^ 8) with 256.
  replace (1 * 16777216 + (r + 256) * 65536 + g * 256 + b)
    with (2 * 16777216 + r * 65536 + g * 256 + b) by lia.
  by apply (rgbToHex_digits 2).
Qed.

Lemma rgbToHex_inj r g b r' g' b' :
  0 <= r <= 255 → 0 <= g <= 255 → 0 <= b <= 255 →
  0 <= r' <= 255 → 0 <= g' <= 255 → 0 <= b' <= 255 →
  rgbToHex r' g' b' = rgbToHex r g b → (r', g', b') = (r, g, b).
Proof.
  intros Hr Hg Hb Hr' Hg' Hb'. rewrite !rgbToHex_bytes by done.
  unfold hexByte at 1 2 3 4 5 6. cbn [append].
  intros [= H1 H2 H3 H4 H5 H6].
  rewrite (hexByte_inj r' r), (hexByte_inj g' g), (hexByte_inj b' b);
    try done; unfold hexByte; congruence.
Qed.

(** ** Rounding *)

Open Scope R_scope.








Close Scope R_scope.

(** ** The document *)

Lemma append_assoc (a b c : string) : (a ++ b) ++ c = a ++ (b ++ c).
Proof. induction a as [|ch a IH]; cbn [append]; [done | by rewrite IH]. Qed.

Lemma append_empty (a : string) : a ++ "" = a.
Proof. induction a as [|ch a IH]; cbn [append]; [done | by rewrite IH]. Qed.

Lemma fold_left_append {A} (f : A → string) (l : list A) (init : string) :
  fold_left (λ text x, text ++ f x) l init = init ++ joined (map f l).
Proof.
  revert init. induction l as [|x l IH]; intros init; cbn.
  - by rewrite append_empty.
  - by rewrite IH, append_assoc.
Qed.

Variable numberToString : R → string.

Lemma buildSVG_joined width height shapes :
  buildSVG numberToString width height shapes
  = header numberToString width height
    ++ joined (map (pathElement numberToString) shapes) ++ "</svg>".
Proof. unfold buildSVG. by rewrite fold_left_append, append_assoc. Qed.

Lemma pathData_joined first rest :
  pathData numberToString (first :: rest)
  = "M " ++ coordinate numberToString (Geometry.px (CurveFitting.p0 first))
    ++ " " ++ coordinate numberToString (Geometry.py (CurveFitting.p0 first))
    ++ joined (map (curveTo numberToString) (first :: rest)) ++ " Z".
Proof.
  unfold pathData. rewrite fold_left_append. by rewrite !append_assoc.
Qed.

Lemma fillAttr_cases shape :
  fillAttr shape ≠ "" ∧
  (∀ fill, fillColor shape = Some fill → fill ≠ "" → fillAttr shape = fill) ∧
  (∀ c, fillColor shape = None ∨ fillColor shape = Some "" →
        color shape = Some c →
        fillAttr shape
        = rgbToHex (Quantize.r c) (Quantize.g c) (Quantize.b c)) ∧
  (fillColor shape = None ∨ fillColor shape = Some "" →
   color shape = None → fillAttr shape = "black").
Proof.
  destruct shape as [cs [[|ch fill]|] [c|]]; unfold fillAttr;
    cbn [fillColor color]; unfold rgbToHex;
    (split; [done|]); (split; [by intros ? [= <-] ?|]);
    (split; [by intros ? [[=]|[=]] [= <-] | by intros [[=]|[=]] [=]]).
Qed.

End SvgText.

Section SvgProperties.
Import Svg String Ascii.
Open Scope string_scope.

(** X28.  On channels between 0 and 255 [rgbToHex] writes [#] and the two
    upper-case hexadecimal digits of the red, the green and the blue
    channel, so that different colours get different texts.  A channel is
    not clamped: a red channel 256 too large gives the text of the channel
    itself. *)
Theorem rgbToHex_writes_the_hex_digits_of_byte_channels (r g b : Z) :
  0 <= r <= 255 → 0 <= g <= 255 → 0 <= b <= 255 →
  rgbToHex r g b = String "#" (hexByte r ++ hexByte g ++ hexByte b) ∧
  (∀ r' g' b',
     0 <= r' <= 255 → 0 <= g' <= 255 → 0 <= b' <= 255 →
     rgbToHex r' g' b' = rgbToHex r g b → (r', g', b') = (r, g, b)) ∧
  rgbToHex (r + 256) g b = rgbToHex r g b.
Proof.
  intros Hr Hg Hb. split; [by apply rgbToHex_bytes|]. split.
  - intros r' g' b' Hr' Hg' Hb'. by apply rgbToHex_inj.
  - by apply rgbToHex_wraps.
Qed.

Lemma rgbToHex_writes_the_hex_digits_of_byte_channels_witness :
  rgbToHex 255 128 0
  = String "#" (hexByte 255 ++ hexByte 128 ++ hexByte 0) ∧
  (∀ r' g' b',
     0 <= r' <= 255 → 0 <= g' <= 255 → 0 <= b' <= 255 →
     rgbToHex r' g' b' = rgbToHex 255 128 0 → (r', g', b') = (255, 128, 0)) ∧
  rgbToHex (255 + 256) 128 0 = rgbToHex 255 128 0.
Proof.
  apply (rgbToHex_writes_the_hex_digits_of_byte_channels 255 128 0); lia.
Defined.



(** X30.  [buildSVG] returns the header, one [path] element for each shape
    in the order of the list, and the closing tag.  The path data of a shape
    without curves is empty; otherwise it moves to the start of the first
    curve, has one [C] command per curve, and is closed by [Z].  The fill
    attribute is never empty: it is the shape's [fillColor] when that is a
    non-empty text, else the hexadecimal text of its [color], else [black];
    a shape filled with the text [rgb(r,g,b)] keeps that text. *)
Theorem buildSVG_writes_one_path_per_shape
    (numberToString : R → string) (width height : R) (shapes : list Shape) :
  buildSVG numberToString width height shapes
  = header numberToString width height
    ++ joined (map (pathElement numberToString) shapes) ++ "</svg>" ∧
  pathData numberToString [] = "" ∧
  (∀ first rest,
     pathData numberToString (first :: rest)
     = "M " ++ coordinate numberToString (Geometry.px (CurveFitting.p0 first))
       ++ " "
       ++ coordinate numberToString (Geometry.py (CurveFitting.p0 first))
       ++ joined (map (curveTo numberToString) (first :: rest)) ++ " Z") ∧
  (∀ shape,
     fillAttr shape ≠ "" ∧
     (∀ fill, fillColor shape = Some fill → fill ≠ "" →
              fillAttr shape = fill) ∧
     (∀ c, fillColor shape = None ∨ fillColor shape = Some "" →
           color shape = Some c →
           fillAttr shape
           = rgbToHex (Quantize.r c) (Quantize.g c) (Quantize.b c)) ∧
     (fillColor shape = None ∨ fillColor shape = Some "" →
      color shape = None → fillAttr shape = "black")) ∧
  (∀ shapeCurves c shapeColor,
     fillAttr {| curves := shapeCurves;
                 fillColor := Some (rgbText numberToString c);
                 color := shapeColor |}
     = rgbText numberToString c).
Proof.
  split; [apply buildSVG_joined|]. split; [done|].
  split; [apply pathData_joined|]. split; [apply fillAttr_cases|].
  intros shapeCurves c shapeColor.
  by apply (fillAttr_cases
              {| curves := shapeCurves;
                 fillColor := Some (rgbText numberToString c);
                 color := shapeColor |}).
Qed.

Lemma buildSVG_writes_one_path_per_shape_witness :
  fillAttr {| curves := []; fillColor := Some "red"; color := None |} = "red" ∧
  fillAttr {| curves := []; fillColor := Some "";
              color := Some (Quantize.mkColor 255 128 0) |}
  = rgbToHex 255 128 0 ∧
  fillAttr {| curves := []; fillColor := None; color := None |} = "black".
Proof.
  destruct (buildSVG_writes_one_path_per_shape (λ _, "0") 0%R 0%R [])
    as (_ & _ & _ & Hfill & _).
  split; [|split].
  - apply (Hfill {| curves := []; fillColor := Some "red"; color := None |});
      [reflexivity | discriminate].
  - apply (Hfill {| curves := []; fillColor := Some "";
                    color := Some (Quantize.mkColor 255 128 0) |}
             ) with (c := Quantize.mkColor 255 128 0);
      [right; reflexivity | reflexivity].
  - apply (Hfill {| curves := []; fillColor := None; color := None |});
      [left; reflexivity | reflexivity].
Defined.

End SvgProperties.

